(** * SEO task tracker: the task repository, the activity log and the
      completion calculator of [src/app/actions.ts]

    The server actions are embedded as functions over an explicit world:
    the documents held by the key-value store, the outcome of the coming
    store calls, the coming readings of the wall clock, and the trace of
    the store calls made so far.  An asynchronous function becomes an
    action that runs in a world and returns a value or throws, together
    with the world it leaves; [await] is sequencing.

    Conventions of the embedding:
    - JavaScript numbers are IEEE-754 binary64 values, taken from the
      Standard Library's [SpecFloat]; array lengths are natural numbers,
      converted when they enter a division.
    - An object indexed by strings is the finite map of its own
      properties.  A read [o[name]] that finds no own property goes on to
      the properties every plain object inherits from [Object.prototype]
      ([get_property]); an assignment to the name [__proto__] reaches the
      inherited setter ([set_property]).
    - The store holds well-typed documents under the four keys of the
      module; a store call that raises has no effect on the store.
    - Console output is not modelled.

    Besides the server actions of [src/app/actions.ts] the file embeds the
    data fetching of the page ([Home]) and the completion figures of the
    dashboard component ([getCompletionByCategory]). *)

From Stdlib Require Import ZArith Floats.SpecFloat.
From stdpp Require Import gmap strings list fin_maps.

Local Open Scope Z_scope.

(** ** Tasks and the catalog document *)

(** [interface Task].  Identifiers are integers. *)
Record Task := mkTask {
  id : Z;
  name : string;
  completed : bool;
  responsible : string;
  description : string;
}.

(** [interface TasksState]: an object indexed by category name, given by
    its own properties. *)
Abbreviation TasksState := (gmap string (list Task)).

#[global] Instance Task_eq_dec : EqDecision Task.
Proof. solve_decision. Defined.

(** A double quote inside a string literal of the source. *)
Definition dquote : string :=
  String (Ascii.Ascii false true false false false true false false) EmptyString.

Definition quoted (s : string) : string := dquote +:+ s +:+ dquote.

(** ** The static default catalog ([getDefaultTasks]) *)

Definition default_indiancashback : list Task := [
  {| id := 1;
     name := "Optimize cashback category pages";
     completed := false;
     responsible := "SEO Analyst";
     description := "Enhance category pages (Fashion, Home, Electronics, etc.) with unique descriptions, relevant keywords, and proper H1-H6 structure. Improves topical relevance and user engagement for IndianCashback's core offerings." |};
  {| id := 2;
     name := "Implement merchant-specific schema markup";
     completed := false;
     responsible := "Frontend Developer";
     description := "Add structured data for cashback offers, store ratings, and merchant information. Enables rich snippets in search results showing cashback percentages and merchant ratings to improve CTR." |};
  {| id := 3;
     name := "Create merchant comparison content";
     completed := false;
     responsible := "Content Writer";
     description := "Develop in-depth comparison content between popular merchants (e.g., Amazon vs Flipkart cashback). Target high-value keywords that shoppers use when comparing cashback options." |};
  {| id := 4;
     name := ("Optimize site for " +:+ quoted "cashback + [store name]" +:+ " keywords");
     completed := false;
     responsible := "SEO Analyst";
     description := ("Audit and optimize individual store pages for high-volume " +:+ quoted "cashback + [store name]" +:+ " searches (e.g., " +:+ quoted "Amazon cashback" +:+ ", " +:+ quoted "Flipkart cashback" +:+ "). Focus on title tags, meta descriptions, and content.") |};
  {| id := 5;
     name := "Create seasonal cashback guides";
     completed := false;
     responsible := "Content Writer";
     description := "Develop content for seasonal shopping events (Diwali, Republic Day, End of Season) showcasing highest cashback offers. Target seasonal shopping keywords to capture time-specific traffic." |};
  {| id := 6;
     name := "Implement FAQ schema for cashback questions";
     completed := false;
     responsible := "Frontend Developer";
     description := ("Add FAQ schema markup to answer common cashback questions. Improves chances of appearing in Google's featured snippets and " +:+ quoted "People also ask" +:+ " sections for cashback-related queries.") |};
  {| id := 7;
     name := "Create mobile app promotion structure";
     completed := false;
     responsible := "Frontend Developer";
     description := "Optimize app download pages with structured data and app indexing. Improves visibility of IndianCashback's mobile app in search results and enables app-specific search features." |};
  {| id := 8;
     name := "Implement user review schema";
     completed := false;
     responsible := "Frontend Developer";
     description := "Add schema markup for user reviews and ratings of IndianCashback service. Generates star ratings in search results to improve credibility and click-through rates." |}
].

Definition default_india_specific : list Task := [
  {| id := 1;
     name := "Optimize for India-specific search engines";
     completed := false;
     responsible := "SEO Analyst";
     description := "While Google dominates the Indian market, ensure visibility on other platforms like Yahoo India. Different search engines may prioritize different ranking factors." |};
  {| id := 2;
     name := "Implement hreflang for regional targeting";
     completed := false;
     responsible := "Frontend Developer";
     description := "Add hreflang tags to specify that content is targeted for Indian users (hi-IN, en-IN). Helps search engines serve the appropriate version of the site to users based on language and location." |};
  {| id := 3;
     name := "Create Hindi language content";
     completed := false;
     responsible := "Content Writer";
     description := "Develop key pages in Hindi to reach broader Indian audience. Focus on popular shopping categories and cashback explanation content to improve visibility in Hindi-language searches." |};
  {| id := 4;
     name := "Register with Webmaster tools for Indian search engines";
     completed := false;
     responsible := "SEO Analyst";
     description := "Submit sitemaps to Google India and other relevant local search platforms. Ensures proper indexing and monitoring of site performance in Indian search results." |};
  {| id := 5;
     name := "Target India-specific shopping festivals";
     completed := false;
     responsible := "Content Writer";
     description := "Create SEO content targeting major Indian shopping events like Great Indian Festival, Big Billion Days, and Diwali sales. Optimize for festival-specific shopping keyword combinations." |};
  {| id := 6;
     name := "Optimize for mobile search";
     completed := false;
     responsible := "Frontend Developer";
     description := "India is primarily a mobile-first market with over 700 million smartphone users. Ensure site is fully responsive, loads quickly on slower connections, and passes mobile-friendly tests." |};
  {| id := 7;
     name := "Build location-specific landing pages";
     completed := false;
     responsible := "Content Writer";
     description := ("Create optimized pages for major Indian cities (Delhi, Mumbai, Bangalore, etc.) with locally relevant cashback offers. Target " +:+ quoted "[city] + cashback" +:+ " keywords to capture location-specific searches.") |};
  {| id := 8;
     name := "Optimize for voice search in Indian English";
     completed := false;
     responsible := "SEO Analyst";
     description := ("Implement natural language patterns common in Indian English for voice search queries. Target long-tail conversational queries like " +:+ quoted "What is the best cashback for Flipkart in Delhi?") |}
].

Definition default_indiancashback_backlinks : list Task := [
  {| id := 1;
     name := "Analyze Indian cashback competitor backlinks";
     completed := false;
     responsible := "SEO Analyst";
     description := "Conduct thorough analysis of backlink profiles for competing cashback sites like CashKaro, GrabOn, and PaisaWapas. Identify high-quality backlink sources to target for IndianCashback." |};
  {| id := 2;
     name := "Create partner outreach program";
     completed := false;
     responsible := "Marketing";
     description := "Develop outreach strategy for Indian finance bloggers, deal sites, and shopping communities. Create partnership opportunities with mutual benefits to secure relevant backlinks." |};
  {| id := 3;
     name := "Build relationships with Indian e-commerce reviewers";
     completed := false;
     responsible := "Marketing";
     description := "Connect with bloggers and YouTubers who review Indian e-commerce platforms. Provide exclusive cashback offers or affiliate partnerships in exchange for mentions and links." |};
  {| id := 4;
     name := "Develop shareable cashback infographics";
     completed := false;
     responsible := "Content Writer";
     description := "Create data-driven infographics about Indian online shopping trends, cashback savings statistics, or festival shopping guides that will attract backlinks from news sites and blogs." |};
  {| id := 5;
     name := "Guest post on Indian personal finance sites";
     completed := false;
     responsible := "Content Writer";
     description := "Identify top Indian personal finance blogs and pitch valuable content about saving money through cashback while shopping online. Focus on educational content with natural links to IndianCashback." |};
  {| id := 6;
     name := "Create a merchant-specific resource center";
     completed := false;
     responsible := "Content Writer";
     description := "Develop comprehensive guides for maximizing cashback from major Indian retailers. Create link-worthy resources that shopping blogs and deal sites will reference and link to." |};
  {| id := 7;
     name := "Implement HARO strategy for Indian media";
     completed := false;
     responsible := "SEO Analyst";
     description := "Utilize Help A Reporter Out (HARO) to connect with Indian journalists writing about e-commerce, online shopping, or personal finance. Provide expert quotes on cashback topics to earn media mentions and links." |};
  {| id := 8;
     name := "Create broken link building campaign";
     completed := false;
     responsible := "SEO Analyst";
     description := "Identify broken links on Indian shopping, finance, and deal websites that point to defunct cashback resources. Create replacement content and reach out to webmasters with your solution." |}
].

Definition default_indiancashback_technical : list Task := [
  {| id := 1;
     name := "Optimize merchant page URL structure";
     completed := false;
     responsible := "Frontend Developer";
     description := "Implement SEO-friendly URLs for merchant pages (e.g., indiancashback.com/amazon instead of indiancashback.com/store?id=12345). Clean, keyword-rich URLs improve both rankings and user trust." |};
  {| id := 2;
     name := "Implement cashback offer pagination";
     completed := false;
     responsible := "Frontend Developer";
     description := ("Add proper rel=" +:+ quoted "next" +:+ " and rel=" +:+ quoted "prev" +:+ " pagination for category pages with many cashback offers. Helps search engines understand content relationship and index offers efficiently.") |};
  {| id := 3;
     name := "Optimize site for Core Web Vitals";
     completed := false;
     responsible := "Frontend Developer";
     description := "Ensure LCP, FID, and CLS scores meet Google's standards on both mobile and desktop. Page experience is particularly important for cashback sites where users compare multiple offers." |};
  {| id := 4;
     name := "Implement price range schema";
     completed := false;
     responsible := "Frontend Developer";
     description := "Add schema markup for cashback percentage ranges on category pages. Helps search engines understand offer values and can enhance rich snippets in search results." |};
  {| id := 5;
     name := "Create dynamic sitemap for offers";
     completed := false;
     responsible := "Backend Developer";
     description := "Implement dynamically generated sitemap that updates with new cashback offers and merchants. Ensures search engines can discover and index new offers quickly." |};
  {| id := 6;
     name := "Fix merchant page duplicate content";
     completed := false;
     responsible := "SEO Analyst";
     description := "Audit and fix duplicate content issues across similar merchant pages. Implement unique content templates and canonical tags to prevent dilution of ranking signals." |};
  {| id := 7;
     name := "Optimize cashback tracking parameters";
     completed := false;
     responsible := "Backend Developer";
     description := "Ensure affiliate tracking parameters don't create duplicate content issues. Configure URL parameters in Google Search Console and implement proper canonicalization." |};
  {| id := 8;
     name := "Implement Progressive Web App";
     completed := false;
     responsible := "Frontend Developer";
     description := "Convert site to PWA to improve mobile experience and enable offline functionality. PWAs typically have better engagement metrics, which indirectly improve SEO performance." |}
].

Definition default_technical : list Task := [
  {| id := 1;
     name := "Configure robots.txt";
     completed := false;
     responsible := "Frontend Developer";
     description := "Tells search engines which pages to crawl and which to ignore. Improves crawl efficiency and prevents indexing of sensitive or duplicate content. Directly impacts which pages appear in search results." |};
  {| id := 2;
     name := "Fix broken links";
     completed := false;
     responsible := "Frontend Developer";
     description := "Prevents users from encountering 404 errors. Search engines penalize sites with broken links as they indicate poor maintenance. Improves user experience and preserves link equity throughout the site." |};
  {| id := 3;
     name := "Implement SSL certificate";
     completed := false;
     responsible := "Frontend Developer";
     description := ("Enables HTTPS, which is a direct ranking factor. Secures data transmission and builds user trust. Google Chrome marks non-HTTPS sites as " +:+ quoted "Not Secure," +:+ " potentially increasing bounce rates.") |};
  {| id := 4;
     name := "Create XML sitemap";
     completed := false;
     responsible := "Frontend Developer";
     description := "Provides search engines with a complete map of all pages on your site. Increases crawling efficiency and ensures important pages are discovered and indexed. Required for Google Search Console submission." |};
  {| id := 5;
     name := "Minify CSS/JS files";
     completed := false;
     responsible := "Frontend Developer";
     description := "Reduces file sizes by removing unnecessary characters. Improves page load speed, which is a direct ranking factor. Better speed improves user experience metrics like Time to First Byte (TTFB)." |};
  {| id := 6;
     name := "Enable GZIP compression";
     completed := false;
     responsible := "Frontend Developer";
     description := "Compresses web files before sending them to the browser. Can reduce transfer size by up to 70%, significantly improving load speeds. Better speed directly impacts Core Web Vitals metrics used for ranking." |};
  {| id := 7;
     name := "Implement lazy loading";
     completed := false;
     responsible := "Frontend Developer";
     description := "Defers loading of off-screen images until users scroll to them. Improves initial page load speed and Core Web Vitals metrics (LCP, CLS). Reduces bandwidth usage for users who don't scroll the entire page." |};
  {| id := 8;
     name := "Fix 404 pages";
     completed := false;
     responsible := "Frontend Developer";
     description := "Creates custom 404 pages that guide users back to functioning content. Reduces bounce rates when users encounter broken links. Preserves user experience and prevents search engines from indexing error pages." |}
].

Definition default_content : list Task := [
  {| id := 1;
     name := "Implement title tags";
     completed := false;
     responsible := "Frontend Developer";
     description := "Primary ranking factor that tells search engines what the page is about. Appears as the clickable headline in search results. Properly optimized titles with primary keywords improve CTR and rankings." |};
  {| id := 2;
     name := "Add meta descriptions";
     completed := false;
     responsible := "Frontend Developer";
     description := "Provides a summary of page content in search results. While not a direct ranking factor, well-crafted descriptions with keywords improve click-through rates, which indirectly affects rankings." |};
  {| id := 3;
     name := "Structure header tags";
     completed := false;
     responsible := "Frontend Developer";
     description := "Creates a hierarchical structure for content (H1-H6). Helps search engines understand content organization and importance. H1 tags with target keywords significantly impact relevance for those keywords." |};
  {| id := 4;
     name := "Optimize image alt attributes";
     completed := false;
     responsible := "Frontend Developer";
     description := "Provides text alternatives for images that search engines can read. Improves accessibility and helps pages rank in image search. Descriptive alt text with relevant keywords improves content relevance signals." |};
  {| id := 5;
     name := "Implement schema markup";
     completed := false;
     responsible := "Frontend Developer";
     description := "Adds structured data that helps search engines understand content context. Enables rich snippets in search results (ratings, prices, etc.). Increases visibility and click-through rates with enhanced SERP listings." |};
  {| id := 6;
     name := "Add canonical tags";
     completed := false;
     responsible := "Frontend Developer";
     description := "Tells search engines which version of duplicate or similar pages is the primary one. Prevents duplicate content penalties by consolidating ranking signals to the canonical URL. Essential for sites with parameter-based URLs or pagination." |}
].

Definition default_internal : list Task := [
  {| id := 1;
     name := "Create navigation structure";
     completed := false;
     responsible := "Frontend Developer";
     description := "Provides clear pathways for users and search engines to find content. Improves crawlability and passes link equity to important pages. Well-structured navigation reduces bounce rates and improves user experience metrics." |};
  {| id := 2;
     name := "Implement breadcrumbs";
     completed := false;
     responsible := "Frontend Developer";
     description := "Shows users their location within the site hierarchy. Improves navigation and reduces bounce rates. Can appear as rich snippets in search results, improving click-through rates and conveying site structure to search engines." |};
  {| id := 3;
     name := "Add descriptive anchor text";
     completed := false;
     responsible := "Frontend Developer";
     description := ("Uses relevant keywords in link text instead of generic phrases like " +:+ quoted "click here." +:+ " Helps search engines understand what the linked page is about. Descriptive anchor text is a significant ranking factor for the linked page.") |};
  {| id := 4;
     name := "Fix orphaned pages";
     completed := false;
     responsible := "SEO Analyst";
     description := "Identifies and links to pages that have no internal links pointing to them. Improves crawlability and ensures all valuable content is discoverable. Prevents valuable content from being excluded from search indexes due to lack of internal links." |}
].

Definition default_local : list Task := [
  {| id := 1;
     name := "Implement local business schema";
     completed := false;
     responsible := "Frontend Developer";
     description := "Adds structured data specific to local businesses. Enables rich results with business information in search. Improves visibility in local searches and Google Maps with precise business details that search engines can understand." |};
  {| id := 2;
     name := "Create store locator page";
     completed := false;
     responsible := "Frontend Developer";
     description := "Provides users with an interactive way to find physical locations. Improves user experience for location-based searches. Pages with location data help businesses rank higher in local search results." |};
  {| id := 3;
     name := "Add embedded Google Maps";
     completed := false;
     responsible := "Frontend Developer";
     description := "Visually displays business location(s) for users. Improves user experience by providing interactive directions. Sends strong location signals to search engines, improving local search rankings and visibility in map results." |}
].

Definition default_analytics : list Task := [
  {| id := 1;
     name := "Install Google Analytics";
     completed := false;
     responsible := "Frontend Developer";
     description := "Tracks user behavior, traffic sources, and conversions. Provides data to make informed SEO decisions. Enables measurement of SEO campaign effectiveness and identification of high-performing content." |};
  {| id := 2;
     name := "Set up Google Search Console";
     completed := false;
     responsible := "SEO Analyst";
     description := "Monitors site's presence in Google search results. Identifies issues affecting search performance. Provides data on keywords driving traffic, click-through rates, and index coverage problems that need to be addressed." |};
  {| id := 3;
     name := "Configure event tracking";
     completed := false;
     responsible := "Frontend Developer";
     description := "Tracks specific user interactions like downloads or form submissions. Measures engagement beyond pageviews. Data helps identify which content elements drive user engagement and conversions to inform SEO strategy." |};
  {| id := 4;
     name := "Set up performance monitoring";
     completed := false;
     responsible := "Frontend Developer";
     description := "Continuously tracks Core Web Vitals and other performance metrics. Alerts to issues affecting user experience and rankings. Essential for maintaining good performance scores that directly impact search rankings." |}
].

Definition default_ongoing : list Task := [
  {| id := 1;
     name := "Create content update schedule";
     completed := false;
     responsible := "SEO Analyst";
     description := "Establishes a regular cadence for refreshing existing content. Fresh content signals site activity to search engines. Regular updates improve relevance and can trigger ranking reconsiderations for previously published content." |};
  {| id := 2;
     name := "Set up automated testing";
     completed := false;
     responsible := "Frontend Developer";
     description := "Creates scripts to regularly check for SEO issues. Prevents regression when new features are deployed. Automated testing ensures consistent compliance with SEO best practices across all site updates." |};
  {| id := 3;
     name := "Configure performance alerts";
     completed := false;
     responsible := "Frontend Developer";
     description := "Sets up notifications for sudden drops in page speed or other metrics. Enables quick response to performance issues. Prevents long-term ranking impacts from undetected performance degradation." |}
].

Definition default_seo_analyst : list Task := [
  {| id := 1;
     name := "Conduct keyword research";
     completed := false;
     responsible := "SEO Analyst";
     description := "Identifies high-value search terms with optimal search volume and competition levels. Forms the foundation of all SEO efforts by determining target keywords. Directly impacts which terms the site can realistically rank for based on competition analysis." |};
  {| id := 2;
     name := "Perform competitor analysis";
     completed := false;
     responsible := "SEO Analyst";
     description := "Identifies top-ranking competitors and analyzes their content, backlink profiles, and keyword strategies. Reveals content gaps and keyword opportunities. Provides benchmarks for performance and reveals strategies working in your specific industry." |};
  {| id := 3;
     name := "Develop content strategy";
     completed := false;
     responsible := "SEO Analyst";
     description := "Creates a systematic plan for content creation based on keyword research and competitor analysis. Maps topics to user intent throughout the buying journey. Ensures all content serves a specific SEO purpose with measurable outcomes." |};
  {| id := 4;
     name := "Define title tag specifications";
     completed := false;
     responsible := "SEO Analyst";
     description := "Creates detailed title tag templates with exact character limits, keyword placement, and brand positioning. Ensures consistency across similar page types. Provides specific instructions for developers to implement optimal title structures." |};
  {| id := 5;
     name := "Provide meta description formats";
     completed := false;
     responsible := "SEO Analyst";
     description := "Develops meta description templates with optimal character counts, keyword inclusion, and compelling calls-to-action. Increases click-through rates from search results. Provides exact specifications for developers to implement." |};
  {| id := 6;
     name := "Analyze search intent";
     completed := false;
     responsible := "SEO Analyst";
     description := "Determines whether users searching specific keywords have informational, navigational, commercial, or transactional intent. Ensures content matches user expectations. Directly impacts bounce rates, engagement metrics, and conversion rates." |};
  {| id := 7;
     name := "Identify backlink opportunities";
     completed := false;
     responsible := "SEO Analyst";
     description := "Researches potential sources for quality backlinks such as industry directories, partner websites, and content placement opportunities. Improves domain authority. Builds the external link profile that directly impacts search rankings." |};
  {| id := 8;
     name := "Monitor algorithm updates";
     completed := false;
     responsible := "SEO Analyst";
     description := "Tracks and analyzes search engine algorithm changes and their potential impact on rankings. Enables quick adaptations to strategy when needed. Prevents ranking drops by staying aligned with evolving search engine requirements." |};
  {| id := 9;
     name := "Analyze ranking positions";
     completed := false;
     responsible := "SEO Analyst";
     description := "Tracks keyword ranking positions across search engines and identifies trends and opportunities. Measures effectiveness of SEO efforts over time. Provides data to justify continued investment in specific SEO initiatives." |};
  {| id := 10;
     name := "Conduct content gap analysis";
     completed := false;
     responsible := "SEO Analyst";
     description := "Identifies topics and keywords that competitors rank for but your site doesn't address. Reveals untapped content opportunities with existing search demand. Provides direction for content creation that can quickly capture uncontested rankings." |};
  {| id := 11;
     name := "Optimize for featured snippets";
     completed := false;
     responsible := "SEO Analyst";
     description := "Structures content to specifically target featured snippet positions at the top of search results. Dramatically increases visibility and click-through rates. Requires specific content formatting that developers need to implement." |};
  {| id := 12;
     name := "Create schema markup strategy";
     completed := false;
     responsible := "SEO Analyst";
     description := "Determines which schema.org structured data types are most relevant for each page type. Enables rich snippets in search results. Provides exact specifications for developers to implement the appropriate JSON-LD markup." |}
].

Definition default_backlinks : list Task := [
  {| id := 1;
     name := "Conduct backlink audit";
     completed := false;
     responsible := "SEO Analyst";
     description := "Analyzes existing backlink profile to identify toxic links, opportunities for improvement, and current strengths. Helps avoid Google penalties. Establishes baseline metrics for future link building activities." |};
  {| id := 2;
     name := "Create link building strategy";
     completed := false;
     responsible := "SEO Analyst";
     description := "Develops a comprehensive plan for acquiring high-quality backlinks from relevant sources. Improves domain authority and search rankings. Sets priorities based on competitor analysis and keyword difficulty." |};
  {| id := 3;
     name := "Develop guest posting plan";
     completed := false;
     responsible := "SEO Analyst";
     description := "Identifies high-authority sites in your industry that accept guest posts and creates outreach templates. Builds relevant, high-quality backlinks. Establishes thought leadership and drives referral traffic." |};
  {| id := 4;
     name := "Create shareable content assets";
     completed := false;
     responsible := "SEO Analyst";
     description := "Develops content specifically designed to attract natural backlinks such as original research, infographics, or tools. Generates organic link acquisition. Creates resources industry websites want to reference and link to." |};
  {| id := 5;
     name := "Submit to industry directories";
     completed := false;
     responsible := "SEO Analyst";
     description := "Identifies and submits site to relevant, high-quality industry directories and association websites. Builds foundational backlinks from trusted sources. Improves local and industry-specific relevance signals." |};
  {| id := 6;
     name := "Perform broken link building";
     completed := false;
     responsible := "SEO Analyst";
     description := "Finds broken links on external sites and offers your content as a replacement. Leverages existing link opportunities. Provides immediate value to site owners while gaining valuable backlinks." |};
  {| id := 7;
     name := "Monitor brand mentions";
     completed := false;
     responsible := "SEO Analyst";
     description := "Tracks unlinked mentions of your brand across the web and reaches out to convert them to backlinks. Capitalizes on existing brand awareness. Turns already-existing mentions into valuable ranking signals." |};
  {| id := 8;
     name := "Analyze competitor backlinks";
     completed := false;
     responsible := "SEO Analyst";
     description := "Identifies sites linking to competitors but not to you and creates outreach strategies. Leverages proven link opportunities. Targets sites already interested in your industry or niche." |};
  {| id := 9;
     name := "Disavow toxic backlinks";
     completed := false;
     responsible := "SEO Analyst";
     description := "Identifies and disavows harmful backlinks that could trigger Google penalties. Protects site from negative SEO and algorithmic penalties. Maintains a clean backlink profile focused on quality rather than quantity." |};
  {| id := 10;
     name := "Track backlink acquisition";
     completed := false;
     responsible := "SEO Analyst";
     description := "Monitors new and lost backlinks and measures their impact on rankings and organic traffic. Quantifies link building effectiveness. Provides data to refine strategy and focus on most effective tactics." |}
].

Definition getDefaultTasks : gmap string (list Task) :=
  list_to_map [
    ("indiancashback", default_indiancashback);
    ("india_specific", default_india_specific);
    ("indiancashback_backlinks", default_indiancashback_backlinks);
    ("indiancashback_technical", default_indiancashback_technical);
    ("technical", default_technical);
    ("content", default_content);
    ("internal", default_internal);
    ("local", default_local);
    ("analytics", default_analytics);
    ("ongoing", default_ongoing);
    ("seo_analyst", default_seo_analyst);
    ("backlinks", default_backlinks)
  ].

(** ** JavaScript numbers *)

Definition prec : Z := 53.
Definition emax : Z := 1024.

Abbreviation number := spec_float.

#[global] Instance number_eq_dec : EqDecision number.
Proof. solve_decision. Defined.

(** The number denoted by an integer literal or by an array length. *)
Definition Number (z : Z) : number := binary_normalize prec emax z 0 false.

Definition js_div (x y : number) : number := SFdiv prec emax x y.
Definition js_mul (x y : number) : number := SFmul prec emax x y.

(** [Math.round]: the nearest integer, a tie going towards plus infinity.
    A finite number [m * 2^e] with [e < 0] is sent to
    [floor (m * 2^e + 1/2)]; numbers with [0 <= e] are integers already. *)
Definition Math_round (x : number) : number :=
  match x with
  | S754_finite s m e =>
      if 0 <=? e then x
      else binary_normalize prec emax
             ((2 * cond_Zopp s (Zpos m) + 2 ^ (- e)) / 2 ^ (1 - e)) 0 s
  | _ => x
  end.

(** ** Completion calculator *)

(** [list.filter(task => task.completed).length] *)
Definition completedCount (l : list Task) : nat :=
  length (filter (fun t => completed t = true) l).

(** The expression shared by both calculators:
    [totalTasks > 0 ? Math.round((completedTasks / totalTasks) * 100) : 0]. *)
Definition percentage (completedTasks totalTasks : nat) : number :=
  if (0 <? totalTasks)%nat
  then Math_round
         (js_mul (js_div (Number (Z.of_nat completedTasks))
                         (Number (Z.of_nat totalTasks)))
                 (Number 100))
  else Number 0.

(** [Object.values(tasks)] and [Array.prototype.flat]. *)
Definition Object_values {A} (o : gmap string A) : list A :=
  (map_to_list o).*2.

Definition flat {A} (ls : list (list A)) : list A := concat ls.

(** [calculateOverallCompletion(tasks)] *)
Definition calculateOverallCompletion (tasks : option TasksState) : number :=
  match tasks with
  | None => Number 0
  | Some doc =>
      let allTasks := flat (Object_values doc) in
      percentage (completedCount allTasks) (length allTasks)
  end.

(** The percentage as the specification words it: [100 * k / n] rounded to
    the nearest integer, a tie rounded up, in exact arithmetic. *)
Definition round_half_up_percent (k n : Z) : Z := (200 * k + n) / (2 * n).

(** Whether [100 * k / n] lies exactly half way between two integers. *)
Definition is_tie (k n : Z) : bool := (200 * k) mod (2 * n) =? n.

(** The record [mrs] of the right shift inside a rounding stands for the
    fraction [x / b]: its mantissa is the integer part, its round bit says
    whether the rest reaches one half, and its sticky bit whether the rest
    is neither zero nor one half. *)
Definition shr_represents (mrs : shr_record) (x b : Z) : Prop :=
  0 < b ∧ 0 ≤ shr_m mrs
  ∧ shr_m mrs * b ≤ x < (shr_m mrs + 1) * b
  ∧ (shr_r mrs = true ↔ b ≤ 2 * (x - shr_m mrs * b))
  ∧ (shr_s mrs = false ↔
       2 * (x - shr_m mrs * b) = 0 ∨ 2 * (x - shr_m mrs * b) = b).

(** ** Stored documents *)

(** [new Date().toISOString()]: the ISO-8601 rendering of an instant, kept
    as the instant in epoch milliseconds. *)
Inductive ISOString := toISOString (ms : Z).

(** The entries found in the activity log: those written by
    [addActivityLog] (the shape of [interface ActivityLogEntry]) and the
    record written when the store is seeded. *)
Inductive ActivityLogEntry :=
| LogEntry (type message : string) (timestamp : Z)
| InitEntry (entry_id : Z) (timestamp : ISOString)
            (action description user : string).

(** The score and integration documents are plain JSON values here. *)
#[warnings="-register-all"]
Inductive Json :=
| JNull
| JBool (b : bool)
| JNumber (n : Z)
| JString (s : string)
| JDate (d : ISOString)
| JObject (fields : list (string * Json)).

#[global] Instance ISOString_eq_dec : EqDecision ISOString.
Proof. solve_decision. Defined.

#[global] Instance ActivityLogEntry_eq_dec : EqDecision ActivityLogEntry.
Proof. solve_decision. Defined.

(** The four documents of the key-value store, each present or absent. *)
Record Store := mkStore {
  tasks_doc : option TasksState;
  activity_log_doc : option (list ActivityLogEntry);
  seo_score_doc : option Json;
  integrations_doc : option Json;
}.

(** The keys, indexed by the type their document is cast to. *)
Inductive Key : Type → Type :=
| TASKS_KEY : Key TasksState
| ACTIVITY_LOG_KEY : Key (list ActivityLogEntry)
| SEO_SCORE_KEY : Key Json
| INTEGRATION_STATUS_KEY : Key Json.

Definition key_name {A} (k : Key A) : string :=
  match k with
  | TASKS_KEY => "seo:tasks"
  | ACTIVITY_LOG_KEY => "seo:activity_log"
  | SEO_SCORE_KEY => "seo:score"
  | INTEGRATION_STATUS_KEY => "seo:integrations"
  end.

Definition store_get {A} (k : Key A) (s : Store) : option A :=
  match k with
  | TASKS_KEY => tasks_doc s
  | ACTIVITY_LOG_KEY => activity_log_doc s
  | SEO_SCORE_KEY => seo_score_doc s
  | INTEGRATION_STATUS_KEY => integrations_doc s
  end.

Definition store_set {A} (k : Key A) : A → Store → Store :=
  match k in Key T return T → Store → Store with
  | TASKS_KEY => λ v s,
      mkStore (Some v) (activity_log_doc s) (seo_score_doc s) (integrations_doc s)
  | ACTIVITY_LOG_KEY => λ v s,
      mkStore (tasks_doc s) (Some v) (seo_score_doc s) (integrations_doc s)
  | SEO_SCORE_KEY => λ v s,
      mkStore (tasks_doc s) (activity_log_doc s) (Some v) (integrations_doc s)
  | INTEGRATION_STATUS_KEY => λ v s,
      mkStore (tasks_doc s) (activity_log_doc s) (seo_score_doc s) (Some v)
  end.

(** ** The world of a server action *)

Inductive Op := OpExists | OpGet | OpSet.

(** One call to the store client: the operation, the key, and whether the
    call returned ([true]) or raised ([false]). *)
Record Event := mkEvent { ev_op : Op; ev_key : string; ev_ok : bool }.

#[global] Instance Op_eq_dec : EqDecision Op.
Proof. solve_decision. Defined.

(** [faults] gives the outcome of the coming store calls, one flag per
    call in order, [true] for a call that raises; once the list is used up
    no call raises.  A call that raises has no effect on the store.
    [clock] gives the coming readings of the wall clock, each reading
    consuming one (0 once the list is used up).  [trace] holds the calls
    made so far, the latest first. *)
Record World := mkWorld {
  store : Store;
  faults : list bool;
  clock : list Z;
  trace : list Event;
}.

Inductive Error :=
| StorageError (op : Op) (key : string)
| TaskNotFound (category : string) (taskId : Z)
| JsError (message : string)
| TypeError (message : string).

Inductive Result (A : Type) :=
| Ok (a : A)
| Throw (e : Error).
Arguments Ok {A} a.
Arguments Throw {A} e.

(** An asynchronous function: it runs in a world and returns or throws. *)
Definition Action (A : Type) : Type := World → Result A * World.

#[global] Instance Action_ret : MRet Action := λ A a w, (Ok a, w).

#[global] Instance Action_bind : MBind Action := λ A B f m w,
  match m w with
  | (Ok a, w') => f a w'
  | (Throw e, w') => (Throw e, w')
  end.

Definition throw {A} (e : Error) : Action A := λ w, (Throw e, w).

(** [try { body } catch (error) { handler }] *)
Definition try_catch {A} (body : Action A) (handler : Error → Action A)
  : Action A := λ w,
  match body w with
  | (Ok a, w') => (Ok a, w')
  | (Throw e, w') => handler e w'
  end.

(** A call to the store client. *)
Definition redis_call {A} (op : Op) (key : string) (run : Store → A * Store)
  : Action A := λ w,
  let fs := tail (faults w) in
  if head (faults w) is Some true
  then (Throw (StorageError op key),
        mkWorld (store w) fs (clock w) (mkEvent op key false :: trace w))
  else let '(a, s) := run (store w) in
       (Ok a, mkWorld s fs (clock w) (mkEvent op key true :: trace w)).

Definition isSome {A} (o : option A) : bool :=
  if o is Some _ then true else false.

(** [redis.exists(key)], read as a truth value. *)
Definition redis_exists {A} (k : Key A) : Action bool :=
  redis_call OpExists (key_name k) (λ s, (isSome (store_get k s), s)).

(** [redis.get(key)], [None] being [null]. *)
Definition redis_get {A} (k : Key A) : Action (option A) :=
  redis_call OpGet (key_name k) (λ s, (store_get k s, s)).

(** [redis.set(key, value)] *)
Definition redis_set {A} (k : Key A) (v : A) : Action unit :=
  redis_call OpSet (key_name k) (λ s, (tt, store_set k v s)).

(** [Date.now()] *)
Definition Date_now : Action Z := λ w,
  (Ok (hd 0 (clock w)),
   mkWorld (store w) (faults w) (tail (clock w)) (trace w)).

(** [new Date().toISOString()] *)
Definition Date_toISOString : Action ISOString :=
  t ← Date_now; mret (toISOString t).

(** ** Server actions *)

Definition initial_log_entry (now : ISOString) : ActivityLogEntry :=
  InitEntry 1 now "SYSTEM_INIT"
            "SEO Dashboard initialized with default tasks" "System".

Definition initial_seo_score (now : ISOString) : Json :=
  JObject [("overall", JNumber 55); ("technical", JNumber 40);
           ("content", JNumber 60); ("backlinks", JNumber 45);
           ("performance", JNumber 65); ("lastUpdated", JDate now)].

Definition not_connected : Json :=
  JObject [("connected", JBool false); ("lastSync", JNull)].

Definition initial_integration_status : Json :=
  JObject [("googleSearchConsole", not_connected);
           ("googleAnalytics", not_connected);
           ("ahrefs", not_connected);
           ("semrush", not_connected);
           ("screaming_frog", not_connected)].

(** [initializeRedisData()]: seeds the four documents when the catalog key
    is absent; every error is caught and logged to the console. *)
Definition initializeRedisData : Action unit :=
  try_catch
    (tasksExist ← redis_exists TASKS_KEY;
     if negb tasksExist then
       redis_set TASKS_KEY getDefaultTasks;;
       t1 ← Date_toISOString;
       redis_set ACTIVITY_LOG_KEY [initial_log_entry t1];;
       t2 ← Date_toISOString;
       redis_set SEO_SCORE_KEY (initial_seo_score t2);;
       redis_set INTEGRATION_STATUS_KEY initial_integration_status
     else mret tt)
    (λ _, mret tt).

(** [getTasks()] *)
Definition getTasks : Action TasksState :=
  try_catch
    (initializeRedisData;;
     tasks ← redis_get TASKS_KEY;
     mret (default getDefaultTasks tasks))
    (λ _, mret getDefaultTasks).

(** [getActivityLog()] *)
Definition getActivityLog : Action (list ActivityLogEntry) :=
  try_catch
    (initializeRedisData;;
     log ← redis_get ACTIVITY_LOG_KEY;
     mret (default [] log))
    (λ _, mret []).

(** [addActivityLog(action, description)]: the new entry, then
    [log.slice(0, 19)]. *)
Definition addActivityLog (action description : string) : Action unit :=
  try_catch
    (log ← getActivityLog;
     now ← Date_now;
     let newEntry := LogEntry action description now in
     redis_set ACTIVITY_LOG_KEY (newEntry :: take 19 log))
    (λ _, mret tt).

(** [tasks[category]?.find(t => t.id === taskId)].  The lookup is among
    own properties: on an inherited property, which has no [find] method,
    the call throws a [TypeError], and the handler of
    [toggleTaskCompletion] turns it into the error it throws for a task
    that is not found. *)
Definition find_task (tasks : TasksState) (category : string) (taskId : Z)
  : option Task :=
  l ← tasks !! category; List.find (λ t, id t =? taskId) l.

(** [task.id === taskId ? { ...task, completed: !task.completed } : task] *)
Definition toggle_if (taskId : Z) (task : Task) : Task :=
  if id task =? taskId
  then mkTask (id task) (name task) (negb (completed task))
              (responsible task) (description task)
  else task.

(** [{ ...tasks, [category]: tasks[category]?.map(...) || [] }] *)
Definition toggled (tasks : TasksState) (category : string) (taskId : Z)
  : TasksState :=
  <[category := default [] (map (toggle_if taskId) <$> tasks !! category)]>
    tasks.

Definition activity_type (newStatus : bool) : string :=
  if newStatus then "TASK_COMPLETED" else "TASK_REOPENED".

Definition activity_message (newStatus : bool) (task_name category : string)
  : string :=
  (if newStatus then "Completed" else "Reopened")
    +:+ " task: " +:+ task_name +:+ " in " +:+ category.

(** [toggleTaskCompletion(category, taskId)] *)
Definition toggleTaskCompletion (category : string) (taskId : Z)
  : Action TasksState :=
  try_catch
    (tasks ← getTasks;
     match find_task tasks category taskId with
     | None => throw (TaskNotFound category taskId)
     | Some task =>
         let updatedTasks := toggled tasks category taskId in
         redis_set TASKS_KEY updatedTasks;;
         let newStatus := negb (completed task) in
         addActivityLog (activity_type newStatus)
                        (activity_message newStatus (name task) category);;
         mret updatedTasks
     end)
    (λ _, throw (JsError "Failed to update task status")).

(** ** Property reads on plain objects *)

(** The names of the properties of [Object.prototype], which every plain
    object inherits: object literals, objects built by a spread, and the
    objects the store client parses from JSON. *)
Definition Object_prototype : list string :=
  ["constructor"; "__defineGetter__"; "__defineSetter__"; "hasOwnProperty";
   "__lookupGetter__"; "__lookupSetter__"; "isPrototypeOf";
   "propertyIsEnumerable"; "toString"; "valueOf"; "__proto__";
   "toLocaleString"].

(** What the read [o[name]] finds: an own property, or else an inherited
    one (a function, or for [__proto__] the prototype object: in both cases
    a value that counts as true and is not an array), or else
    [undefined]. *)
Inductive Property (A : Type) :=
| Own (value : A)
| Inherited (name : string)
| Undefined.
Arguments Own {A} value.
Arguments Inherited {A} name.
Arguments Undefined {A}.

Definition get_property {A} (o : gmap string A) (name : string) : Property A :=
  match o !! name with
  | Some value => Own value
  | None =>
      if bool_decide (name ∈ Object_prototype) then Inherited name
      else Undefined
  end.

(** [o[name] = value] for a number [value]: the name [__proto__] reaches
    the setter inherited from [Object.prototype], which ignores a value
    that is neither an object nor [null]; any other name creates or
    replaces an own property. *)
Definition set_property (o : gmap string number) (name : string)
    (value : number) : gmap string number :=
  if bool_decide (name = "__proto__") then o else <[name := value]> o.

(** A settled promise: [Result] is a monad. *)
#[global] Instance Result_ret : MRet Result := λ A a, Ok a.

#[global] Instance Result_bind : MBind Result := λ A B f r,
  match r with
  | Ok a => f a
  | Throw e => Throw e
  end.

(** [await] on the promise of a function that calls no store. *)
Definition await {A} (r : Result A) : Action A := λ w, (r, w).

(** [calculateCompletion(tasks, category)]; [None] is a null document.
    An inherited property passes the guard [!tasks[category]] and has no
    [filter] method: the call [tasks[category].filter(...)] throws a
    [TypeError]. *)
Definition calculateCompletion (tasks : option TasksState) (category : string)
  : Result number :=
  match tasks with
  | None => Ok (Number 0)
  | Some doc =>
      match get_property doc category with
      | Undefined => Ok (Number 0)
      | Inherited _ =>
          Throw (TypeError "tasks[category].filter is not a function")
      | Own l => Ok (percentage (completedCount l) (length l))
      end
  end.

(** ** Fixtures and decision procedures used by the statements *)

(** The sum of a measure over the categories of a document. *)
Definition totalTasks (doc : TasksState) : nat :=
  sum_list_with length (Object_values doc).

Definition totalCompleted (doc : TasksState) : nat :=
  sum_list_with completedCount (Object_values doc).

(** Does the binary64 computation give the exactly rounded percentage? *)
Definition exactly_rounded (k n : nat) : bool :=
  bool_decide (percentage k n
               = Number (round_half_up_percent (Z.of_nat k) (Z.of_nat n))).

(** The computed percentage is the exactly rounded one, or one less when
    [100 * k / n] is a tie. *)
Definition rounded_or_tie_below (k n : nat) : bool :=
  exactly_rounded k n
  || (is_tie (Z.of_nat k) (Z.of_nat n)
      && bool_decide (percentage k n
                      = Number (round_half_up_percent (Z.of_nat k) (Z.of_nat n) - 1))).

(** Every pair [k <= n] with [1 <= n <= bound] passes [check]. *)
Definition all_pairs_upto (check : nat → nat → bool) (bound : nat) : bool :=
  forallb (λ n, forallb (λ k, check k n) (seq 0 (S n))) (seq 1 bound).

(** [n] tasks numbered from 1, the first [k] of them completed. *)
Definition sample_tasks (k n : nat) : list Task :=
  map (λ i, mkTask (Z.of_nat i) "task" (i <=? k)%nat "owner" "details")
      (seq 1 n).

(** Whether the [n]-th coming store call raises. *)
Definition raises (w : World) (n : nat) : bool :=
  default false (faults w !! n).

(** The record of a store call in the trace. *)
Definition ev (op : Op) {A} (k : Key A) (ok : bool) : Event :=
  mkEvent op (key_name k) ok.

(** The stored activity log holds at most 20 entries. *)
Definition log_capped (s : Store) : Prop :=
  ∀ l, activity_log_doc s = Some l → (length l ≤ 20)%nat.

(** The calls a client of the module can make. *)
Inductive Call :=
| CallGetTasks
| CallGetActivityLog
| CallAddActivityLog (action description : string)
| CallToggleTaskCompletion (category : string) (taskId : Z).

(** The world left by a call, its result dropped. *)
Definition run_call (c : Call) (w : World) : World :=
  match c with
  | CallGetTasks => (getTasks w).2
  | CallGetActivityLog => (getActivityLog w).2
  | CallAddActivityLog a d => (addActivityLog a d w).2
  | CallToggleTaskCompletion c i => (toggleTaskCompletion c i w).2
  end.

Definition run_calls (cs : list Call) (w : World) : World :=
  foldl (λ w c, run_call c w) w cs.

(** A store as found before the first request. *)
Definition fresh_store : Store := mkStore None None None None.

(** The store left by a seeding run: the four documents are written in
    order, the log and the score reading the clock once each. *)
Definition seeded_store (cl : list Z) : Store :=
  mkStore (Some getDefaultTasks)
          (Some [initial_log_entry (toISOString (hd 0 cl))])
          (Some (initial_seo_score (toISOString (hd 0 (tail cl)))))
          (Some initial_integration_status).

Definition seeding_trace : list Event :=
  [ev OpSet INTEGRATION_STATUS_KEY true; ev OpSet SEO_SCORE_KEY true;
   ev OpSet ACTIVITY_LOG_KEY true; ev OpSet TASKS_KEY true;
   ev OpExists TASKS_KEY true].

(** The entry [toggleTaskCompletion] logs for a task found in the state
    [completed], at the clock reading [now]. *)
Definition toggle_entry (task : Task) (category : string) (now : Z)
  : ActivityLogEntry :=
  LogEntry (activity_type (negb (completed task)))
           (activity_message (negb (completed task)) (name task) category)
           now.

(** No store call of the trace segment is a write. *)
Definition no_write (events : list Event) : Prop :=
  Forall (λ e, ev_op e ≠ OpSet) events.

(** The integers [0, 1, ..., n - 1]. *)
Definition seq_Z_list (n : nat) : list Z := map Z.of_nat (seq 0 n).

(** ** The score and integration snapshots *)

(** The truth value of a stored JSON value in a condition. *)
Definition truthy (v : Json) : bool :=
  match v with
  | JNull => false
  | JBool b => b
  | JNumber n => negb (n =? 0)
  | JString s => if s is EmptyString then false else true
  | JDate _ => true
  | JObject _ => true
  end.

(** The score [getSEOScore] falls back to. *)
Definition default_seo_score (now : ISOString) : Json :=
  JObject [("overall", JNumber 68); ("content", JNumber 72);
           ("links", JNumber 65); ("performance", JNumber 82);
           ("mobile", JNumber 54); ("lastUpdated", JDate now)].

(** [getSEOScore()]; [redis.get] gives [null] for an absent key. *)
Definition getSEOScore : Action Json :=
  try_catch
    (initializeRedisData;;
     stored ← redis_get SEO_SCORE_KEY;
     let score := default JNull stored in
     if truthy score then mret score
     else
       now ← Date_toISOString;
       let defaultScore := default_seo_score now in
       redis_set SEO_SCORE_KEY defaultScore;;
       mret defaultScore)
    (λ _, now ← Date_toISOString; mret (default_seo_score now)).

(** The status [getIntegrationStatus] falls back to. *)
Definition default_integration_status : Json :=
  JObject [("google", JBool false); ("ahrefs", JBool false);
           ("semrush", JBool false); ("analytics", JBool false)].

(** [getIntegrationStatus()] *)
Definition getIntegrationStatus : Action Json :=
  try_catch
    (initializeRedisData;;
     stored ← redis_get INTEGRATION_STATUS_KEY;
     let status := default JNull stored in
     if truthy status then mret status
     else
       let defaultStatus := default_integration_status in
       redis_set INTEGRATION_STATUS_KEY defaultStatus;;
       mret defaultStatus)
    (λ _, mret default_integration_status).

(** [obj.field] on a JSON value, [None] being [undefined]. *)
Definition field (name : string) (v : Json) : option Json :=
  if v is JObject fields then snd <$> List.find (λ p, String.eqb (fst p) name) fields
  else None.

(** ** The page loader and the dashboard's completion figures *)

(** [Object.keys(tasks)] *)
Definition Object_keys {A} (o : gmap string A) : list string :=
  (map_to_list o).*1.

(** The loop
    [for (const category of Object.keys(tasks))
       completions[category] = await calculateCompletion(tasks, category)]
    of the page loader and of [updateCompletionStats], from the empty
    record. *)
Definition categoryCompletions (tasks : TasksState)
  : Result (gmap string number) :=
  foldl (λ (loop : Result (gmap string number)) category,
           completions ← loop;
           value ← calculateCompletion (Some tasks) category;
           mret (set_property completions category value))
        (Ok ∅) (Object_keys tasks).

(** The truth value of a number: zero and NaN are false. *)
Definition number_truthy (x : number) : bool :=
  match x with
  | S754_zero _ | S754_nan => false
  | _ => true
  end.

(** A value read from the record of completion figures: a number, or a
    property inherited from [Object.prototype]. *)
Inductive Figure :=
| FigureNumber (x : number)
| FigureInherited (name : string).

(** [categoryCompletions[category] || 0] *)
Definition getCompletionByCategory (completions : gmap string number)
    (category : string) : Figure :=
  match get_property completions category with
  | Own x => if number_truthy x then FigureNumber x else FigureNumber (Number 0)
  | Inherited name => FigureInherited name
  | Undefined => FigureNumber (Number 0)
  end.

(** The properties the page passes to the dashboard. *)
Record HomeProps := mkHomeProps {
  initialTasks : TasksState;
  initialActivityLog : list ActivityLogEntry;
  initialSeoScore : Json;
  initialIntegrationStatus : Json;
  initialOverallCompletion : number;
  initialCategoryCompletions : gmap string number;
}.

(** [Home()]: the server-side data fetching of the page. *)
Definition Home : Action HomeProps :=
  tasks ← getTasks;
  activityLog ← getActivityLog;
  seoScore ← getSEOScore;
  integrationStatus ← getIntegrationStatus;
  let overallCompletion := calculateOverallCompletion (Some tasks) in
  categoryCompletions ← await (categoryCompletions tasks);
  mret (mkHomeProps tasks activityLog seoScore integrationStatus
          overallCompletion categoryCompletions).

(** ** Vocabulary of the further properties *)

(** What a toggle never changes in a task. *)
Definition task_identity (t : Task) : Z * string * string * string :=
  (id t, name t, responsible t, description t).

(** A catalog with the completion flags erased. *)
Definition shape (d : TasksState) : gmap string (list (Z * string * string * string)) :=
  map task_identity <$> d.

(** The stored catalog, if any, has the tasks of the default catalog. *)
Definition catalog_shaped (s : Store) : Prop :=
  ∀ d, tasks_doc s = Some d → shape d = shape getDefaultTasks.

(** Every server action and the page loader. *)
Inductive Request :=
| ReqInitialize
| ReqGetTasks
| ReqGetActivityLog
| ReqAddActivityLog (action description : string)
| ReqGetSEOScore
| ReqGetIntegrationStatus
| ReqToggle (category : string) (taskId : Z)
| ReqHome.

(** The world left by a request, its result dropped. *)
Definition serve (r : Request) (w : World) : World :=
  match r with
  | ReqInitialize => (initializeRedisData w).2
  | ReqGetTasks => (getTasks w).2
  | ReqGetActivityLog => (getActivityLog w).2
  | ReqAddActivityLog a d => (addActivityLog a d w).2
  | ReqGetSEOScore => (getSEOScore w).2
  | ReqGetIntegrationStatus => (getIntegrationStatus w).2
  | ReqToggle c i => (toggleTaskCompletion c i w).2
  | ReqHome => (Home w).2
  end.

Definition serve_all (rs : list Request) (w : World) : World :=
  foldl (λ w r, serve r w) w rs.

(** A Hoare triple over the store: from a store satisfying [P], the
    action leaves a store satisfying [Q a] when it returns [a], and [E]
    when it throws; the outcomes of the store calls are arbitrary. *)
Definition hoare {A} (P : Store → Prop) (m : Action A)
    (Q : A → Store → Prop) (E : Store → Prop) : Prop :=
  ∀ w, P (store w) →
    match m w with
    | (Ok a, w') => Q a (store w')
    | (Throw _, w') => E (store w')
    end.

(** The four writes of a seeding run, in the order of the code. *)
Definition seed_writes (cl : list Z) : list (Store → Store) :=
  [store_set TASKS_KEY getDefaultTasks;
   store_set ACTIVITY_LOG_KEY [initial_log_entry (toISOString (hd 0 cl))];
   store_set SEO_SCORE_KEY (initial_seo_score (toISOString (hd 0 (tail cl))));
   store_set INTEGRATION_STATUS_KEY initial_integration_status].

(** The store after the first [n] writes of a seeding run. *)
Definition seeded_prefix (n : nat) (cl : list Z) (s : Store) : Store :=
  foldl (λ s write, write s) s (take n (seed_writes cl)).

(** The entries written by a sequence of appends, in the order of the
    calls, each stamped with one clock reading. *)
Fixpoint stamped (entries : list (string * string)) (cl : list Z)
  : list ActivityLogEntry :=
  match entries with
  | [] => []
  | (action, message) :: rest =>
      LogEntry action message (hd 0 cl) :: stamped rest (tail cl)
  end.

(** Completing one more task of [n] changes the computed percentage. *)
Definition rising (k n : nat) : bool :=
  (n <=? k)%nat
  || negb (bool_decide (percentage k n = percentage (S k) n)).

(** The positive integers up to [bound] denote numbers that count as true. *)
Definition Number_truthy_upto (bound : nat) : bool :=
  forallb (λ r, number_truthy (Number (Z.of_nat r))) (seq 1 bound).

(** The computed percentage is 100 exactly when all [n] tasks are completed
    and 0 exactly when none is. *)
Definition endpoints (k n : nat) : bool :=
  eqb (bool_decide (percentage k n = Number 100)) (k =? n)%nat
  && eqb (bool_decide (percentage k n = Number 0)) (k =? 0)%nat.

(** The world is left with the same store and no write was attempted. *)
Definition read_only (w w' : World) : Prop :=
  store w' = store w ∧ ∃ calls, trace w' = calls ++ trace w ∧ no_write calls.

(** The keys a request can write when a catalog is stored. *)
Definition may_write (r : Request) : list string :=
  match r with
  | ReqInitialize | ReqGetTasks | ReqGetActivityLog => []
  | ReqAddActivityLog _ _ => [key_name ACTIVITY_LOG_KEY]
  | ReqGetSEOScore => [key_name SEO_SCORE_KEY]
  | ReqGetIntegrationStatus => [key_name INTEGRATION_STATUS_KEY]
  | ReqToggle _ _ => [key_name TASKS_KEY; key_name ACTIVITY_LOG_KEY]
  | ReqHome => [key_name SEO_SCORE_KEY; key_name INTEGRATION_STATUS_KEY]
  end.
(** * Properties *)

(** ** Binary64 arithmetic

    The division and the product of [percentage] round to nearest, ties to
    even, on 53 bits.  Their results are followed through the definitions
    of [SpecFloat], for every numerator and denominator a JavaScript array
    length can be. *)

(** A positive number of [d] binary digits lies in [[2^(d-1), 2^d)]. *)
Lemma digits2_pos_bounds (p : positive) :
  2 ^ (Z.pos (digits2_pos p) - 1) ≤ Z.pos p < 2 ^ Z.pos (digits2_pos p).
Proof.
  induction p as [p IH|p IH|]; cbn [digits2_pos].
  - rewrite Pos2Z.inj_succ.
    replace (Z.succ (Z.pos (digits2_pos p)) - 1)
      with (Z.succ (Z.pos (digits2_pos p) - 1)) by lia.
    rewrite !Z.pow_succ_r by lia. lia.
  - rewrite Pos2Z.inj_succ.
    replace (Z.succ (Z.pos (digits2_pos p)) - 1)
      with (Z.succ (Z.pos (digits2_pos p) - 1)) by lia.
    rewrite !Z.pow_succ_r by lia. lia.
  - cbn. lia.
Qed.

Lemma Zdigits2_unique (z d : Z) :
  2 ^ (d - 1) ≤ z < 2 ^ d → 0 < z → 0 < d → Zdigits2 z = d.
Proof.
  intros [Hlo Hhi] Hz Hd. destruct z as [|p|p]; try lia. cbn [Zdigits2].
  pose proof (digits2_pos_bounds p) as [Hlo' Hhi'].
  destruct (Z.lt_trichotomy (Z.pos (digits2_pos p)) d) as [Hlt|[Heq|Hgt]];
    [|done|].
  - assert (2 ^ Z.pos (digits2_pos p) ≤ 2 ^ (d - 1))
      by (apply Z.pow_le_mono_r; lia). lia.
  - assert (2 ^ d ≤ 2 ^ (Z.pos (digits2_pos p) - 1))
      by (apply Z.pow_le_mono_r; lia). lia.
Qed.

(** One step of the right shift halves the unit of the fraction. *)
Lemma shr_1_represents mrs x b :
  shr_represents mrs x b → shr_represents (shr_1 mrs) x (2 * b).
Proof.
  destruct mrs as [m r s]. unfold shr_represents. cbn [shr_m shr_r shr_s].
  intros (Hb & Hm & Hx & Hr & Hs).
  destruct m as [|p|p]; [|destruct p as [p|p|]|lia];
    cbn [shr_1 shr_m shr_r shr_s];
    destruct r, s; cbn [orb];
    repeat split; try lia; try done; intros; try lia.
Qed.

Lemma iter_pos_shr_1_represents (p : positive) : ∀ mrs x b,
  shr_represents mrs x b →
  shr_represents (SpecFloat.iter_pos shr_1 p mrs) x (2 ^ Z.pos p * b).
Proof.
  induction p as [p IH|p IH|]; intros mrs x b H; cbn [SpecFloat.iter_pos].
  - replace (2 ^ Z.pos p~1 * b) with (2 ^ Z.pos p * (2 ^ Z.pos p * (2 * b))).
    { by apply IH, IH, shr_1_represents. }
    replace (Z.pos p~1) with (Z.pos p + Z.pos p + 1) by lia.
    rewrite !Z.pow_add_r by lia. ring.
  - replace (2 ^ Z.pos p~0 * b) with (2 ^ Z.pos p * (2 ^ Z.pos p * b)).
    { by apply IH, IH. }
    replace (Z.pos p~0) with (Z.pos p + Z.pos p) by lia.
    rewrite Z.pow_add_r by lia. ring.
  - by apply shr_1_represents.
Qed.

(** The records a rounding starts from: an exact integer, and the quotient
    of a division with the location of its remainder. *)
Lemma shr_represents_of_loc_exact (m : Z) :
  0 ≤ m → shr_represents (shr_record_of_loc m loc_Exact) m 1.
Proof. unfold shr_represents. cbn. intros. repeat split; intros; lia. Qed.

Lemma shr_represents_new_location (x b : Z) :
  0 ≤ x → 0 < b →
  shr_represents (shr_record_of_loc (x / b) (new_location b (x mod b))) x b.
Proof.
  intros Hx Hb.
  pose proof (Z.div_mod x b ltac:(lia)) as Hdm.
  pose proof (Z.mod_pos_bound x b Hb) as Hr.
  pose proof (Z.div_pos x b Hx Hb) as Hq.
  assert (x - x / b * b = x mod b) as Hrest by lia.
  unfold shr_represents, new_location, new_location_even, new_location_odd.
  destruct (Z.even b) eqn:Heven;
    destruct (Z.eqb_spec (x mod b) 0) as [H0|H0].
  - cbn. rewrite Hrest. repeat split; intros; try lia; try done.
  - destruct (Z.compare_spec (2 * (x mod b)) b); cbn; rewrite Hrest;
      repeat split; intros; try lia; try done.
  - cbn. rewrite Hrest. repeat split; intros; try lia; try done.
  - assert (2 * (x mod b) ≠ b) as Hodd.
    { intros Hb2. rewrite <- Hb2, Z.even_mul in Heven. done. }
    destruct (Z.compare_spec (2 * (x mod b) + 1) b); cbn; rewrite Hrest;
      repeat split; intros; try lia; try done.
Qed.

(** Rounding to nearest moves the fraction by at most half a unit. *)
Lemma round_nearest_even_represents mrs x b :
  shr_represents mrs x b →
  let mr := round_nearest_even (shr_m mrs) (loc_of_shr_record mrs) in
  shr_m mrs ≤ mr ≤ shr_m mrs + 1
  ∧ - b ≤ 2 * (mr * b - x) ≤ b.
Proof.
  destruct mrs as [m r s]. unfold shr_represents. cbn [shr_m shr_r shr_s].
  intros (Hb & Hm & Hx & Hr & Hs).
  destruct r, s; cbn [loc_of_shr_record round_nearest_even];
    try destruct (Z.even m); split; lia.
Qed.

Lemma shr_represents_shr mrs (e n x b : Z) :
  0 ≤ n → shr_represents mrs x b →
  (shr mrs e n).2 = e + n
  ∧ shr_represents (shr mrs e n).1 x (2 ^ n * b).
Proof.
  intros Hn H. destruct n as [|p|p]; [| |lia]; cbn [shr fst snd].
  - split; [lia|]. by rewrite Z.pow_0_r, Z.mul_1_l.
  - split; [done|]. by apply iter_pos_shr_1_represents.
Qed.

(** The exponent function away from the subnormal range. *)
Lemma fexp_normal (e : Z) : -1074 ≤ e - 53 → fexp prec emax e = e - 53.
Proof. unfold fexp, emin, prec, emax. lia. Qed.

(** The rounding of a mantissa of [d >= 53] digits that stands for [x / b]
    units of [2^ex], away from underflow and overflow: the result is a
    normal number of 53 digits within half a unit in the last place kept. *)
Lemma binary_round_aux_normal (mx ex : Z) (lx : location) (x b d : Z) :
  shr_represents (shr_record_of_loc mx lx) x b →
  shr_m (shr_record_of_loc mx lx) = mx →
  0 < mx → Zdigits2 mx = d → 53 ≤ d →
  -1074 ≤ ex + d - 53 → ex + d - 53 < 971 →
  ∃ (m : positive) (e : Z),
    binary_round_aux prec emax false mx ex lx = S754_finite false m e
    ∧ 2 ^ 52 ≤ Z.pos m < 2 ^ 53
    ∧ ex + (d - 53) ≤ e ≤ ex + (d - 53) + 1
    ∧ - (2 ^ (d - 53) * b)
      ≤ 2 * (Z.pos m * 2 ^ (e - ex) * b - x)
      ≤ 2 ^ (d - 53) * b.
Proof.
  intros Hrep Hmx Hpos Hd Hd53 Hlo Hhi.
  unfold binary_round_aux, shr_fexp.
  rewrite Hd, fexp_normal by lia.
  replace (d + ex - 53 - ex) with (d - 53) by lia.
  destruct (shr_represents_shr (shr_record_of_loc mx lx) ex (d - 53) x b
              ltac:(lia) Hrep) as [He' Hrep'].
  destruct (shr (shr_record_of_loc mx lx) ex (d - 53)) as [mrs' e'].
  cbn [fst snd] in He', Hrep'. subst e'.
  pose proof (round_nearest_even_represents _ _ _ Hrep') as [Hmr Herr].
  cbn zeta in Hmr, Herr.
  set (mr := round_nearest_even (shr_m mrs') (loc_of_shr_record mrs')) in *.
  (* the shifted mantissa has 53 digits *)
  assert (Hmxd : 2 ^ (d - 1) ≤ mx < 2 ^ d).
  { destruct mx as [|p|p]; try lia. cbn in Hd. subst d.
    apply digits2_pos_bounds. }
  destruct Hrep as (Hb & _ & Hx & _). rewrite Hmx in Hx.
  destruct Hrep' as (HB & Hm'0 & Hx' & _).
  set (n := d - 53) in *.
  assert (Hn : 0 ≤ n) by lia.
  assert (Hpn : 0 < 2 ^ n) by (apply Z.pow_pos_nonneg; lia).
  assert (Hd1 : 2 ^ (d - 1) = 2 ^ 52 * 2 ^ n).
  { replace (d - 1) with (52 + n) by lia. by rewrite Z.pow_add_r by lia. }
  assert (Hd2 : 2 ^ d = 2 ^ 53 * 2 ^ n).
  { replace d with (53 + n) at 1 by lia. by rewrite Z.pow_add_r by lia. }
  assert (Hm' : 2 ^ 52 ≤ shr_m mrs' < 2 ^ 53).
  { split.
    - assert (2 ^ 52 * (2 ^ n * b) < (shr_m mrs' + 1) * (2 ^ n * b)) by nia.
      assert (2 ^ 52 < shr_m mrs' + 1); [|lia].
      apply (Z.mul_lt_mono_pos_r (2 ^ n * b)); [nia|done].
    - assert (shr_m mrs' * (2 ^ n * b) < 2 ^ 53 * (2 ^ n * b)) by nia.
      apply (Z.mul_lt_mono_pos_r (2 ^ n * b)); [nia|done]. }
  destruct (Z.eq_dec mr (2 ^ 53)) as [Hcarry|Hcarry].
  - (* the rounding carried into a 54th digit *)
    rewrite Hcarry. exists (2 ^ 52)%positive, (ex + n + 1).
    replace (Zdigits2 (2 ^ 53)) with 54 by reflexivity.
    rewrite fexp_normal by lia.
    replace (54 + (ex + n) - 53 - (ex + n)) with 1 by lia.
    cbn [shr_record_of_loc shr SpecFloat.iter_pos].
    replace (shr_m (shr_1 {| shr_m := 2 ^ 53; shr_r := false; shr_s := false |}))
      with (Z.pos (2 ^ 52)) by reflexivity.
    replace (ex + n + 1 <=? emax - prec) with true
      by (symmetry; apply Z.leb_le; unfold emax, prec; lia).
    split; [done|]. split; [done|]. split; [lia|].
    replace (ex + n + 1 - ex) with (1 + n) by lia.
    rewrite Z.pow_add_r by lia.
    replace (Z.pos (2 ^ 52) * (2 ^ 1 * 2 ^ n) * b) with (mr * (2 ^ n * b))
      by (rewrite Hcarry; change (Z.pos (2 ^ 52)) with (2 ^ 52); ring).
    lia.
  - assert (Hmr53 : 2 ^ 52 ≤ mr < 2 ^ 53) by lia.
    destruct mr as [|m|m] eqn:Hmr_eq; try lia.
    exists m, (ex + n).
    rewrite (Zdigits2_unique (Z.pos m) 53) by (try done; lia).
    rewrite fexp_normal by lia.
    replace (53 + (ex + n) - 53 - (ex + n)) with 0 by lia.
    cbn [shr_record_of_loc shr shr_m].
    replace (ex + n <=? emax - prec) with true
      by (symmetry; apply Z.leb_le; unfold emax, prec; lia).
    split; [done|]. split; [done|]. split; [lia|].
    replace (ex + n - ex) with n by lia.
    replace (Z.pos m * 2 ^ n * b) with (Z.pos m * (2 ^ n * b)) by ring.
    lia.
Qed.

Lemma Pos_iter_xO (k p : positive) :
  Z.pos (Pos.iter xO p k) = Z.pos p * 2 ^ Z.pos k.
Proof.
  induction k as [|k IH] using Pos.peano_ind.
  - cbn. lia.
  - rewrite Pos.iter_succ, Pos2Z.inj_xO, IH, Pos2Z.inj_succ, Z.pow_succ_r by lia.
    ring.
Qed.

(** A positive integer below [2^53] is represented exactly, on a mantissa
    of 53 digits. *)
Lemma Number_normal (z : Z) :
  0 < z < 2 ^ 53 →
  ∃ (m : positive) (a : Z),
    Number z = S754_finite false m (- a)
    ∧ 2 ^ 52 ≤ Z.pos m < 2 ^ 53
    ∧ 0 ≤ a ≤ 52
    ∧ Z.pos m = z * 2 ^ a.
Proof.
  intros [Hz0 Hz53]. destruct z as [|p|p]; try lia.
  unfold Number, binary_normalize, binary_round, shl_align.
  pose proof (digits2_pos_bounds p) as [Hlo Hhi].
  set (d := Z.pos (digits2_pos p)) in *.
  assert (Hd : 1 ≤ d ≤ 53).
  { split; [lia|]. destruct (Z.le_gt_cases d 53); [done|].
    assert (2 ^ 53 ≤ 2 ^ (d - 1)) by (apply Z.pow_le_mono_r; lia). lia. }
  rewrite fexp_normal by lia.
  assert (∃ mz : positive,
            (let '(mz, ez) :=
               match d + 0 - 53 - 0 with
               | Z.neg k => (Pos.iter xO p k, d + 0 - 53)
               | _ => (p, 0)
               end in binary_round_aux prec emax false (Z.pos mz) ez loc_Exact)
            = binary_round_aux prec emax false (Z.pos mz) (d - 53) loc_Exact
            ∧ Z.pos mz = Z.pos p * 2 ^ (53 - d)) as (mz & -> & Hmz).
  { destruct (d + 0 - 53 - 0) as [|k|k] eqn:Hk; try lia.
    - exists p. replace (d - 53) with 0 by lia.
      replace (53 - d) with 0 by lia. split; [done|]. lia.
    - exists (Pos.iter xO p k). replace (d + 0 - 53) with (d - 53) by lia.
      split; [done|]. rewrite Pos_iter_xO. f_equal. f_equal. lia. }
  assert (Hmz53 : 2 ^ 52 ≤ Z.pos mz < 2 ^ 53).
  { rewrite Hmz.
    replace (2 ^ 52) with (2 ^ (d - 1) * 2 ^ (53 - d))
      by (rewrite <- Z.pow_add_r by lia; f_equal; lia).
    replace (2 ^ 53) with (2 ^ d * 2 ^ (53 - d))
      by (rewrite <- Z.pow_add_r by lia; f_equal; lia).
    assert (0 < 2 ^ (53 - d)) by (apply Z.pow_pos_nonneg; lia). nia. }
  destruct (binary_round_aux_normal (Z.pos mz) (d - 53) loc_Exact (Z.pos mz) 1 53)
    as (m & e & Hround & Hm & He & Herr);
    [by apply shr_represents_of_loc_exact|done|done
    |by apply Zdigits2_unique|lia|lia|lia|].
  rewrite Hround.
  replace (53 - 53) with 0 in * by lia. rewrite Z.pow_0_r in Herr.
  assert (e = d - 53) as ->.
  { destruct (Z.eq_dec e (d - 53)) as [|Hne]; [done|].
    assert (e = d - 53 + 1) as -> by lia.
    replace (d - 53 + 1 - (d - 53)) with 1 in Herr by lia.
    change (2 ^ 1) with 2 in Herr. lia. }
  replace (d - 53 - (d - 53)) with 0 in Herr by lia.
  rewrite Z.pow_0_r in Herr.
  exists m, (53 - d). replace (- (53 - d)) with (d - 53) by lia.
  split; [done|]. split; [done|]. split; [lia|]. lia.
Qed.

Lemma shr_m_of_loc (m : Z) (l : location) : shr_m (shr_record_of_loc m l) = m.
Proof. by destruct l as [|[]]. Qed.

(** The quotient of two array lengths [K <= N]: a number [mq / 2^w] within
    half a unit in the last place of [K / N]. *)
Lemma js_div_Number (K N : Z) :
  1 ≤ K ≤ N → N < 2 ^ 53 →
  ∃ (mq : positive) (w : Z),
    js_div (Number K) (Number N) = S754_finite false mq (- w)
    ∧ 2 ^ 52 ≤ Z.pos mq < 2 ^ 53
    ∧ 52 ≤ w ≤ 105
    ∧ - N ≤ 2 * (Z.pos mq * N - K * 2 ^ w) ≤ N.
Proof.
  intros HK HN.
  destruct (Number_normal K ltac:(lia)) as (m1 & a1 & -> & Hm1 & Ha1 & HmK).
  destruct (Number_normal N ltac:(lia)) as (m2 & a2 & -> & Hm2 & Ha2 & HmN).
  assert (Hpa1 : 0 < 2 ^ a1) by (apply Z.pow_pos_nonneg; lia).
  assert (Hpa2 : 0 < 2 ^ a2) by (apply Z.pow_pos_nonneg; lia).
  assert (Ha : a2 ≤ a1).
  { destruct (Z.le_gt_cases a2 a1) as [|Hlt]; [done|].
    assert (2 * 2 ^ a1 ≤ 2 ^ a2).
    { rewrite <- Z.pow_succ_r by lia. apply Z.pow_le_mono_r; lia. }
    nia. }
  unfold js_div, SFdiv, SFdiv_core_binary. cbn [xorb].
  rewrite !(Zdigits2_unique _ 53) by (try done; lia).
  rewrite fexp_normal by lia.
  replace (53 + - a1 - (53 + - a2) - 53) with (a2 - a1 - 53) by lia.
  rewrite Z.min_l by lia.
  replace (- a1 - - a2 - (a2 - a1 - 53)) with 53 by lia.
  rewrite Z.shiftl_mul_pow2 by lia.
  set (x := Z.pos m1 * 2 ^ 53).
  pose proof (Z.div_mod x (Z.pos m2) ltac:(lia)) as Hdm.
  pose proof (Z.mod_pos_bound x (Z.pos m2) ltac:(lia)) as Hr.
  assert (Hdiv : Z.div_eucl x (Z.pos m2) = (x / Z.pos m2, x mod Z.pos m2)).
  { unfold Z.div, Z.modulo. by destruct (Z.div_eucl x (Z.pos m2)). }
  rewrite Hdiv.
  set (q := x / Z.pos m2) in *.
  assert (Hq : 2 ^ 52 ≤ q < 2 ^ 54).
  { unfold x in *. split; [|nia].
    destruct (Z.le_gt_cases (2 ^ 52) q); [done|]. nia. }
  set (d := if Z.ltb q (2 ^ 53) then 53 else 54).
  assert (Hd : Zdigits2 q = d ∧ 53 ≤ d ≤ 54).
  { unfold d. destruct (Z.ltb_spec q (2 ^ 53)).
    - split; [|lia]. apply Zdigits2_unique; [|lia|lia]. change (53 - 1) with 52. lia.
    - split; [|lia]. apply Zdigits2_unique; [|lia|lia]. change (54 - 1) with 53. lia. }
  destruct Hd as [Hd Hd'].
  destruct (binary_round_aux_normal q (a2 - a1 - 53)
              (new_location (Z.pos m2) (x mod Z.pos m2)) x (Z.pos m2) d)
    as (m & e & Hround & Hm & He & Herr);
    [apply shr_represents_new_location; unfold x; lia
    |apply shr_m_of_loc|lia|done|lia|lia|lia|].
  rewrite Hround.
  exists m, (- e). replace (- - e) with e by lia.
  split; [done|]. split; [done|].
  set (t := e - (a2 - a1 - 53)) in *.
  assert (Ht : d - 53 ≤ t ≤ d - 53 + 1) by (unfold t; lia).
  assert (Hw : 0 ≤ - e) by lia.
  assert (Hpt : 2 ^ (d - 53) ≤ 2 ^ t) by (apply Z.pow_le_mono_r; lia).
  assert (Hpt0 : 0 < 2 ^ (d - 53)) by (apply Z.pow_pos_nonneg; lia).
  assert (Hpw : 0 < 2 ^ (- e)) by (apply Z.pow_pos_nonneg; lia).
  assert (Hx : x = K * 2 ^ (- e) * (2 ^ t * 2 ^ a2)).
  { unfold x. rewrite HmK.
    rewrite <- !Z.mul_assoc, <- !Z.pow_add_r by lia.
    f_equal. f_equal. unfold t. lia. }
  assert (Herr' : - N ≤ 2 * (Z.pos m * N - K * 2 ^ (- e)) ≤ N).
  { rewrite Hx, HmN in Herr.
    set (c := 2 ^ t * 2 ^ a2) in *.
    assert (0 < c) by (unfold c; nia).
    replace (Z.pos m * 2 ^ t * (N * 2 ^ a2) - K * 2 ^ (- e) * c)
      with ((Z.pos m * N - K * 2 ^ (- e)) * c) in Herr by (unfold c; ring).
    assert (2 ^ (d - 53) * (N * 2 ^ a2) ≤ N * c).
    { replace (N * c) with (2 ^ t * (N * 2 ^ a2)) by (unfold c; ring).
      apply Z.mul_le_mono_nonneg_r; [lia|done]. }
    split; apply (Z.mul_le_mono_pos_r _ _ c); try done; lia. }
  split; [|done].
  split; [|lia].
  destruct (Z.le_gt_cases 52 (- e)); [done|].
  assert (2 * 2 ^ (- e) ≤ 2 ^ 52).
  { rewrite <- Z.pow_succ_r by lia. apply Z.pow_le_mono_r; lia. }
  assert (K * 2 ^ (- e) ≤ N * 2 ^ (- e))
    by (apply Z.mul_le_mono_nonneg_r; lia).
  assert (2 * 2 ^ (- e) * N ≤ Z.pos m * N)
    by (apply Z.mul_le_mono_nonneg_r; lia).
  assert (2 * N ≤ Z.pos m * N)
    by (apply Z.mul_le_mono_nonneg_r; lia).
  lia.
Qed.

Lemma Number_100 : Number 100 = S754_finite false (100 * 2 ^ 46) (- 46).
Proof. reflexivity. Qed.

(** The product of such a quotient by 100: a number [mp * 2^g / 2^w]
    within half a unit in the last place of [100 * mq / 2^w]. *)
Lemma js_mul_100 (mq : positive) (w : Z) :
  2 ^ 52 ≤ Z.pos mq < 2 ^ 53 → 52 ≤ w ≤ 105 →
  ∃ (mp : positive) (g : Z),
    js_mul (S754_finite false mq (- w)) (Number 100)
    = S754_finite false mp (g - w)
    ∧ 2 ^ 52 ≤ Z.pos mp < 2 ^ 53
    ∧ 6 ≤ g ≤ 8
    ∧ - 2 ^ g ≤ 2 * (Z.pos mp * 2 ^ g - 100 * Z.pos mq) ≤ 2 ^ g.
Proof.
  intros Hmq Hw. rewrite Number_100. unfold js_mul, SFmul. cbn [xorb].
  set (P := Z.pos (mq * (100 * 2 ^ 46))).
  assert (HP : P = Z.pos mq * (100 * 2 ^ 46)) by (unfold P; lia).
  set (d := if Z.ltb P (2 ^ 105) then 105 else 106).
  assert (Hd : Zdigits2 P = d ∧ 105 ≤ d ≤ 106).
  { unfold d. destruct (Z.ltb_spec P (2 ^ 105)).
    - split; [|lia]. apply Zdigits2_unique; [|lia|lia].
      change (105 - 1) with 104. lia.
    - split; [|lia]. apply Zdigits2_unique; [|lia|lia].
      change (106 - 1) with 105. lia. }
  destruct Hd as [Hd Hd'].
  destruct (binary_round_aux_normal P (- w + - 46) loc_Exact P 1 d)
    as (m & e & Hround & Hm & He & Herr);
    [apply shr_represents_of_loc_exact; lia|done|lia|done|lia|lia|lia|].
  rewrite Hround. exists m, (e + w).
  replace (e + w - w) with e by lia.
  split; [done|]. split; [done|]. split; [lia|].
  assert (d = 105 ∨ d = 106) as [-> | ->] by lia.
  - assert (e = - w + 6 ∨ e = - w + 7) as [-> | ->] by lia.
    + replace (- w + 6 - (- w + - 46)) with 52 in Herr by lia.
      replace (- w + 6 + w) with 6 by lia.
      change (105 - 53) with 52 in Herr. lia.
    + replace (- w + 7 - (- w + - 46)) with 53 in Herr by lia.
      replace (- w + 7 + w) with 7 by lia.
      change (105 - 53) with 52 in Herr. lia.
  - assert (e = - w + 7 ∨ e = - w + 8) as [-> | ->] by lia.
    + replace (- w + 7 - (- w + - 46)) with 53 in Herr by lia.
      replace (- w + 7 + w) with 7 by lia.
      change (106 - 53) with 53 in Herr. lia.
    + replace (- w + 8 - (- w + - 46)) with 54 in Herr by lia.
      replace (- w + 8 + w) with 8 by lia.
      change (106 - 53) with 53 in Herr. lia.
Qed.

(** The integer [Math.round] returns on a product [mp / W] that lies
    within [1 / (2 N)] of [100 K / N]. *)
Lemma round_of_close_product (K N mp W : Z) :
  0 ≤ K ≤ N → 0 < N → 0 < W →
  - W < 2 * (mp * N - 100 * K * W) < W →
  let r := (2 * mp + W) / (2 * W) in
  0 ≤ r ≤ 100
  ∧ (r = round_half_up_percent K N
     ∨ is_tie K N = true ∧ r = round_half_up_percent K N - 1).
Proof.
  intros HK HN HW Hclose. cbn zeta. unfold round_half_up_percent, is_tie.
  pose proof (Z.div_mod (200 * K) (2 * N) ltac:(lia)) as Hdm.
  pose proof (Z.mod_pos_bound (200 * K) (2 * N) ltac:(lia)) as Hrest.
  set (a := 200 * K / (2 * N)) in *. set (t := (200 * K) mod (2 * N)) in *.
  assert (Ha : 0 ≤ a) by (apply Z.div_pos; lia).
  assert (∃ h s, (200 * K + N) / (2 * N) = h ∧ 200 * K + N = 2 * N * h + s
                 ∧ 0 ≤ s < 2 * N ∧ 0 ≤ h ≤ 100 ∧ (s = 0 ↔ t = N) ∧ (s = 0 → 1 ≤ h))
    as (h & s & -> & Hh & Hs & Hh100 & Htie & Hh1).
  { destruct (Z.lt_ge_cases t N).
    - exists a, (t + N). split; [symmetry; apply (Z.div_unique_pos _ _ _ (t + N)); lia|].
      repeat split; try lia. nia.
    - exists (a + 1), (t - N).
      split; [symmetry; apply (Z.div_unique_pos _ _ _ (t - N)); lia|].
      repeat split; try lia. nia. }
  assert (HdivW : ∀ c, c * (2 * W) ≤ 2 * mp + W < (c + 1) * (2 * W) →
                       (2 * mp + W) / (2 * W) = c).
  { intros c Hc. symmetry.
    apply (Z.div_unique_pos _ _ _ (2 * mp + W - c * (2 * W))); lia. }
  assert (Hlow : (2 * N * h + s - 1) * W < (2 * mp + W) * N) by lia.
  assert (Hupp : (2 * mp + W) * N < (2 * N * h + s + 1) * W) by lia.
  destruct (Z.eq_dec s 0) as [Hs0|Hs0].
  - (* a tie *)
    assert ((h - 1) * (2 * W) ≤ 2 * mp + W < (h + 1) * (2 * W)) as Hbounds.
    { split.
      - apply (Z.mul_le_mono_pos_r _ _ N); [lia|].
        assert (0 ≤ (2 * N - 1) * W) by nia. lia.
      - apply (Z.mul_lt_mono_pos_r N); [lia|].
        assert (0 ≤ (2 * N - 1) * W) by nia. lia. }
    destruct (Z.lt_ge_cases (2 * mp + W) (h * (2 * W))).
    + rewrite (HdivW (h - 1)) by lia. split; [lia|]. right.
      split; [|done]. apply Z.eqb_eq. by apply Htie.
    + rewrite (HdivW h) by lia. split; [lia|]. by left.
  - rewrite (HdivW h); [split; [lia|by left]|].
    split.
    + apply (Z.mul_le_mono_pos_r _ _ N); [lia|].
      assert (0 ≤ (s - 1) * W) by nia. lia.
    + apply (Z.mul_lt_mono_pos_r N); [lia|].
      assert (0 ≤ (2 * N - s - 1) * W) by nia. lia.
Qed.

Lemma percentage_zero (n : nat) :
  (0 < n)%nat → Z.of_nat n < 2 ^ 53 → percentage 0 n = Number 0.
Proof.
  intros Hn Hn53. unfold percentage.
  replace (0 <? n)%nat with true by (symmetry; apply Nat.ltb_lt; lia).
  destruct (Number_normal (Z.of_nat n) ltac:(lia)) as (m & a & -> & _).
  reflexivity.
Qed.

(** The binary64 computation of a percentage, for every list a
    JavaScript array can hold. *)
Lemma percentage_binary64 (k n : nat) :
  (0 < n)%nat → (k ≤ n)%nat → Z.of_nat n < 2 ^ 32 →
  ∃ r : Z,
    percentage k n = Number r
    ∧ 0 ≤ r ≤ 100
    ∧ (r = round_half_up_percent (Z.of_nat k) (Z.of_nat n)
       ∨ is_tie (Z.of_nat k) (Z.of_nat n) = true
         ∧ r = round_half_up_percent (Z.of_nat k) (Z.of_nat n) - 1).
Proof.
  intros Hn Hk Hn32.
  destruct k as [|k'].
  { exists 0. rewrite percentage_zero by lia. split; [done|]. split; [lia|].
    left. unfold round_half_up_percent. symmetry. apply Z.div_small. lia. }
  set (k := S k') in *. set (K := Z.of_nat k). set (N := Z.of_nat n) in *.
  assert (HK : 1 ≤ K ≤ N) by (unfold K, N, k; lia).
  unfold percentage.
  replace (0 <? n)%nat with true by (symmetry; apply Nat.ltb_lt; lia).
  fold K N.
  destruct (js_div_Number K N HK ltac:(lia))
    as (mq & w & -> & Hmq & Hw & Hq).
  destruct (js_mul_100 mq w Hmq Hw) as (mp & g & -> & Hmp & Hg & Hp).
  unfold Math_round.
  replace (0 <=? g - w) with false by (symmetry; apply Z.leb_gt; lia).
  cbn [cond_Zopp].
  replace (- (g - w)) with (w - g) by lia.
  replace (1 - (g - w)) with (1 + (w - g)) by lia.
  rewrite Z.pow_add_r by lia. change (2 ^ 1) with 2.
  set (W := 2 ^ (w - g)).
  exists ((2 * Z.pos mp + W) / (2 * W)). split; [done|].
  assert (HW44 : 2 ^ 44 ≤ W) by (apply Z.pow_le_mono_r; lia).
  assert (HG : 2 ^ 6 ≤ 2 ^ g ≤ 2 ^ 8) by (split; apply Z.pow_le_mono_r; lia).
  assert (HWG : 2 ^ w = W * 2 ^ g).
  { unfold W. rewrite <- Z.pow_add_r by lia. f_equal. lia. }
  rewrite HWG in Hq.
  set (G := 2 ^ g) in *.
  apply round_of_close_product; [lia|lia|lia|].
  (* the two rounding errors, brought to the scale [G * N] *)
  assert (HpN : - (G * N) ≤ 2 * (Z.pos mp * G * N - 100 * Z.pos mq * N) ≤ G * N).
  { replace (Z.pos mp * G * N - 100 * Z.pos mq * N)
      with ((Z.pos mp * G - 100 * Z.pos mq) * N) by ring.
    split.
    - replace (- (G * N)) with (- G * N) by ring.
      rewrite Z.mul_assoc. apply Z.mul_le_mono_nonneg_r; lia.
    - rewrite Z.mul_assoc. apply Z.mul_le_mono_nonneg_r; lia. }
  assert (Hsum : - ((G + 100) * N)
                 ≤ 2 * ((Z.pos mp * N - 100 * K * W) * G) ≤ (G + 100) * N) by lia.
  assert (Hmargin : (G + 100) * N < W * G).
  { assert ((G + 100) * N ≤ 3 * G * N) by nia.
    assert (3 * N * G < W * G); [|lia].
    apply Z.mul_lt_mono_pos_r; lia. }
  split.
  - apply (Z.mul_lt_mono_pos_r G); [lia|]. lia.
  - apply (Z.mul_lt_mono_pos_r G); [lia|]. lia.
Qed.

(** ** Completion calculator *)

Section Calculator.

Implicit Types (doc : TasksState) (l : list Task) (k n : nat).

Lemma completedCount_le l : (completedCount l ≤ length l)%nat.
Proof. apply length_filter. Qed.

Lemma completedCount_app l1 l2 :
  completedCount (l1 ++ l2) = (completedCount l1 + completedCount l2)%nat.
Proof. unfold completedCount. by rewrite filter_app, length_app. Qed.

Lemma length_flat (ls : list (list Task)) :
  length (flat ls) = sum_list_with length ls.
Proof.
  induction ls as [|l ls IH]; [done|].
  change (flat (l :: ls)) with (l ++ flat ls).
  rewrite length_app, IH. done.
Qed.

Lemma completedCount_flat (ls : list (list Task)) :
  completedCount (flat ls) = sum_list_with completedCount ls.
Proof.
  induction ls as [|l ls IH]; [done|].
  change (flat (l :: ls)) with (l ++ flat ls).
  rewrite completedCount_app, IH. done.
Qed.

Lemma Object_values_insert doc (c : string) l :
  doc !! c = None → Object_values (<[c := l]> doc) ≡ₚ l :: Object_values doc.
Proof.
  intros Hc. unfold Object_values.
  by rewrite (map_to_list_insert doc c l Hc).
Qed.

Lemma totalTasks_insert doc (c : string) l :
  doc !! c = None → totalTasks (<[c := l]> doc) = (length l + totalTasks doc)%nat.
Proof. intros Hc. unfold totalTasks. by rewrite (Object_values_insert _ _ _ Hc). Qed.

Lemma totalCompleted_insert doc (c : string) l :
  doc !! c = None →
  totalCompleted (<[c := l]> doc) = (completedCount l + totalCompleted doc)%nat.
Proof. intros Hc. unfold totalCompleted. by rewrite (Object_values_insert _ _ _ Hc). Qed.

Lemma totalTasks_empty : totalTasks ∅ = 0%nat.
Proof. unfold totalTasks, Object_values. by rewrite map_to_list_empty. Qed.

Lemma totalCompleted_empty : totalCompleted ∅ = 0%nat.
Proof. unfold totalCompleted, Object_values. by rewrite map_to_list_empty. Qed.

Lemma totalCompleted_le doc : (totalCompleted doc ≤ totalTasks doc)%nat.
Proof.
  unfold totalCompleted, totalTasks.
  induction (Object_values doc) as [|l ls IH]; cbn; [done|].
  pose proof (completedCount_le l). lia.
Qed.

Lemma calculateOverallCompletion_totals doc :
  calculateOverallCompletion (Some doc)
  = percentage (totalCompleted doc) (totalTasks doc).
Proof.
  unfold calculateOverallCompletion, totalCompleted, totalTasks. cbn zeta.
  by rewrite completedCount_flat, length_flat.
Qed.

Lemma all_pairs_upto_spec check bound k n :
  all_pairs_upto check bound = true →
  (0 < n ≤ bound)%nat → (k ≤ n)%nat → check k n = true.
Proof.
  unfold all_pairs_upto. intros Hall Hn Hk.
  rewrite forallb_forall in Hall.
  specialize (Hall n). rewrite forallb_forall in Hall.
  apply Hall; apply in_seq; lia.
Qed.

(** The table of all percentages of lists of at most 39 tasks. *)
Lemma exactly_rounded_upto_39 : all_pairs_upto exactly_rounded 39 = true.
Proof. vm_cast_no_check (eq_refl true). Qed.

(** The table of all percentages of lists of at most 100 tasks. *)
Lemma rounded_or_tie_below_upto_100 :
  all_pairs_upto rounded_or_tie_below 100 = true.
Proof. vm_cast_no_check (eq_refl true). Qed.

Lemma round_half_up_percent_range (k n : Z) :
  0 ≤ k ≤ n → 0 < n → 0 ≤ round_half_up_percent k n ≤ 100.
Proof.
  intros Hk Hn. unfold round_half_up_percent. split.
  - apply Z.div_pos; lia.
  - apply Z.lt_succ_r, Z.div_lt_upper_bound; lia.
Qed.

Lemma round_half_up_percent_tie_pos (k n : Z) :
  0 ≤ k → 0 < n → is_tie k n = true → 1 ≤ round_half_up_percent k n.
Proof.
  unfold is_tie, round_half_up_percent. intros Hk Hn Ht.
  apply Z.eqb_eq in Ht.
  apply Z.div_le_lower_bound; [lia|].
  pose proof (Z.div_mod (200 * k) (2 * n) ltac:(lia)) as Hdm.
  pose proof (Z.div_pos (200 * k) (2 * n) ltac:(lia) ltac:(lia)). nia.
Qed.

Lemma percentage_small k n :
  (0 < n ≤ 39)%nat → (k ≤ n)%nat →
  percentage k n = Number (round_half_up_percent (Z.of_nat k) (Z.of_nat n)).
Proof.
  intros Hn Hk.
  pose proof (all_pairs_upto_spec _ _ k n exactly_rounded_upto_39 Hn Hk) as H.
  unfold exactly_rounded in H. by apply bool_decide_eq_true in H.
Qed.

Lemma percentage_medium k n :
  (0 < n ≤ 100)%nat → (k ≤ n)%nat →
  ∃ r : Z, percentage k n = Number r ∧ 0 ≤ r ≤ 100 ∧
    (r = round_half_up_percent (Z.of_nat k) (Z.of_nat n)
     ∨ (is_tie (Z.of_nat k) (Z.of_nat n) = true
        ∧ r = round_half_up_percent (Z.of_nat k) (Z.of_nat n) - 1)).
Proof.
  intros Hn Hk.
  pose proof (all_pairs_upto_spec _ _ k n rounded_or_tie_below_upto_100 Hn Hk) as H.
  pose proof (round_half_up_percent_range (Z.of_nat k) (Z.of_nat n)
                ltac:(lia) ltac:(lia)) as Hr.
  unfold rounded_or_tie_below, exactly_rounded in H.
  apply orb_true_iff in H as [H|H].
  - apply bool_decide_eq_true in H. eauto.
  - apply andb_true_iff in H as [Ht H]. apply bool_decide_eq_true in H.
    pose proof (round_half_up_percent_tie_pos (Z.of_nat k) (Z.of_nat n)
                  ltac:(lia) ltac:(lia) Ht).
    eexists; split; [exact H|]. split; [lia|]. by right.
Qed.

Lemma calculateCompletion_own doc (category : string) l :
  doc !! category = Some l →
  calculateCompletion (Some doc) category
  = Ok (percentage (completedCount l) (length l)).
Proof. intros Hl. unfold calculateCompletion, get_property. by rewrite Hl. Qed.

(** An absent category whose name is inherited from [Object.prototype]
    makes the call throw. *)
Lemma calculateCompletion_inherited doc (category : string) :
  doc !! category = None → category ∈ Object_prototype →
  calculateCompletion (Some doc) category
  = Throw (TypeError "tasks[category].filter is not a function").
Proof.
  intros Hc Hin. unfold calculateCompletion, get_property.
  by rewrite Hc, bool_decide_eq_true_2.
Qed.

(** C1, as amended: a null document, an absent category whose name is not
    inherited from [Object.prototype], or an empty list gives 0; a category
    of [N > 0] tasks, [N] below the bound [2^32] of array lengths, gives an
    integer of [0, 100], which is [100 * K / N] rounded to the nearest
    integer with a tie rounded up or, when [100 * K / N] is a tie, possibly
    one less; with at most 39 tasks it is the rounded value in every
    case. *)
Theorem calculateCompletion_spec doc (category : string) :
  calculateCompletion None category = Ok (Number 0)
  ∧ (doc !! category = None → category ∉ Object_prototype →
       calculateCompletion (Some doc) category = Ok (Number 0))
  ∧ (doc !! category = Some [] →
       calculateCompletion (Some doc) category = Ok (Number 0))
  ∧ (∀ l, doc !! category = Some l →
       let K := completedCount l in
       let N := length l in
       let exact := round_half_up_percent (Z.of_nat K) (Z.of_nat N) in
       ((0 < N)%nat → Z.of_nat N < 2 ^ 32 →
          ∃ r : Z, calculateCompletion (Some doc) category = Ok (Number r)
            ∧ 0 ≤ r ≤ 100
            ∧ (r = exact
               ∨ (is_tie (Z.of_nat K) (Z.of_nat N) = true ∧ r = exact - 1)))
       ∧ ((0 < N ≤ 39)%nat →
            calculateCompletion (Some doc) category = Ok (Number exact)
            ∧ 0 ≤ exact ≤ 100)).
Proof.
  split; [reflexivity|]. split; [|split].
  - intros Hc Hin. unfold calculateCompletion, get_property.
    by rewrite Hc, bool_decide_eq_false_2.
  - intros Hc. by rewrite (calculateCompletion_own _ _ _ Hc).
  - intros l Hl K N exact. pose proof (completedCount_le l) as Hle.
    rewrite (calculateCompletion_own _ _ _ Hl). split.
    + intros HN HN32.
      destruct (percentage_binary64 K N HN Hle HN32) as (r & Hp & Hr).
      exists r. split; [by f_equal|done].
    + intros HN. split; [f_equal; by apply percentage_small|].
      apply round_half_up_percent_range; subst K N; lia.
Qed.

(** C2, as amended: a null document gives 0; the overall percentage is the
    percentage of the flattened collection, so it is computed from the sums
    of the categories' task counts and completed counts, in whatever order
    the categories are listed; a category added to a document contributes
    its counts to both sums; a document without tasks gives 0; the rounding
    is as for a single category: for fewer than [2^32] tasks an integer of
    [0, 100], the rounded value or, at a tie, possibly one less. *)
Theorem calculateOverallCompletion_spec doc :
  calculateOverallCompletion None = Number 0
  ∧ length (flat (Object_values doc)) = totalTasks doc
  ∧ completedCount (flat (Object_values doc)) = totalCompleted doc
  ∧ calculateOverallCompletion (Some doc)
    = percentage (totalCompleted doc) (totalTasks doc)
  ∧ (∀ (c : string) l, doc !! c = None →
       calculateOverallCompletion (Some (<[c := l]> doc))
       = percentage (completedCount l + totalCompleted doc)
                    (length l + totalTasks doc))
  ∧ (∀ values, values ≡ₚ Object_values doc →
       percentage (completedCount (flat values)) (length (flat values))
       = calculateOverallCompletion (Some doc))
  ∧ (totalTasks doc = 0%nat → calculateOverallCompletion (Some doc) = Number 0)
  ∧ (let exact := round_half_up_percent (Z.of_nat (totalCompleted doc))
                                        (Z.of_nat (totalTasks doc)) in
     ((0 < totalTasks doc)%nat → Z.of_nat (totalTasks doc) < 2 ^ 32 →
        ∃ r : Z, calculateOverallCompletion (Some doc) = Number r
          ∧ 0 ≤ r ≤ 100
          ∧ (r = exact
             ∨ (is_tie (Z.of_nat (totalCompleted doc))
                       (Z.of_nat (totalTasks doc)) = true
                ∧ r = exact - 1)))
     ∧ ((0 < totalTasks doc ≤ 39)%nat →
          calculateOverallCompletion (Some doc) = Number exact
          ∧ 0 ≤ exact ≤ 100)).
Proof.
  pose proof (totalCompleted_le doc) as Hle.
  split; [reflexivity|].
  split; [apply length_flat|].
  split; [apply completedCount_flat|].
  split; [apply calculateOverallCompletion_totals|].
  split.
  { intros c l Hc. rewrite calculateOverallCompletion_totals.
    by rewrite totalCompleted_insert, totalTasks_insert. }
  split.
  { intros values Hperm. rewrite calculateOverallCompletion_totals.
    rewrite completedCount_flat, length_flat.
    unfold totalCompleted, totalTasks. by rewrite Hperm. }
  split.
  { intros H0. rewrite calculateOverallCompletion_totals, H0. reflexivity. }
  cbn zeta. rewrite calculateOverallCompletion_totals. split.
  - intros HN HN32. by apply percentage_binary64.
  - intros HN. split; [by apply percentage_small|].
    apply round_half_up_percent_range; lia.
Qed.

End Calculator.

(** The examples of the specification. *)
Example percentage_3_of_8 : percentage 3 8 = Number 38.
Proof. vm_compute. reflexivity. Qed.

Example percentage_1_of_3 : percentage 1 3 = Number 33.
Proof. vm_compute. reflexivity. Qed.

Example percentage_2_of_3 : percentage 2 3 = Number 67.
Proof. vm_compute. reflexivity. Qed.

Example percentage_4_of_8 : percentage 4 8 = Number 50.
Proof. vm_compute. reflexivity. Qed.

(** The product [(23 / 40) * 100] is the binary64 number just below 57.5. *)
Example product_23_of_40 :
  js_mul (js_div (Number 23) (Number 40)) (Number 100)
  = S754_finite false 8092405580431359 (-47)
  ∧ 115 * 2 ^ 46 - 8092405580431359 = 1.
Proof. vm_compute. split; reflexivity. Qed.

Lemma calculateCompletion_spec_witness :
  calculateCompletion (Some {["technical" := sample_tasks 3 8]}) "technical"
  = Ok (Number 38)
  ∧ calculateCompletion (Some {["technical" := sample_tasks 3 8]}) "content"
    = Ok (Number 0)
  ∧ ∃ r, calculateCompletion (Some {["bulk" := sample_tasks 23 40]}) "bulk"
         = Ok (Number r)
      ∧ 57 ≤ r ≤ 58.
Proof.
  split; [|split].
  - destruct (calculateCompletion_spec {["technical" := sample_tasks 3 8]}
                "technical") as (_ & _ & _ & H).
    destruct (H (sample_tasks 3 8) eq_refl) as [_ H39].
    apply H39. vm_compute. split; lia.
  - destruct (calculateCompletion_spec {["technical" := sample_tasks 3 8]}
                "content") as (_ & Habsent & _).
    apply Habsent; [reflexivity|].
    apply (bool_decide_unpack _). vm_compute. exact I.
  - destruct (calculateCompletion_spec {["bulk" := sample_tasks 23 40]} "bulk")
      as (_ & _ & _ & H).
    destruct (H (sample_tasks 23 40) eq_refl) as [Hany _].
    destruct Hany as (r & Hr & _ & Hexact);
      [vm_compute; lia|vm_compute; reflexivity|].
    exists r. split; [exact Hr|].
    change (round_half_up_percent _ _) with 58 in Hexact. lia.
Defined.

(** C1 as stated fails on a category of 40 tasks of which 23 are completed:
    the exact percentage 57.5 rounds up to 58, the code returns 57.  It
    also fails on an absent category named [constructor]: the call does not
    return 0, it throws. *)
Lemma calculateCompletion_counterexample :
  let l := sample_tasks 23 40 in
  let doc : TasksState := {["bulk" := l]} in
  doc !! "bulk" = Some l
  ∧ length l = 40%nat
  ∧ completedCount l = 23%nat
  ∧ round_half_up_percent 23 40 = 58
  ∧ calculateCompletion (Some doc) "bulk" = Ok (Number 57)
  ∧ calculateCompletion (Some doc) "bulk"
    ≠ Ok (Number (round_half_up_percent (Z.of_nat (completedCount l))
                                        (Z.of_nat (length l))))
  ∧ doc !! "constructor" = None
  ∧ calculateCompletion (Some doc) "constructor"
    = Throw (TypeError "tasks[category].filter is not a function")
  ∧ calculateCompletion (Some doc) "constructor" ≠ Ok (Number 0).
Proof. vm_compute. repeat split; try reflexivity; discriminate. Qed.

(** The document of the specification's example: eight open tasks in one
    category, two completed tasks in another. *)
Lemma calculateOverallCompletion_spec_witness :
  let doc : TasksState := {["B" := sample_tasks 2 2]} in
  calculateOverallCompletion (Some (<["A" := sample_tasks 0 8]> doc)) = Number 20
  ∧ calculateCompletion (Some (<["A" := sample_tasks 0 8]> doc)) "A"
    = Ok (Number 0)
  ∧ calculateCompletion (Some (<["A" := sample_tasks 0 8]> doc)) "B"
    = Ok (Number 100)
  ∧ calculateOverallCompletion (Some doc) = Number 100
  ∧ calculateOverallCompletion (Some (∅ : TasksState)) = Number 0.
Proof.
  cbn zeta.
  destruct (calculateOverallCompletion_spec {["B" := sample_tasks 2 2]})
    as (_ & _ & _ & _ & Hins & _ & _ & _ & H39).
  destruct (calculateOverallCompletion_spec ∅) as (_ & _ & _ & _ & _ & _ & H0 & _).
  split; [|split; [|split; [|split]]].
  - rewrite (Hins "A" (sample_tasks 0 8) eq_refl). vm_compute. reflexivity.
  - vm_compute. reflexivity.
  - vm_compute. reflexivity.
  - apply H39. vm_compute. split; lia.
  - apply H0. apply totalTasks_empty.
Defined.

(** C2 as stated fails on a document of 40 tasks of which 23 are
    completed: the exact percentage 57.5 rounds up to 58, the code returns
    57. *)
Lemma calculateOverallCompletion_tie_counterexample :
  let doc : TasksState :=
    {["first" := sample_tasks 23 30; "second" := sample_tasks 0 10]} in
  totalTasks doc = 40%nat
  ∧ totalCompleted doc = 23%nat
  ∧ round_half_up_percent 23 40 = 58
  ∧ calculateOverallCompletion (Some doc) = Number 57
  ∧ calculateOverallCompletion (Some doc)
    ≠ Number (round_half_up_percent (Z.of_nat (totalCompleted doc))
                                    (Z.of_nat (totalTasks doc))).
Proof. vm_compute. repeat split; try reflexivity. discriminate. Qed.

(** The default catalog: twelve categories, 82 tasks, none completed. *)
Example getDefaultTasks_counts :
  size getDefaultTasks = 12%nat
  ∧ totalTasks getDefaultTasks = 82%nat
  ∧ totalCompleted getDefaultTasks = 0%nat
  ∧ calculateOverallCompletion (Some getDefaultTasks) = Number 0
  ∧ calculateCompletion (Some getDefaultTasks) "technical" = Ok (Number 0)
  ∧ calculateCompletion (Some getDefaultTasks) "unknown" = Ok (Number 0).
Proof. vm_compute. repeat split; reflexivity. Qed.

(** One task of eight completed: 12.5 is rounded up to 13. *)
Example calculateCompletion_after_one_toggle :
  calculateCompletion (Some (toggled getDefaultTasks "technical" 1)) "technical"
  = Ok (Number 13)
  ∧ calculateOverallCompletion (Some (toggled getDefaultTasks "technical" 1))
    = Number 1.
Proof. vm_compute. split; reflexivity. Qed.

(** ** Toggling inside a document *)

Section Toggle.

Implicit Types (d : TasksState) (l : list Task) (t : Task) (c : string) (i : Z).

Lemma toggle_if_id i t : id (toggle_if i t) = id t.
Proof. unfold toggle_if. by destruct (id t =? i). Qed.

Lemma toggle_if_involutive i t : toggle_if i (toggle_if i t) = t.
Proof.
  destruct t as [j n b r ds]. unfold toggle_if. cbn.
  destruct (j =? i) eqn:E; cbn; rewrite E; [|done].
  by rewrite negb_involutive.
Qed.

Lemma toggle_if_other i t : id t ≠ i → toggle_if i t = t.
Proof. intros H. unfold toggle_if. by apply Z.eqb_neq in H as ->. Qed.

Lemma toggle_if_hit i t :
  id t = i →
  toggle_if i t
  = mkTask (id t) (name t) (negb (completed t)) (responsible t) (description t).
Proof. intros H. unfold toggle_if. by apply Z.eqb_eq in H as ->. Qed.

Lemma map_toggle_if_involutive i l :
  map (toggle_if i) (map (toggle_if i) l) = l.
Proof.
  rewrite map_map. rewrite <- (map_id l) at 2.
  apply map_ext. apply toggle_if_involutive.
Qed.

Lemma find_map_toggle_if i l :
  List.find (λ t, id t =? i) (map (toggle_if i) l)
  = toggle_if i <$> List.find (λ t, id t =? i) l.
Proof.
  induction l as [|t l IH]; [done|].
  cbn [map List.find]. rewrite toggle_if_id.
  destruct (id t =? i); [done|apply IH].
Qed.

Lemma find_task_Some d c i t :
  find_task d c i = Some t →
  ∃ l, d !! c = Some l ∧ t ∈ l ∧ id t = i.
Proof.
  unfold find_task. destruct (d !! c) as [l|]; [|done]. cbn.
  intros Hf. apply find_some in Hf as [Hin Hid].
  exists l. split; [done|]. split; [by apply list_elem_of_In|].
  by apply Z.eqb_eq.
Qed.

Lemma find_task_None d c i :
  d !! c = None ∨ (∃ l, d !! c = Some l ∧ Forall (λ t, id t ≠ i) l) →
  find_task d c i = None.
Proof.
  unfold find_task. intros [->|(l & -> & Hall)]; [done|]. cbn.
  induction Hall as [|t l Ht _ IH]; [done|].
  cbn [List.find]. by apply Z.eqb_neq in Ht as ->.
Qed.

Lemma toggled_lookup d c i l :
  d !! c = Some l → toggled d c i !! c = Some (map (toggle_if i) l).
Proof. intros H. unfold toggled. rewrite H. cbn. apply lookup_insert_eq. Qed.

Lemma toggled_lookup_ne d c c' i :
  c ≠ c' → toggled d c i !! c' = d !! c'.
Proof. intros H. unfold toggled. by apply lookup_insert_ne. Qed.

Lemma find_task_toggled d c i t :
  find_task d c i = Some t →
  find_task (toggled d c i) c i = Some (toggle_if i t).
Proof.
  intros Hf. unfold find_task in *.
  destruct (d !! c) as [l|] eqn:Hl; [|done].
  rewrite (toggled_lookup _ _ _ _ Hl). cbn in *.
  by rewrite find_map_toggle_if, Hf.
Qed.

Lemma toggled_involutive d c i l :
  d !! c = Some l → toggled (toggled d c i) c i = d.
Proof.
  intros Hl. unfold toggled at 1. rewrite (toggled_lookup _ _ _ _ Hl). cbn.
  unfold toggled. rewrite insert_insert_eq, map_toggle_if_involutive.
  by apply insert_id.
Qed.

End Toggle.

(** ** Running the server actions *)

Ltac reduce_world :=
  cbn [store faults clock trace head tail hd fst snd negb isSome store_get
       store_set tasks_doc activity_log_doc seo_score_doc integrations_doc
       from_option Datatypes.id].

Ltac run_action :=
  unfold toggleTaskCompletion, addActivityLog, getActivityLog, getTasks,
    initializeRedisData, Date_toISOString, try_catch, throw,
    redis_exists, redis_get, redis_set, redis_call, Date_now,
    mbind, mret, Action_bind, Action_ret;
  reduce_world.

(** Case analysis on the outcome of the coming store calls. *)
Ltac split_faults :=
  repeat match goal with
         | |- context [head ?fs] =>
             is_var fs; destruct fs as [|[] fs]; reduce_world
         end.

(** *** Runs without storage failures *)

Section FaultFree.

Implicit Types (s : Store) (cl : list Z) (tr : list Event).

Lemma initializeRedisData_present s cl tr d :
  tasks_doc s = Some d →
  initializeRedisData (mkWorld s [] cl tr)
  = (Ok tt, mkWorld s [] cl (ev OpExists TASKS_KEY true :: tr)).
Proof. destruct s; cbn; intros ->. reflexivity. Qed.

Lemma getTasks_present s cl tr d :
  tasks_doc s = Some d →
  getTasks (mkWorld s [] cl tr)
  = (Ok d, mkWorld s [] cl
             (ev OpGet TASKS_KEY true :: ev OpExists TASKS_KEY true :: tr)).
Proof. destruct s; cbn; intros ->. reflexivity. Qed.

Lemma getActivityLog_present s cl tr d :
  tasks_doc s = Some d →
  getActivityLog (mkWorld s [] cl tr)
  = (Ok (default [] (activity_log_doc s)),
     mkWorld s [] cl
       (ev OpGet ACTIVITY_LOG_KEY true :: ev OpExists TASKS_KEY true :: tr)).
Proof. destruct s; cbn; intros ->. reflexivity. Qed.

Lemma addActivityLog_present s cl tr d action message :
  tasks_doc s = Some d →
  addActivityLog action message (mkWorld s [] cl tr)
  = (Ok tt,
     mkWorld
       (store_set ACTIVITY_LOG_KEY
          (LogEntry action message (hd 0 cl)
             :: take 19 (default [] (activity_log_doc s))) s)
       [] (tail cl)
       (ev OpSet ACTIVITY_LOG_KEY true :: ev OpGet ACTIVITY_LOG_KEY true
          :: ev OpExists TASKS_KEY true :: tr)).
Proof. destruct s; cbn; intros ->. reflexivity. Qed.

Lemma initializeRedisData_absent s cl tr :
  tasks_doc s = None →
  initializeRedisData (mkWorld s [] cl tr)
  = (Ok tt, mkWorld (seeded_store cl) [] (tail (tail cl)) (seeding_trace ++ tr)).
Proof. destruct s; cbn; intros ->. reflexivity. Qed.

Lemma getTasks_absent s cl tr :
  tasks_doc s = None →
  getTasks (mkWorld s [] cl tr)
  = (Ok getDefaultTasks,
     mkWorld (seeded_store cl) [] (tail (tail cl))
       (ev OpGet TASKS_KEY true :: seeding_trace ++ tr)).
Proof. destruct s; cbn; intros ->. reflexivity. Qed.

Lemma getActivityLog_absent s cl tr :
  tasks_doc s = None →
  getActivityLog (mkWorld s [] cl tr)
  = (Ok [initial_log_entry (toISOString (hd 0 cl))],
     mkWorld (seeded_store cl) [] (tail (tail cl))
       (ev OpGet ACTIVITY_LOG_KEY true :: seeding_trace ++ tr)).
Proof. destruct s; cbn; intros ->. reflexivity. Qed.

Lemma toggle_run_found s cl tr d c i t :
  tasks_doc s = Some d → find_task d c i = Some t →
  toggleTaskCompletion c i (mkWorld s [] cl tr)
  = (Ok (toggled d c i),
     mkWorld
       (store_set ACTIVITY_LOG_KEY
          (LogEntry (activity_type (negb (completed t)))
                    (activity_message (negb (completed t)) (name t) c)
                    (hd 0 cl)
             :: take 19 (default [] (activity_log_doc s)))
          (store_set TASKS_KEY (toggled d c i) s))
       [] (tail cl)
       (ev OpSet ACTIVITY_LOG_KEY true :: ev OpGet ACTIVITY_LOG_KEY true
          :: ev OpExists TASKS_KEY true :: ev OpSet TASKS_KEY true
          :: ev OpGet TASKS_KEY true :: ev OpExists TASKS_KEY true :: tr)).
Proof.
  intros Hd Hf. unfold toggleTaskCompletion, try_catch, mbind, Action_bind.
  rewrite (getTasks_present _ _ _ d Hd), Hf.
  unfold redis_set at 1. unfold redis_call at 1. reduce_world.
  rewrite addActivityLog_present with (d := toggled d c i) by reflexivity.
  reflexivity.
Qed.

End FaultFree.

(** *** Runs on a stored catalog, whatever the other store calls do *)

Section Stored.

Implicit Types (s : Store) (cl : list Z) (tr : list Event).

Lemma getTasks_stored w d :
  tasks_doc (store w) = Some d → raises w 1 = false →
  getTasks w
  = (Ok d,
     mkWorld (store w) (drop 2 (faults w)) (clock w)
       (ev OpGet TASKS_KEY true
          :: ev OpExists TASKS_KEY (negb (raises w 0)) :: trace w)).
Proof.
  destruct w as [[td ld sd idoc] fs cl tr]. unfold raises. cbn.
  intros -> Hget. destruct fs as [|[] [|[] fs]]; try done; reflexivity.
Qed.

Lemma addActivityLog_stored action message w d :
  tasks_doc (store w) = Some d →
  let read := if raises w 1 then [] else default [] (activity_log_doc (store w)) in
  let newEntry := LogEntry action message (hd 0 (clock w)) in
  addActivityLog action message w
  = (Ok tt,
     mkWorld (if raises w 2 then store w
              else store_set ACTIVITY_LOG_KEY (newEntry :: take 19 read) (store w))
       (drop 3 (faults w)) (tail (clock w))
       (ev OpSet ACTIVITY_LOG_KEY (negb (raises w 2))
          :: ev OpGet ACTIVITY_LOG_KEY (negb (raises w 1))
          :: ev OpExists TASKS_KEY (negb (raises w 0)) :: trace w)).
Proof.
  destruct w as [[td ld sd idoc] fs cl tr]. unfold raises. cbn.
  intros ->. destruct fs as [|[] [|[] [|[] fs]]]; reflexivity.
Qed.

(** A toggle of a stored task whose read and write of the catalog
    return: it returns the updated catalog, which is stored; the entry is
    written unless the write of the log raises, before the first 19 entries
    read, none if the read of the log raised. *)
Lemma toggleTaskCompletion_stored w d (c : string) (i : Z) t :
  tasks_doc (store w) = Some d →
  find_task d c i = Some t →
  raises w 1 = false → raises w 2 = false →
  let read := if raises w 4 then [] else default [] (activity_log_doc (store w)) in
  let updated := store_set TASKS_KEY (toggled d c i) (store w) in
  toggleTaskCompletion c i w
  = (Ok (toggled d c i),
     mkWorld (if raises w 5 then updated
              else store_set ACTIVITY_LOG_KEY
                     (toggle_entry t c (hd 0 (clock w)) :: take 19 read) updated)
       (drop 6 (faults w)) (tail (clock w))
       (ev OpSet ACTIVITY_LOG_KEY (negb (raises w 5))
          :: ev OpGet ACTIVITY_LOG_KEY (negb (raises w 4))
          :: ev OpExists TASKS_KEY (negb (raises w 3))
          :: ev OpSet TASKS_KEY true
          :: ev OpGet TASKS_KEY true
          :: ev OpExists TASKS_KEY (negb (raises w 0)) :: trace w)).
Proof.
  intros Hd Hf Hget Hset. cbn zeta.
  unfold toggleTaskCompletion, try_catch, mbind, Action_bind.
  rewrite (getTasks_stored w d Hd Hget), Hf.
  destruct w as [s fs cl tr]. unfold raises in *. cbn in Hd, Hget, Hset |- *.
  unfold redis_set at 1. unfold redis_call at 1. cbn [faults store clock trace].
  assert (head (drop 2 fs) ≠ Some true) as Hhead.
  { destruct fs as [|? [|? [|[] ?]]]; cbn in *; congruence. }
  assert (∀ X (a b : X), (if head (drop 2 fs) is Some true then a else b) = b)
    as ->.
  { intros X a b. destruct (head (drop 2 fs)) as [[]|]; congruence. }
  rewrite (addActivityLog_stored _ _ _ (toggled d c i)) by reflexivity.
  cbn zeta. unfold raises, toggle_entry, mret, Action_ret.
  cbn [faults store clock trace].
  assert (∀ k, tail (drop 2 fs) !! k = fs !! (3 + k)%nat) as Hk.
  { intros k. destruct fs as [|? [|? [|? ?]]]; cbn; try done.
    all: by rewrite ?lookup_nil. }
  rewrite !Hk. cbn [Nat.add].
  replace (drop 3 (tail (drop 2 fs))) with (drop 6 fs)
    by (destruct fs as [|? [|? [|? ?]]]; cbn; by rewrite ?drop_nil).
  destruct s as [td ld sd idoc]. cbn.
  destruct (default false (fs !! 5%nat)); reflexivity.
Qed.

(** A toggle whose read of the catalog raises and whose write returns
    works on the default catalog. *)
Lemma toggleTaskCompletion_fallback w (c : string) (i : Z) t :
  find_task getDefaultTasks c i = Some t →
  isSome (tasks_doc (store w)) = true →
  raises w 1 = true → raises w 2 = false →
  ∃ w', toggleTaskCompletion c i w = (Ok (toggled getDefaultTasks c i), w')
    ∧ tasks_doc (store w') = Some (toggled getDefaultTasks c i)
    ∧ (raises w 5 = true →
         activity_log_doc (store w') = activity_log_doc (store w))
    ∧ (raises w 5 = false →
         ∃ read, activity_log_doc (store w')
                 = Some (toggle_entry t c (hd 0 (clock w)) :: take 19 read)).
Proof.
  intros Hf Hd Hget Hset.
  destruct w as [[[d|] ld sd idoc] fs cl tr]; [|done].
  unfold raises in *. cbn in Hget, Hset |- *.
  destruct fs as [|b0 [|[] [|[] [|b3 [|b4 [|b5 fs]]]]]]; try done.
  all: destruct b0; run_action; rewrite Hf; reduce_world.
  all: try destruct b3; try destruct b4; try destruct b5; reduce_world.
  all: eexists; split; [reflexivity|]; split; [reflexivity|].
  all: split; [first [by intros [=] | intros _; reflexivity]|].
  all: first [by intros [=] | intros _; eexists; reflexivity].
Qed.

End Stored.
(** ** The task repository *)

(** C3, as amended: with a stored catalog in which [(category, taskId)]
    resolves to a task, when the read and the write of the catalog return
    in both calls, whatever the other store calls do, two toggles in
    sequence both succeed; the first flips the task's flag and leaves every
    other category and every task with another id as it was; the second
    returns and stores the original document.  A call whose write of the log
    returns puts a new entry at the head of the log, before the first 19
    entries it read; a call whose write of the log raises leaves the log as
    it is.  Store calls are numbered from 0 and each call makes six: the
    reads of the catalog are calls 1 and 7, its writes calls 2 and 8, the
    reads of the log calls 4 and 10, its writes calls 5 and 11. *)
Theorem toggleTaskCompletion_twice w d (category : string) (taskId : Z) t :
  tasks_doc (store w) = Some d →
  find_task d category taskId = Some t →
  raises w 1 = false → raises w 2 = false →
  raises w 7 = false → raises w 8 = false →
  ∃ w1 w2 t1,
    let now1 := hd 0 (clock w) in
    let now2 := hd 0 (tail (clock w)) in
    let log0 := activity_log_doc (store w) in
    let log1 := activity_log_doc (store w1) in
    toggleTaskCompletion category taskId w = (Ok (toggled d category taskId), w1)
    ∧ tasks_doc (store w1) = Some (toggled d category taskId)
    ∧ faults w1 = drop 6 (faults w)
    ∧ find_task (toggled d category taskId) category taskId = Some t1
    ∧ completed t1 = negb (completed t)
    ∧ (∀ c', c' ≠ category → toggled d category taskId !! c' = d !! c')
    ∧ (∀ l, d !! category = Some l →
         toggled d category taskId !! category = Some (map (toggle_if taskId) l)
         ∧ ∀ t', id t' ≠ taskId → toggle_if taskId t' = t')
    ∧ toggleTaskCompletion category taskId w1 = (Ok d, w2)
    ∧ tasks_doc (store w2) = Some d
    ∧ log1 = (if raises w 5 then log0
              else Some (toggle_entry t category now1
                           :: take 19 (if raises w 4 then []
                                       else default [] log0)))
    ∧ activity_log_doc (store w2)
      = (if raises w 11 then log1
         else Some (toggle_entry t1 category now2
                      :: take 19 (if raises w 10 then []
                                  else default [] log1)))
    ∧ (faults w = [] →
         activity_log_doc (store w2)
         = Some (toggle_entry t1 category now2
                   :: take 19 (toggle_entry t category now1
                                 :: take 19 (default [] log0)))).
Proof.
  intros Hd Hf Hget1 Hset1 Hget2 Hset2.
  pose proof (find_task_Some _ _ _ _ Hf) as (l & Hl & _ & Hid).
  pose proof (find_task_toggled _ _ _ _ Hf) as Hf1.
  pose proof (toggleTaskCompletion_stored w d category taskId t
                Hd Hf Hget1 Hset1) as Hrun1.
  cbn zeta in Hrun1.
  set (w1 := (toggleTaskCompletion category taskId w).2).
  assert (Hw1 : toggleTaskCompletion category taskId w
                = (Ok (toggled d category taskId), w1)).
  { unfold w1. by rewrite Hrun1. }
  assert (Hd1 : tasks_doc (store w1) = Some (toggled d category taskId)).
  { unfold w1. rewrite Hrun1. cbn [snd store].
    destruct (raises w 5); by destruct (store w). }
  assert (Hfs1 : faults w1 = drop 6 (faults w))
    by (unfold w1; by rewrite Hrun1).
  assert (Hcl1 : clock w1 = tail (clock w))
    by (unfold w1; by rewrite Hrun1).
  assert (Hr1 : ∀ k, raises w1 k = raises w (6 + k)).
  { intros k. unfold raises. by rewrite Hfs1, lookup_drop. }
  assert (Hlog1 : activity_log_doc (store w1)
                  = if raises w 5 then activity_log_doc (store w)
                    else Some (toggle_entry t category (hd 0 (clock w))
                                 :: take 19 (if raises w 4 then []
                                             else default []
                                                    (activity_log_doc (store w))))).
  { unfold w1. rewrite Hrun1. cbn [snd store].
    destruct (raises w 5); by destruct (store w). }
  pose proof (toggleTaskCompletion_stored w1 _ category taskId _ Hd1 Hf1
                ltac:(by rewrite Hr1) ltac:(by rewrite Hr1)) as Hrun2.
  cbn zeta in Hrun2. rewrite (toggled_involutive _ _ _ _ Hl) in Hrun2.
  rewrite !Hr1, Hcl1 in Hrun2. cbn [Nat.add] in Hrun2.
  set (w2 := (toggleTaskCompletion category taskId w1).2).
  assert (Hlog2 : activity_log_doc (store w2)
                  = if raises w 11 then activity_log_doc (store w1)
                    else Some (toggle_entry (toggle_if taskId t) category
                                 (hd 0 (tail (clock w)))
                                 :: take 19 (if raises w 10 then []
                                             else default []
                                                    (activity_log_doc (store w1))))).
  { unfold w2. rewrite Hrun2. cbn [snd store].
    destruct (raises w 11); by destruct (store w1). }
  exists w1, w2, (toggle_if taskId t). cbn zeta.
  split; [exact Hw1|]. split; [exact Hd1|]. split; [exact Hfs1|].
  split; [exact Hf1|].
  split; [by rewrite (toggle_if_hit _ _ Hid)|].
  split; [intros c' Hc'; by apply toggled_lookup_ne|].
  split.
  { intros l' Hl'. split; [by apply toggled_lookup|]. apply toggle_if_other. }
  split; [unfold w2; by rewrite Hrun2|].
  split.
  { unfold w2. rewrite Hrun2. cbn [snd store].
    destruct (raises w 11); by destruct (store w1). }
  split; [exact Hlog1|]. split; [exact Hlog2|].
  intros Hfs. rewrite Hlog2, Hlog1. unfold raises. rewrite Hfs. reflexivity.
Qed.

Lemma toggleTaskCompletion_twice_witness :
  let w := mkWorld (mkStore (Some getDefaultTasks) (Some []) None None)
                   [true; false; false; false; true]
                   [1700000000000; 1700000060000] [] in
  ∃ w1 w2,
    toggleTaskCompletion "technical" 1 w
    = (Ok (toggled getDefaultTasks "technical" 1), w1)
    ∧ toggleTaskCompletion "technical" 1 w1 = (Ok getDefaultTasks, w2)
    ∧ tasks_doc (store w2) = Some getDefaultTasks
    ∧ length (default [] (activity_log_doc (store w2))) = 2%nat.
Proof.
  cbn zeta.
  destruct (toggleTaskCompletion_twice
              (mkWorld (mkStore (Some getDefaultTasks) (Some []) None None)
                       [true; false; false; false; true]
                       [1700000000000; 1700000060000] [])
              getDefaultTasks "technical" 1
              (mkTask 1 "Configure robots.txt" false "Frontend Developer"
                 "Tells search engines which pages to crawl and which to ignore. Improves crawl efficiency and prevents indexing of sensitive or duplicate content. Directly impacts which pages appear in search results.")
              eq_refl eq_refl eq_refl eq_refl eq_refl eq_refl)
    as (w1 & w2 & t1 & H1 & _ & _ & _ & _ & _ & _ & H2 & H3 & H4 & H5 & _).
  exists w1, w2. split; [exact H1|]. split; [exact H2|]. split; [exact H3|].
  rewrite H5, H4. reflexivity.
Defined.

(** C3 as stated fails when the second call's read of the catalog raises:
    both calls return, yet the second works on the default catalog, so the
    toggled task stays completed and the task completed before is open
    again.  It also fails when a write of the log raises: the call returns
    and the log has gained no entry. *)
Lemma toggleTaskCompletion_twice_counterexample :
  let stored := toggled getDefaultTasks "content" 2 in
  let w := mkWorld (mkStore (Some stored) (Some []) None None)
                   [false; false; false; false; false; true;
                    false; true; false; false; false; true]
                   [1700000000000; 1700000060000] [] in
  ∃ w1 w2 final,
    toggleTaskCompletion "technical" 1 w = (Ok (toggled stored "technical" 1), w1)
    ∧ toggleTaskCompletion "technical" 1 w1 = (Ok final, w2)
    ∧ tasks_doc (store w2) = Some final
    ∧ completed <$> find_task stored "technical" 1 = Some false
    ∧ completed <$> find_task final "technical" 1 = Some true
    ∧ completed <$> find_task stored "content" 2 = Some true
    ∧ completed <$> find_task final "content" 2 = Some false
    ∧ activity_log_doc (store w) = Some []
    ∧ activity_log_doc (store w2) = Some [].
Proof.
  cbn zeta.
  set (stored := toggled getDefaultTasks "content" 2).
  set (w := mkWorld _ _ _ _).
  assert (Hfind : find_task stored "technical" 1
                  = find_task getDefaultTasks "technical" 1).
  { unfold find_task, stored. by rewrite toggled_lookup_ne. }
  pose proof (toggleTaskCompletion_stored w stored "technical" 1 _
                eq_refl Hfind eq_refl eq_refl) as Hrun1.
  cbn zeta in Hrun1.
  destruct (toggleTaskCompletion_fallback
              (toggleTaskCompletion "technical" 1 w).2 "technical" 1 _
              eq_refl)
    as (w2 & Hrun2 & Hd2 & Hlog2 & _); [by rewrite Hrun1..|].
  rewrite Hrun1 in Hlog2. specialize (Hlog2 eq_refl).
  eexists _, w2, _. split; [by rewrite Hrun1|]. split; [exact Hrun2|].
  split; [exact Hd2|]. rewrite Hfind.
  split; [reflexivity|]. split; [vm_compute; reflexivity|].
  split; [vm_compute; reflexivity|]. split; [vm_compute; reflexivity|].
  split; [reflexivity|]. exact Hlog2.
Qed.


(** C4, as amended: with a stored catalog in which [(category, taskId)]
    resolves to no task (unknown category, or no task with that id), the
    toggle is rejected with an error and no write is made: the store is
    unchanged and a following read returns the stored catalog.  This holds
    when the read of the catalog returns, and also when it raises if the
    pair resolves to no task of the default catalog either. *)
Theorem toggleTaskCompletion_not_found w d (category : string) (taskId : Z) :
  tasks_doc (store w) = Some d →
  (d !! category = None
   ∨ ∃ l, d !! category = Some l ∧ Forall (λ t, id t ≠ taskId) l) →
  (faults w !! 1%nat ≠ Some true
   ∨ find_task getDefaultTasks category taskId = None) →
  ∃ w' calls,
    toggleTaskCompletion category taskId w
    = (Throw (JsError "Failed to update task status"), w')
    ∧ store w' = store w
    ∧ trace w' = calls ++ trace w
    ∧ no_write calls
    ∧ faults w' = tail (tail (faults w))
    ∧ (faults w' = [] → ∃ w'', getTasks w' = (Ok d, w'') ∧ store w'' = store w).
Proof.
  intros Hd Hnone Hread. apply find_task_None in Hnone.
  destruct w as [[td ld sd idoc] fs cl tr]. cbn in Hd. subst td.
  assert (∀ b0 b1 : bool,
            no_write [ev OpGet TASKS_KEY b1; ev OpExists TASKS_KEY b0]) as Hnw.
  { intros b0 b1. repeat constructor; discriminate. }
  assert (∀ b0 fs', fs = b0 :: true :: fs' →
            find_task getDefaultTasks category taskId = None) as Hdef.
  { intros b0 fs' ->. destruct Hread as [Hread|Hread]; [by destruct Hread|done]. }
  clear Hread.
  destruct fs as [|b0 [|b1 fs]]; [|destruct b0|destruct b0, b1].
  all: try (specialize (Hdef _ _ eq_refl)); eexists _, [_; _]; run_action.
  all: rewrite ?Hnone, ?Hdef.
  all: split; [reflexivity|]; split; [reflexivity|]; split; [reflexivity|].
  all: split; [apply Hnw|]; split; [reflexivity|].
  all: cbn; intros ?; subst; eexists; split; reflexivity.
Qed.

Lemma toggleTaskCompletion_not_found_witness :
  let w := mkWorld (mkStore (Some getDefaultTasks) (Some []) None None)
                   [] [] [] in
  ∃ w',
    toggleTaskCompletion "technical" 99 w
    = (Throw (JsError "Failed to update task status"), w')
    ∧ store w' = store w
    ∧ ∃ w'', getTasks w' = (Ok getDefaultTasks, w'').
Proof.
  cbn zeta.
  destruct (toggleTaskCompletion_not_found
              (mkWorld (mkStore (Some getDefaultTasks) (Some []) None None)
                       [] [] [])
              getDefaultTasks "technical" 99 eq_refl)
    as (w' & calls & H1 & H2 & _ & _ & Hfs & H3).
  - right. exists default_technical. split; [reflexivity|].
    unfold default_technical. repeat constructor; discriminate.
  - left. discriminate.
  - exists w'. split; [exact H1|]. split; [exact H2|].
    destruct (H3 Hfs) as (w'' & H4 & _). by exists w''.
Defined.

(** C4 as stated fails when the read of the catalog raises and the pair
    resolves to a task of the default catalog: the toggle is not rejected,
    it is applied to the default catalog, which replaces the stored one. *)
Lemma toggleTaskCompletion_not_found_counterexample :
  let only := mkTask 7 "Only task" true "Owner" "The one task of this catalog" in
  let stored : TasksState := {["only" := [only]]} in
  let w := mkWorld (mkStore (Some stored) (Some []) None None)
                   [false; true] [1700000000000] [] in
  ∃ w',
    stored !! "technical" = None
    ∧ find_task stored "technical" 1 = None
    ∧ toggleTaskCompletion "technical" 1 w
      = (Ok (toggled getDefaultTasks "technical" 1), w')
    ∧ tasks_doc (store w') = Some (toggled getDefaultTasks "technical" 1)
    ∧ tasks_doc (store w') ≠ tasks_doc (store w)
    ∧ activity_log_doc (store w') ≠ activity_log_doc (store w).
Proof.
  cbn zeta.
  set (stored := ({["only" := _]} : TasksState)).
  set (w := mkWorld _ _ _ _).
  destruct (toggleTaskCompletion_fallback w "technical" 1 _
              eq_refl eq_refl eq_refl eq_refl)
    as (w' & Hrun & Hd' & _ & Hlog).
  destruct (Hlog eq_refl) as [read Hlog'].
  exists w'. split; [reflexivity|]. split; [reflexivity|].
  split; [exact Hrun|]. split; [exact Hd'|]. split.
  - rewrite Hd'. cbn. intros H.
    apply (f_equal (λ o, o ≫= (λ m : TasksState, m !! "only"))) in H.
    vm_compute in H. discriminate.
  - rewrite Hlog'. cbn. discriminate.
Qed.

(** Whatever the store does, [initializeRedisData] returns, and the
    catalog and the log it leaves are those found or those it seeds. *)
Lemma initializeRedisData_any w :
  ∃ w', initializeRedisData w = (Ok tt, w')
    ∧ (tasks_doc (store w') = tasks_doc (store w)
       ∨ tasks_doc (store w) = None
         ∧ tasks_doc (store w') = Some getDefaultTasks)
    ∧ (activity_log_doc (store w') = activity_log_doc (store w)
       ∨ tasks_doc (store w) = None
         ∧ ∃ now, activity_log_doc (store w') = Some [initial_log_entry now])
    ∧ (∀ d, tasks_doc (store w) = Some d →
         store w' = store w ∧ faults w' = tail (faults w)
         ∧ clock w' = clock w
         ∧ ∃ ok, trace w' = ev OpExists TASKS_KEY ok :: trace w).
Proof.
  destruct w as [[td ld sd idoc] fs cl tr]. run_action.
  destruct td as [d|]; reduce_world; split_faults.
  all: eexists; split; [reflexivity|]; reduce_world.
  all: split; [first [by left | by right]|].
  all: split; [first [by left | right; split; [done|]; by eexists]|].
  all: intros d' [= <-] || intros d' [=].
  all: repeat split; by eexists.
Qed.

(** Whatever the store does, [getTasks] returns a catalog. *)
Lemma getTasks_any w :
  ∃ result w' read_ok earlier,
    getTasks w = (Ok result, w')
    ∧ trace w' = ev OpGet TASKS_KEY read_ok :: earlier
    ∧ (read_ok = false → result = getDefaultTasks)
    ∧ (read_ok = true →
         result = default getDefaultTasks (tasks_doc (store w')))
    ∧ (tasks_doc (store w) = None → result = getDefaultTasks)
    ∧ (∀ d, tasks_doc (store w) = Some d →
         store w' = store w
         ∧ (read_ok = true → result = d)
         ∧ ∃ exists_ok, earlier = ev OpExists TASKS_KEY exists_ok :: trace w)
    ∧ (∀ fs, faults w = true :: true :: fs → result = getDefaultTasks).
Proof.
  destruct w as [[td ld sd idoc] fs cl tr]. run_action.
  destruct td as [d|]; reduce_world; split_faults.
  all: eexists _, _, _, _; split; [reflexivity|]; reduce_world.
  all: split; [reflexivity|].
  all: repeat split; try done.
  all: try (intros d' [= <-]); try (intros ? [= <-]); try done.
  all: try (repeat split; try done; by eexists).
  all: intros _; congruence.
Qed.


(** C9, as amended: whatever the store does, [getTasks] returns a catalog
    and never throws; the last store call is the read of the catalog key;
    when that read raises, the result is the default catalog; when it
    returns, the result is the stored catalog, or the default one if none is
    stored; a catalog key that was absent gives the default catalog; with a
    stored catalog nothing is written, and a failure of the existence check
    alone leaves the result the stored catalog. *)
Theorem getTasks_fail_open w :
  ∃ result w' read_ok earlier,
    getTasks w = (Ok result, w')
    ∧ trace w' = ev OpGet TASKS_KEY read_ok :: earlier
    ∧ (read_ok = false → result = getDefaultTasks)
    ∧ (read_ok = true →
         result = default getDefaultTasks (tasks_doc (store w')))
    ∧ (tasks_doc (store w) = None → result = getDefaultTasks)
    ∧ (∀ d, tasks_doc (store w) = Some d →
         store w' = store w
         ∧ (read_ok = true → result = d)
         ∧ ∃ exists_ok, earlier = ev OpExists TASKS_KEY exists_ok :: trace w)
    ∧ (∀ fs, faults w = true :: true :: fs → result = getDefaultTasks).
Proof. apply getTasks_any. Qed.

Lemma getTasks_fail_open_witness :
  let stored := toggled getDefaultTasks "technical" 1 in
  let w := mkWorld (mkStore (Some stored) None None None) [true; true] [] [] in
  ∃ w', getTasks w = (Ok getDefaultTasks, w').
Proof.
  cbn zeta.
  destruct (getTasks_fail_open
              (mkWorld (mkStore (Some (toggled getDefaultTasks "technical" 1))
                                None None None) [true; true] [] []))
    as (result & w' & read_ok & earlier & H & _ & _ & _ & _ & _ & Hdown).
  exists w'. rewrite H. by rewrite (Hdown [] eq_refl).
Defined.

(** C9 as stated fails when only the existence check raises: the stored
    catalog, here the default one with a task completed, is returned. *)
Lemma getTasks_exists_failure_counterexample :
  let stored := toggled getDefaultTasks "technical" 1 in
  let w := mkWorld (mkStore (Some stored) (Some []) None None)
                   [true] [] [] in
  ∃ w', getTasks w = (Ok stored, w')
    ∧ trace w' = [ev OpGet TASKS_KEY true; ev OpExists TASKS_KEY false]
    ∧ stored ≠ getDefaultTasks.
Proof.
  cbn zeta. eexists. split; [reflexivity|]. split; [reflexivity|].
  intros H. apply (f_equal (λ m : TasksState, m !! "technical")) in H.
  vm_compute in H. discriminate.
Qed.

(** C7: when the catalog key is absent, [getTasks] returns the default
    catalog whatever the store does; when the store does not fail it also
    seeds the store with the default catalog, so that the existence check
    and a second read then find it. *)
Theorem getTasks_seeds_default_catalog w :
  tasks_doc (store w) = None →
  (∃ w', getTasks w = (Ok getDefaultTasks, w'))
  ∧ (faults w = [] →
       ∃ w' w2 w3,
         getTasks w = (Ok getDefaultTasks, w')
         ∧ store w' = seeded_store (clock w)
         ∧ tasks_doc (store w') = Some getDefaultTasks
         ∧ trace w' = ev OpGet TASKS_KEY true :: seeding_trace ++ trace w
         ∧ redis_exists TASKS_KEY w' = (Ok true, w2)
         ∧ getTasks w' = (Ok getDefaultTasks, w3)
         ∧ store w3 = store w').
Proof.
  intros Hd. split.
  - destruct (getTasks_any w) as (r & w' & ok & tr & H & _ & _ & _ & Hnone & _).
    exists w'. by rewrite H, (Hnone Hd).
  - destruct w as [s fs cl tr]. cbn in Hd |- *. intros ->.
    eexists _, _, _. rewrite (getTasks_absent _ _ _ Hd).
    split; [reflexivity|]. split; [reflexivity|]. split; [reflexivity|].
    split; [reflexivity|]. split; [reflexivity|].
    split; reflexivity.
Qed.

Lemma getTasks_seeds_default_catalog_witness :
  let w := mkWorld fresh_store [] [1700000000000; 1700000000001] [] in
  ∃ w' w2,
    getTasks w = (Ok getDefaultTasks, w')
    ∧ tasks_doc (store w') = Some getDefaultTasks
    ∧ redis_exists TASKS_KEY w' = (Ok true, w2).
Proof.
  cbn zeta.
  destruct (getTasks_seeds_default_catalog
              (mkWorld fresh_store [] [1700000000000; 1700000000001] [])
              eq_refl) as [_ H].
  destruct (H eq_refl) as (w' & w2 & w3 & H1 & _ & H2 & _ & H3 & _).
  exists w', w2. exact (conj H1 (conj H2 H3)).
Defined.

(** Whatever the store does, [getActivityLog] returns a log. *)
Lemma getActivityLog_any w :
  ∃ log w', getActivityLog w = (Ok log, w')
    ∧ (∀ d, tasks_doc (store w) = Some d →
         store w' = store w
         ∧ faults w' = tail (tail (faults w))
         ∧ clock w' = clock w
         ∧ (log = default [] (activity_log_doc (store w)) ∨ log = [])
         ∧ (faults w = [] → log = default [] (activity_log_doc (store w))))
    ∧ (activity_log_doc (store w') = activity_log_doc (store w)
       ∨ tasks_doc (store w) = None
         ∧ ∃ now, activity_log_doc (store w') = Some [initial_log_entry now])
    ∧ (log = default [] (activity_log_doc (store w')) ∨ log = [])
    ∧ (∀ fs, faults w = true :: fs →
         log = default [] (activity_log_doc (store w)) ∨ log = []).
Proof.
  destruct w as [[td ld sd idoc] fs cl tr]. run_action.
  destruct td as [d|]; reduce_world; split_faults.
  all: eexists _, _; split; [reflexivity|]; reduce_world.
  all: split; [first [by intros d' [=]
                     | intros d' _; repeat split; first [by left|by right|done]]|].
  all: split; [first [by left | right; split; [done|]; by eexists]|].
  all: split; [first [by left|by right]|].
  all: first [by intros ? [=] | intros ? _; first [by left|by right]].
Qed.

(** C8, as amended: with the log key absent, a read returns the empty log
    whenever a catalog is stored, whatever the store does; on a store
    without a catalog the read first seeds the store, and without storage
    failures it returns the one entry just written, not the empty log. *)
Theorem getActivityLog_uninitialized w :
  activity_log_doc (store w) = None →
  (∀ d, tasks_doc (store w) = Some d →
     ∃ w', getActivityLog w = (Ok [], w') ∧ store w' = store w)
  ∧ (tasks_doc (store w) = None →
       (∃ log w', getActivityLog w = (Ok log, w')
          ∧ (log = [] ∨ ∃ now, log = [initial_log_entry now]))
       ∧ (faults w = [] →
            ∃ w', getActivityLog w
                  = (Ok [initial_log_entry (toISOString (hd 0 (clock w)))], w')
              ∧ store w' = seeded_store (clock w))
       ∧ (∀ fs, faults w = true :: fs →
            ∃ w', getActivityLog w = (Ok [], w'))).
Proof.
  intros Hlog.
  destruct (getActivityLog_any w) as (log & w' & H & Hpresent & Hstored & Hread & Hdown).
  rewrite Hlog in *. split; [|intros Hd; split; [|split]].
  - intros d Hd. destruct (Hpresent d Hd) as (Hs & _ & _ & Hl & _).
    exists w'. rewrite H. by destruct Hl as [->| ->].
  - exists log, w'. split; [done|].
    destruct Hread as [->| ->]; [|by left].
    destruct Hstored as [->|(_ & now & ->)]; [by left|right; by exists now].
  - destruct w as [s fs cl tr]. cbn in Hd |- *. intros ->.
    eexists. rewrite (getActivityLog_absent _ _ _ Hd). split; reflexivity.
  - intros fs Hfs. exists w'. rewrite H.
    by destruct (Hdown fs Hfs) as [->| ->].
Qed.

Lemma getActivityLog_uninitialized_witness :
  let stored := mkStore (Some getDefaultTasks) None None None in
  (∃ w', getActivityLog (mkWorld stored [] [] []) = (Ok [], w'))
  ∧ ∃ w', getActivityLog (mkWorld fresh_store [] [1700000000000] [])
          = (Ok [initial_log_entry (toISOString 1700000000000)], w').
Proof.
  cbn zeta. split.
  - destruct (getActivityLog_uninitialized
                (mkWorld (mkStore (Some getDefaultTasks) None None None) [] [] [])
                eq_refl) as [H _].
    destruct (H getDefaultTasks eq_refl) as (w' & H' & _). by exists w'.
  - destruct (getActivityLog_uninitialized
                (mkWorld fresh_store [] [1700000000000] []) eq_refl) as [_ H].
    destruct (H eq_refl) as (_ & H' & _).
    destruct (H' eq_refl) as (w' & H'' & _). by exists w'.
Defined.

(** C8 as stated fails on a fresh store: the read seeds the log and
    returns the entry it has just written. *)
Lemma getActivityLog_fresh_store_counterexample :
  let w := mkWorld fresh_store [] [1700000000000; 1700000000001] [] in
  activity_log_doc (store w) = None
  ∧ tasks_doc (store w) = None
  ∧ trace w = []
  ∧ (getActivityLog w).1
    = Ok [InitEntry 1 (toISOString 1700000000000) "SYSTEM_INIT"
            "SEO Dashboard initialized with default tasks" "System"]
  ∧ (getActivityLog w).1 ≠ Ok [].
Proof. cbn zeta. repeat split; try reflexivity. discriminate. Qed.

(** ** The activity log *)

Lemma length_take_19 {A} (l : list A) : (length (take 19 l) ≤ 19)%nat.
Proof. rewrite length_take. lia. Qed.

(** Whatever the store does, [addActivityLog] returns; its last store call
    is the write of the log, and the log it leaves is the one found, the
    one seeded, or the new entry followed by at most 19 entries. *)
Lemma addActivityLog_any action message w :
  ∃ w' write_ok earlier,
    addActivityLog action message w = (Ok tt, w')
    ∧ trace w' = ev OpSet ACTIVITY_LOG_KEY write_ok :: earlier
    ∧ (write_ok = true →
         ∃ now read, activity_log_doc (store w')
                     = Some (LogEntry action message now :: take 19 read))
    ∧ (write_ok = false →
         activity_log_doc (store w') = activity_log_doc (store w)
         ∨ ∃ now, activity_log_doc (store w') = Some [initial_log_entry now])
    ∧ (∀ d, tasks_doc (store w) = Some d →
         tasks_doc (store w') = Some d
         ∧ (write_ok = false → store w' = store w)).
Proof.
  destruct w as [[td ld sd idoc] fs cl tr]. run_action.
  destruct td as [d|]; reduce_world; split_faults.
  all: eexists _, _, _; split; [reflexivity|]; reduce_world.
  all: split; [reflexivity|].
  all: split; [first [by intros [=] | intros _; by eexists _, _]|].
  all: split; [first [by intros [=]
                     | intros _; first [by left | right; by eexists]]|].
  all: first [by intros ? [=] | intros ? [= <-]; split; [done|]; done].
Qed.

Lemma log_capped_entry s action message now read :
  activity_log_doc s = Some (LogEntry action message now :: take 19 read) →
  log_capped s.
Proof.
  intros H l. rewrite H. intros [= <-]. cbn.
  pose proof (length_take_19 read). lia.
Qed.

Lemma log_capped_initial s now :
  activity_log_doc s = Some [initial_log_entry now] → log_capped s.
Proof. intros H l. rewrite H. intros [= <-]. cbn. lia. Qed.

Lemma log_capped_same s s' :
  activity_log_doc s' = activity_log_doc s → log_capped s → log_capped s'.
Proof. intros H Hs l. rewrite H. apply Hs. Qed.

(** Whatever the store does, a toggle that returns has found the task in
    the catalog it read, has stored the updated catalog, and ends with the
    write of the log; a toggle never leaves a log of more than 20 entries
    unless it found one. *)
Lemma toggleTaskCompletion_any category taskId w :
  ∃ r w',
    toggleTaskCompletion category taskId w = (r, w')
    ∧ (log_capped (store w) → log_capped (store w'))
    ∧ (∀ updated, r = Ok updated →
         ∃ read t write_ok earlier,
           (tasks_doc (store w) = Some read ∨ read = getDefaultTasks)
           ∧ find_task read category taskId = Some t
           ∧ updated = toggled read category taskId
           ∧ tasks_doc (store w') = Some updated
           ∧ trace w' = ev OpSet ACTIVITY_LOG_KEY write_ok :: earlier
           ∧ (write_ok = true →
                ∃ now older,
                  activity_log_doc (store w')
                  = Some (toggle_entry t category now :: take 19 older))
           ∧ (write_ok = false →
                activity_log_doc (store w') = activity_log_doc (store w)
                ∨ ∃ now, activity_log_doc (store w')
                         = Some [initial_log_entry now])).
Proof.
  unfold toggleTaskCompletion, try_catch, mbind, Action_bind.
  destruct (getTasks_any w)
    as (read & w1 & read_ok & tr1 & Hget & _ & Hraised & Hread & Hnone & Hsome & _).
  destruct (initializeRedisData_any w) as (wi & Hinit & _ & Hlogi & _).
  assert (activity_log_doc (store w1) = activity_log_doc (store w)
          ∨ ∃ now, activity_log_doc (store w1) = Some [initial_log_entry now])
    as Hlog1.
  { revert Hget. unfold getTasks, try_catch, mbind, Action_bind.
    rewrite Hinit. unfold redis_get, redis_call, mret, Action_ret.
    destruct (head (faults wi)) as [[]|]; intros [= _ <-]; cbn;
      destruct Hlogi as [?|(_ & ?)]; eauto. }
  assert (tasks_doc (store w) = Some read ∨ read = getDefaultTasks) as Hsrc.
  { destruct (tasks_doc (store w)) as [d|] eqn:Hd; [|right; by apply Hnone].
    destruct (Hsome d eq_refl) as (_ & Hd' & _).
    destruct read_ok; [left; by rewrite (Hd' eq_refl)|].
    right. by apply Hraised. }
  rewrite Hget.
  destruct (find_task read category taskId) as [t|] eqn:Hf.
  2:{ eexists _, _. split; [reflexivity|]. split; [|by intros ? [=]].
      destruct Hlog1 as [H|[now H]];
        [by apply log_capped_same|intros _; by apply (log_capped_initial _ now)]. }
  unfold redis_set at 1. unfold redis_call at 1.
  destruct (head (faults w1)) as [[]|] eqn:Hhead.
  { eexists _, _. split; [reflexivity|]. split; [|by intros ? [=]]. cbn.
    destruct Hlog1 as [H|[now H]];
      [by apply log_capped_same|intros _; by apply (log_capped_initial _ now)]. }
  all: match goal with
       | |- context [addActivityLog ?a ?m ?w2] =>
           destruct (addActivityLog_any a m w2)
             as (w' & write_ok & earlier & Hadd & Htr & Hok & Hfail & Hkeep);
           rewrite Hadd
       end.
  all: unfold mret, Action_ret.
  all: exists (Ok (toggled read category taskId)), w'.
  all: split; [reflexivity|].
  all: destruct (Hkeep _ eq_refl) as [Hupd _].
  all: cbn in Hfail.
  all: split.
  all: try (intros updated [= <-]; exists read, t, write_ok, earlier;
            split; [exact Hsrc|]; split; [exact Hf|]; split; [reflexivity|];
            split; [exact Hupd|]; split; [exact Htr|]; split; [exact Hok|];
            intros Hw; destruct (Hfail Hw) as [H|H]; [|by right];
            destruct Hlog1 as [H1|H1]; [left; congruence|right];
            destruct H1 as [now H1]; exists now; congruence).
  all: intros Hcap; destruct write_ok.
  all: try (destruct (Hok eq_refl) as (now & older & H);
            eapply log_capped_entry; exact H).
  all: destruct (Hfail eq_refl) as [H|[now H]];
    [|eapply log_capped_initial; exact H].
  all: destruct Hlog1 as [H1|[now H1]];
    [apply (log_capped_same (store w)); [congruence|done]
    |eapply log_capped_initial; rewrite H; exact H1].
Qed.

Lemma getTasks_log w :
  activity_log_doc (store (getTasks w).2) = activity_log_doc (store w)
  ∨ ∃ now, activity_log_doc (store (getTasks w).2) = Some [initial_log_entry now].
Proof.
  destruct (initializeRedisData_any w) as (wi & Hinit & _ & Hlogi & _).
  unfold getTasks, try_catch, mbind, Action_bind.
  rewrite Hinit. unfold redis_get, redis_call, mret, Action_ret.
  destruct (head (faults wi)) as [[]|]; cbn;
    destruct Hlogi as [?|(_ & ?)]; eauto.
Qed.

Lemma run_call_log_capped c w :
  log_capped (store w) → log_capped (store (run_call c w)).
Proof.
  intros Hcap. destruct c as [| |a m|cat i]; unfold run_call.
  - destruct (getTasks_log w) as [H|[now H]];
      [by apply (log_capped_same (store w))|by apply (log_capped_initial _ now)].
  - destruct (getActivityLog_any w) as (log & w' & -> & _ & H & _). cbn.
    destruct H as [H|(_ & now & H)];
      [by apply (log_capped_same (store w))|by apply (log_capped_initial _ now)].
  - destruct (addActivityLog_any a m w)
      as (w' & [] & earlier & -> & _ & Hok & Hfail & _); cbn.
    + destruct (Hok eq_refl) as (now & read & H). by eapply log_capped_entry.
    + destruct (Hfail eq_refl) as [H|[now H]];
        [by apply (log_capped_same (store w))|by apply (log_capped_initial _ now)].
  - destruct (toggleTaskCompletion_any cat i w) as (r & w' & -> & H & _).
    by apply H.
Qed.

(** C5: a stored log of at most 20 entries stays so under any sequence of
    calls, whatever the store does; every append whose write returns leaves
    at most 20 entries, whatever was stored; with a stored catalog, an
    append without storage failures stores the new entry followed by the
    first 19 entries found, so that of 20 entries found exactly the last,
    the oldest, is dropped. *)
Theorem activity_log_never_exceeds_20 :
  (∀ calls w, log_capped (store w) → log_capped (store (run_calls calls w)))
  ∧ (∀ action message w,
       ∃ w' write_ok earlier,
         addActivityLog action message w = (Ok tt, w')
         ∧ trace w' = ev OpSet ACTIVITY_LOG_KEY write_ok :: earlier
         ∧ (write_ok = true → log_capped (store w')))
  ∧ (∀ action message w d l,
       faults w = [] →
       tasks_doc (store w) = Some d →
       activity_log_doc (store w) = Some l →
       ∃ w',
         let newEntry := LogEntry action message (hd 0 (clock w)) in
         addActivityLog action message w = (Ok tt, w')
         ∧ activity_log_doc (store w') = Some (newEntry :: take 19 l)
         ∧ (length l = 20%nat →
              ∃ kept oldest,
                l = kept ++ [oldest]
                ∧ activity_log_doc (store w') = Some (newEntry :: kept)
                ∧ length (newEntry :: kept) = 20%nat)).
Proof.
  split; [|split].
  - intros calls. induction calls as [|c calls IH]; intros w Hcap; [done|].
    cbn. apply IH. by apply run_call_log_capped.
  - intros a m w.
    destruct (addActivityLog_any a m w)
      as (w' & ok & earlier & H & Htr & Hok & _).
    exists w', ok, earlier. split; [done|]. split; [done|].
    intros Htrue. destruct (Hok Htrue) as (now & read & Hlog).
    by eapply log_capped_entry.
  - intros a m [s fs cl tr] d l. cbn [faults store clock].
    intros -> Hd Hl. eexists. cbn zeta.
    rewrite (addActivityLog_present _ _ _ d a m Hd).
    split; [reflexivity|]. reduce_world.
    rewrite Hl. reduce_world. split; [reflexivity|]. intros Hlen.
    destruct (exists_last (l := l)) as (kept & oldest & ->);
      [by intros ->|].
    rewrite length_app in Hlen. cbn in Hlen.
    exists kept, oldest. split; [done|].
    rewrite take_app_length' by lia. split; [done|]. cbn. lia.
Qed.

Lemma activity_log_never_exceeds_20_witness :
  let entry n := LogEntry "TASK_COMPLETED" "earlier" n in
  let l := map entry (seq_Z_list 20) in
  let w := mkWorld (mkStore (Some getDefaultTasks) (Some l) None None)
                   [] [1700000000000] [] in
  log_capped (store (run_calls [CallAddActivityLog "TASK_REOPENED" "latest";
                                CallToggleTaskCompletion "technical" 1] w))
  ∧ ∃ w', addActivityLog "TASK_REOPENED" "latest" w = (Ok tt, w')
      ∧ activity_log_doc (store w')
        = Some (LogEntry "TASK_REOPENED" "latest" 1700000000000
                  :: map entry (seq_Z_list 19)).
Proof.
  cbn zeta.
  destruct activity_log_never_exceeds_20 as (Hinv & _ & Hexact).
  split.
  - apply Hinv. intros l [= <-]. cbn. lia.
  - destruct (Hexact "TASK_REOPENED" "latest"
                (mkWorld (mkStore (Some getDefaultTasks)
                            (Some (map (LogEntry "TASK_COMPLETED" "earlier")
                                       (seq_Z_list 20))) None None)
                         [] [1700000000000] [])
                getDefaultTasks _ eq_refl eq_refl eq_refl)
      as (w' & H1 & H2 & _).
    exists w'. split; [exact H1|]. rewrite H2. reflexivity.
Defined.

(** ** The entry logged by a toggle *)

(** C6, as amended: the entry of a toggle has type TASK_COMPLETED and
    message [Completed task: <name> in <category>] when the new flag is
    true, TASK_REOPENED and [Reopened task: <name> in <category>] when it is
    false; a toggle of a stored task without storage failures puts exactly
    this entry at the head of the log, before the first 19 entries found;
    whatever the store does, a toggle that returns ends with the write of
    the log, which leaves this entry at the head of the log when it returns
    and adds no entry when it raises. *)
Theorem toggleTaskCompletion_logs_transition (category : string) (taskId : Z) w :
  (∀ t now,
     toggle_entry t category now
     = if negb (completed t)
       then LogEntry "TASK_COMPLETED"
              ("Completed task: " +:+ name t +:+ " in " +:+ category) now
       else LogEntry "TASK_REOPENED"
              ("Reopened task: " +:+ name t +:+ " in " +:+ category) now)
  ∧ (∀ d t,
       faults w = [] →
       tasks_doc (store w) = Some d →
       find_task d category taskId = Some t →
       ∃ w' t',
         toggleTaskCompletion category taskId w
         = (Ok (toggled d category taskId), w')
         ∧ find_task (toggled d category taskId) category taskId = Some t'
         ∧ completed t' = negb (completed t)
         ∧ activity_log_doc (store w')
           = Some (toggle_entry t category (hd 0 (clock w))
                     :: take 19 (default [] (activity_log_doc (store w)))))
  ∧ (∀ updated w',
       toggleTaskCompletion category taskId w = (Ok updated, w') →
       ∃ read t write_ok earlier,
         (tasks_doc (store w) = Some read ∨ read = getDefaultTasks)
         ∧ find_task read category taskId = Some t
         ∧ updated = toggled read category taskId
         ∧ trace w' = ev OpSet ACTIVITY_LOG_KEY write_ok :: earlier
         ∧ (write_ok = true →
              ∃ now older,
                activity_log_doc (store w')
                = Some (toggle_entry t category now :: take 19 older))
         ∧ (write_ok = false →
              activity_log_doc (store w') = activity_log_doc (store w)
              ∨ ∃ now, activity_log_doc (store w')
                       = Some [initial_log_entry now])).
Proof.
  split; [|split].
  - intros t now. unfold toggle_entry. by destruct (completed t).
  - intros d t Hfs Hd Hf. destruct w as [s fs cl tr]. cbn in Hfs, Hd |- *.
    subst fs. pose proof (find_task_Some _ _ _ _ Hf) as (l & _ & _ & Hid).
    eexists _, (toggle_if taskId t).
    rewrite (toggle_run_found _ _ _ _ _ _ _ Hd Hf).
    split; [reflexivity|]. split; [by apply find_task_toggled|].
    split; [by rewrite (toggle_if_hit _ _ Hid)|]. reflexivity.
  - intros updated w' Hrun.
    destruct (toggleTaskCompletion_any category taskId w)
      as (r & w'' & Hrun' & _ & H).
    rewrite Hrun in Hrun'. injection Hrun' as <- <-.
    destruct (H updated eq_refl)
      as (read & t & ok & earlier & H1 & H2 & H3 & _ & H5 & H6 & H7).
    by exists read, t, ok, earlier.
Qed.

(** The scenario of the specification: the first technical task of the
    default catalog is completed. *)
Lemma toggleTaskCompletion_logs_transition_witness :
  let w := mkWorld (mkStore (Some getDefaultTasks) (Some []) None None)
                   [] [1700000000000] [] in
  ∃ w', toggleTaskCompletion "technical" 1 w
        = (Ok (toggled getDefaultTasks "technical" 1), w')
    ∧ activity_log_doc (store w')
      = Some [LogEntry "TASK_COMPLETED"
                "Completed task: Configure robots.txt in technical"
                1700000000000].
Proof.
  cbn zeta.
  destruct (toggleTaskCompletion_logs_transition "technical" 1
              (mkWorld (mkStore (Some getDefaultTasks) (Some []) None None)
                       [] [1700000000000] [])) as (_ & H & _).
  destruct (H getDefaultTasks
              (mkTask 1 "Configure robots.txt" false "Frontend Developer"
                 "Tells search engines which pages to crawl and which to ignore. Improves crawl efficiency and prevents indexing of sensitive or duplicate content. Directly impacts which pages appear in search results.")
              eq_refl eq_refl eq_refl) as (w' & t' & H1 & _ & _ & H2).
  exists w'. split; [exact H1|]. rewrite H2. reflexivity.
Defined.

(** A toggle whose reads and write of the catalog return and whose write
    of the log raises. *)
Lemma toggleTaskCompletion_log_write_fails
    s cl tr d (category : string) (taskId : Z) t (b0 b1 b2 : bool) fs :
  tasks_doc s = Some d →
  find_task d category taskId = Some t →
  toggleTaskCompletion category taskId
    (mkWorld s (b0 :: false :: false :: b1 :: b2 :: true :: fs) cl tr)
  = (Ok (toggled d category taskId),
     mkWorld (store_set TASKS_KEY (toggled d category taskId) s) fs (tail cl)
       (ev OpSet ACTIVITY_LOG_KEY false
          :: ev OpGet ACTIVITY_LOG_KEY (negb b2)
          :: ev OpExists TASKS_KEY (negb b1)
          :: ev OpSet TASKS_KEY true
          :: ev OpGet TASKS_KEY true
          :: ev OpExists TASKS_KEY (negb b0) :: tr)).
Proof.
  destruct s as [td ld sd idoc]. cbn. intros -> Hf.
  destruct b0, b1, b2; run_action; rewrite Hf; reflexivity.
Qed.

(** C6 as stated fails when the write of the log raises: the toggle
    returns the updated catalog and the log has gained no entry. *)
Lemma toggleTaskCompletion_log_failure_counterexample :
  let w := mkWorld (mkStore (Some getDefaultTasks) (Some []) None None)
                   [false; false; false; false; false; true]
                   [1700000000000] [] in
  ∃ w', toggleTaskCompletion "technical" 1 w
        = (Ok (toggled getDefaultTasks "technical" 1), w')
    ∧ activity_log_doc (store w) = Some []
    ∧ activity_log_doc (store w') = Some []
    ∧ head (trace w') = Some (ev OpSet ACTIVITY_LOG_KEY false).
Proof.
  cbn zeta. eexists.
  split; [by eapply toggleTaskCompletion_log_write_fails|].
  split; [reflexivity|]. split; reflexivity.
Qed.

(** A toggle whose last store call is a write of the log that raised has
    returned: it found the task in the catalog it read and has stored the
    updated catalog, and the log is the one found, or the one seeded by the
    call when no catalog was stored. *)
Lemma toggleTaskCompletion_after_failed_log_write
    (category : string) (taskId : Z) w r w' :
  toggleTaskCompletion category taskId w = (r, w') →
  head (trace w') = Some (ev OpSet ACTIVITY_LOG_KEY false) →
  ∃ read t,
    r = Ok (toggled read category taskId)
    ∧ (tasks_doc (store w) = Some read ∨ read = getDefaultTasks)
    ∧ find_task read category taskId = Some t
    ∧ tasks_doc (store w') = Some (toggled read category taskId)
    ∧ (activity_log_doc (store w') = activity_log_doc (store w)
       ∨ tasks_doc (store w) = None
         ∧ ∃ now, activity_log_doc (store w') = Some [initial_log_entry now]).
Proof.
  unfold toggleTaskCompletion, try_catch, mbind, Action_bind.
  destruct (getTasks_any w)
    as (read & w1 & read_ok & tr1 & Hget & Htr1 & Hraised & Hread & Hnone
        & Hsome & _).
  destruct (initializeRedisData_any w) as (wi & Hinit & _ & Hlogi & _).
  assert (activity_log_doc (store w1) = activity_log_doc (store w)
          ∨ tasks_doc (store w) = None
            ∧ ∃ now, activity_log_doc (store w1) = Some [initial_log_entry now])
    as Hlog1.
  { revert Hget. unfold getTasks, try_catch, mbind, Action_bind.
    rewrite Hinit. unfold redis_get, redis_call, mret, Action_ret.
    destruct (head (faults wi)) as [[]|]; intros [= _ <-]; cbn;
      destruct Hlogi as [?|(? & ?)]; eauto. }
  assert (tasks_doc (store w) = Some read ∨ read = getDefaultTasks) as Hsrc.
  { destruct (tasks_doc (store w)) as [d|] eqn:Hd; [|right; by apply Hnone].
    destruct (Hsome d eq_refl) as (_ & Hd' & _).
    destruct read_ok; [left; by rewrite (Hd' eq_refl)|].
    right. by apply Hraised. }
  rewrite Hget.
  destruct (find_task read category taskId) as [t|] eqn:Hf.
  2:{ intros [= <- <-]. by rewrite Htr1. }
  unfold redis_set at 1. unfold redis_call at 1.
  destruct (head (faults w1)) as [[]|] eqn:Hhead.
  { by intros [= <- <-]. }
  all: match goal with
       | |- context [addActivityLog ?a ?m ?w2] =>
           destruct (addActivityLog_any a m w2)
             as (w3 & write_ok & earlier & Hadd & Htr & _ & _ & Hkeep);
           rewrite Hadd
       end.
  all: unfold mret, Action_ret.
  all: intros [= <- <-]; rewrite Htr; intros [= ->].
  all: destruct (Hkeep _ eq_refl) as [Hupd Hstore].
  all: exists read, t.
  all: split; [reflexivity|]; split; [exact Hsrc|]; split; [exact Hf|].
  all: split; [exact Hupd|].
  all: rewrite (Hstore eq_refl); exact Hlog1.
Qed.

(** C10: [addActivityLog] never throws.  Whatever the store holds and does,
    a toggle that ends with a write of the log that raised has returned:
    it returns the catalog it read with the flag of the task negated and
    everything else as it was, this catalog is stored, and the log has
    gained no entry (it is the log found, or the record written by the
    seeding run of the call when no catalog was stored).  Such runs exist:
    with a stored catalog whose read and write return and a write of the
    log that raises, the toggle returns the updated stored catalog and
    leaves the log as found. *)
Theorem toggleTaskCompletion_survives_log_failure
    (category : string) (taskId : Z) w :
  (∀ action message w0, ∃ w0', addActivityLog action message w0 = (Ok tt, w0'))
  ∧ (∀ r w',
       toggleTaskCompletion category taskId w = (r, w') →
       head (trace w') = Some (ev OpSet ACTIVITY_LOG_KEY false) →
       ∃ read t t1,
         r = Ok (toggled read category taskId)
         ∧ (tasks_doc (store w) = Some read ∨ read = getDefaultTasks)
         ∧ find_task read category taskId = Some t
         ∧ find_task (toggled read category taskId) category taskId = Some t1
         ∧ completed t1 = negb (completed t)
         ∧ (id t1, name t1, responsible t1, description t1)
           = (id t, name t, responsible t, description t)
         ∧ (∀ c', c' ≠ category →
              toggled read category taskId !! c' = read !! c')
         ∧ (∀ l, read !! category = Some l →
              toggled read category taskId !! category
              = Some (map (toggle_if taskId) l)
              ∧ ∀ t', id t' ≠ taskId → toggle_if taskId t' = t')
         ∧ tasks_doc (store w') = Some (toggled read category taskId)
         ∧ (activity_log_doc (store w') = activity_log_doc (store w)
            ∨ tasks_doc (store w) = None
              ∧ ∃ now, activity_log_doc (store w')
                       = Some [initial_log_entry now]))
  ∧ (∀ d t,
       tasks_doc (store w) = Some d →
       find_task d category taskId = Some t →
       raises w 1 = false → raises w 2 = false → raises w 5 = true →
       ∃ w',
         toggleTaskCompletion category taskId w
         = (Ok (toggled d category taskId), w')
         ∧ head (trace w') = Some (ev OpSet ACTIVITY_LOG_KEY false)
         ∧ tasks_doc (store w') = Some (toggled d category taskId)
         ∧ activity_log_doc (store w') = activity_log_doc (store w)).
Proof.
  split; [|split].
  - intros a m w0.
    destruct (addActivityLog_any a m w0) as (w0' & _ & _ & H & _). by exists w0'.
  - intros r w' Hrun Hlast.
    destruct (toggleTaskCompletion_after_failed_log_write _ _ _ _ _ Hrun Hlast)
      as (read & t & Hr & Hsrc & Hf & Hstored & Hlog).
    pose proof (find_task_Some _ _ _ _ Hf) as (l & Hl & _ & Hid).
    exists read, t, (toggle_if taskId t).
    split; [exact Hr|]. split; [exact Hsrc|]. split; [exact Hf|].
    split; [by apply find_task_toggled|].
    rewrite (toggle_if_hit _ _ Hid). split; [reflexivity|].
    split; [reflexivity|].
    split; [intros c' Hc'; by apply toggled_lookup_ne|].
    split; [|by split].
    intros l' Hl'. split; [by apply toggled_lookup|]. apply toggle_if_other.
  - intros d t Hd Hf Hget Hset Hlog.
    pose proof (toggleTaskCompletion_stored w d category taskId t
                  Hd Hf Hget Hset) as Hrun.
    cbn zeta in Hrun. rewrite Hlog in Hrun. eexists. split; [exact Hrun|].
    split; [reflexivity|]. cbn [store]. by destruct (store w).
Qed.

Lemma toggleTaskCompletion_survives_log_failure_witness :
  let w := mkWorld (mkStore (Some getDefaultTasks) (Some []) None None)
                   [false; false; false; false; false; true]
                   [1700000000000] [] in
  ∃ w', toggleTaskCompletion "technical" 1 w
        = (Ok (toggled getDefaultTasks "technical" 1), w')
    ∧ tasks_doc (store w') = Some (toggled getDefaultTasks "technical" 1)
    ∧ activity_log_doc (store w') = Some [].
Proof.
  cbn zeta.
  destruct (toggleTaskCompletion_survives_log_failure "technical" 1
              (mkWorld (mkStore (Some getDefaultTasks) (Some []) None None)
                       [false; false; false; false; false; true]
                       [1700000000000] []))
    as (_ & Hany & Hstored).
  destruct (Hstored getDefaultTasks
              (mkTask 1 "Configure robots.txt" false "Frontend Developer"
                 "Tells search engines which pages to crawl and which to ignore. Improves crawl efficiency and prevents indexing of sensitive or duplicate content. Directly impacts which pages appear in search results.")
              eq_refl eq_refl eq_refl eq_refl eq_refl)
    as (w' & Hrun & Hlast & Hd & Hlog).
  destruct (Hany _ _ Hrun Hlast) as (read & t & t1 & _).
  exists w'. exact (conj Hrun (conj Hd Hlog)).
Defined.

(** * Further properties of the module *)

(** ** A program logic for the server actions *)

Section Hoare.

Context {A B : Type}.
Implicit Types (P E : Store → Prop).

Lemma hoare_ret P E (a : A) (Q : A → Store → Prop) :
  (∀ s, P s → Q a s) → hoare P (mret a) Q E.
Proof. intros H w Hw. by apply H. Qed.

Lemma hoare_throw P E (e : Error) (Q : A → Store → Prop) :
  (∀ s, P s → E s) → hoare P (throw e) Q E.
Proof. intros H w Hw. by apply H. Qed.

Lemma hoare_bind P E (m : Action A) (f : A → Action B)
    (Q : A → Store → Prop) (R : B → Store → Prop) :
  hoare P m Q E → (∀ a, hoare (Q a) (f a) R E) → hoare P (m ≫= f) R E.
Proof.
  intros Hm Hf w Hw. specialize (Hm w Hw).
  unfold mbind, Action_bind. destruct (m w) as [[a|e] w']; [|done].
  by apply Hf.
Qed.

Lemma hoare_try_catch P E E' (body : Action A) (handler : Error → Action A)
    (Q : A → Store → Prop) :
  hoare P body Q E' → (∀ e, hoare E' (handler e) Q E) →
  hoare P (try_catch body handler) Q E.
Proof.
  intros Hb Hh w Hw. specialize (Hb w Hw).
  unfold try_catch. destruct (body w) as [[a|e] w']; [done|].
  by apply Hh.
Qed.

Lemma hoare_await P (r : Result A) : hoare P (await r) (λ _, P) P.
Proof. intros w Hw. unfold await. by destruct r. Qed.

Lemma hoare_consequence P P' E E' (m : Action A) (Q Q' : A → Store → Prop) :
  hoare P' m Q' E' →
  (∀ s, P s → P' s) → (∀ a s, Q' a s → Q a s) → (∀ s, E' s → E s) →
  hoare P m Q E.
Proof.
  intros Hm HP HQ HE w Hw. specialize (Hm w (HP _ Hw)).
  destruct (m w) as [[a|e] w']; auto.
Qed.

Lemma hoare_redis_call P E (op : Op) (key : string) (run : Store → A * Store)
    (Q : A → Store → Prop) :
  (∀ s, P s → Q (run s).1 (run s).2) → (∀ s, P s → E s) →
  hoare P (redis_call op key run) Q E.
Proof.
  intros HQ HE w Hw. unfold redis_call.
  destruct (head (faults w)) as [[]|]; [by apply HE| |];
    specialize (HQ _ Hw); by destruct (run (store w)).
Qed.

End Hoare.

Section HoareStore.

Context {A : Type}.
Implicit Types (P E : Store → Prop) (k : Key A).

Lemma hoare_redis_exists P E k (Q : bool → Store → Prop) :
  (∀ s, P s → Q (isSome (store_get k s)) s) → (∀ s, P s → E s) →
  hoare P (redis_exists k) Q E.
Proof. intros. by apply hoare_redis_call. Qed.

Lemma hoare_redis_get P E k (Q : option A → Store → Prop) :
  (∀ s, P s → Q (store_get k s) s) → (∀ s, P s → E s) →
  hoare P (redis_get k) Q E.
Proof. intros. by apply hoare_redis_call. Qed.

Lemma hoare_redis_set P E k (v : A) (Q : unit → Store → Prop) :
  (∀ s, P s → Q tt (store_set k v s)) → (∀ s, P s → E s) →
  hoare P (redis_set k v) Q E.
Proof. intros. by apply hoare_redis_call. Qed.

End HoareStore.

Lemma hoare_Date_now P E (Q : Z → Store → Prop) :
  (∀ t s, P s → Q t s) → hoare P Date_now Q E.
Proof. intros H w Hw. by apply H. Qed.

Lemma hoare_Date_toISOString P E (Q : ISOString → Store → Prop) :
  (∀ t s, P s → Q t s) → hoare P Date_toISOString Q E.
Proof. intros H w Hw. by apply H. Qed.

(** ** Invariants of the store *)

(** A predicate on stores kept by the four writes of a seeding run is kept
    by [initializeRedisData], whatever the store calls do. *)
Section Seeding.

Variable I : Store → Prop.

Hypothesis seed_tasks :
  ∀ s, I s → tasks_doc s = None → I (store_set TASKS_KEY getDefaultTasks s).
Hypothesis seed_log :
  ∀ s now, I s → I (store_set ACTIVITY_LOG_KEY [initial_log_entry now] s).
Hypothesis seed_score :
  ∀ s now, I s → I (store_set SEO_SCORE_KEY (initial_seo_score now) s).
Hypothesis seed_integrations :
  ∀ s, I s → I (store_set INTEGRATION_STATUS_KEY initial_integration_status s).

Lemma initializeRedisData_invariant :
  hoare I initializeRedisData (λ _, I) I.
Proof.
  unfold initializeRedisData.
  eapply hoare_try_catch with (E' := I); [|intros e; by apply hoare_ret].
  eapply hoare_bind with (Q := λ a s, I s ∧ a = isSome (tasks_doc s));
    [by apply hoare_redis_exists|].
  intros a. destruct a; cbn [negb].
  { apply hoare_ret. by intros s [Hs _]. }
  eapply hoare_bind with (Q := λ _, I).
  { apply hoare_redis_set; [|by intros s [Hs _]].
    intros s [Hs Ha]. apply seed_tasks; [done|]. by destruct (tasks_doc s). }
  intros ?. eapply hoare_bind with (Q := λ _, I);
    [by apply hoare_Date_toISOString|]. intros t1.
  eapply hoare_bind with (Q := λ _, I);
    [apply hoare_redis_set; [intros; by apply seed_log|done]|].
  intros ?. eapply hoare_bind with (Q := λ _, I);
    [by apply hoare_Date_toISOString|]. intros t2.
  eapply hoare_bind with (Q := λ _, I);
    [apply hoare_redis_set; [intros; by apply seed_score|done]|].
  intros ?. apply hoare_redis_set; [intros; by apply seed_integrations|done].
Qed.

End Seeding.

(** A predicate on stores that says a catalog is stored is kept by
    [initializeRedisData], which then writes nothing. *)
Lemma initializeRedisData_present_invariant (I : Store → Prop) :
  (∀ s, I s → isSome (tasks_doc s) = true) →
  hoare I initializeRedisData (λ _, I) I.
Proof.
  intros Hpresent.
  unfold initializeRedisData.
  eapply hoare_try_catch with (E' := I); [|intros e; by apply hoare_ret].
  eapply hoare_bind with (Q := λ a s, I s ∧ a = true).
  { apply hoare_redis_exists; [|done]. intros s Hs. split; [done|].
    by apply Hpresent. }
  intros a. eapply hoare_consequence with (P' := λ s, I s ∧ a = true)
    (Q' := λ _, I) (E' := I); [|done|done|done].
  intros w [Hw ->]. done.
Qed.

(** A predicate on stores kept by [initializeRedisData] and by every other
    write of the module is kept by every server action, whatever the store
    calls do.  [D] is what the predicate says of a stored catalog. *)
Section Invariant.

Variables (I : Store → Prop) (D : TasksState → Prop).

Hypothesis initialize :
  hoare I initializeRedisData (λ _, I) I.
Hypothesis append_log :
  ∀ s action message now read,
    I s →
    I (store_set ACTIVITY_LOG_KEY
         (LogEntry action message now :: take 19 read) s).
Hypothesis fallback_score :
  ∀ s now, I s → I (store_set SEO_SCORE_KEY (default_seo_score now) s).
Hypothesis fallback_integrations :
  ∀ s, I s → I (store_set INTEGRATION_STATUS_KEY default_integration_status s).
Hypothesis stored_catalog : ∀ s d, I s → tasks_doc s = Some d → D d.
Hypothesis default_catalog : D getDefaultTasks.
Hypothesis toggle_catalog :
  ∀ s d category taskId t,
    I s → D d → find_task d category taskId = Some t →
    I (store_set TASKS_KEY (toggled d category taskId) s).

Lemma getTasks_invariant :
  hoare I getTasks (λ d s, I s ∧ D d) I.
Proof.
  unfold getTasks.
  eapply hoare_try_catch with (E' := I); [|intros e; by apply hoare_ret].
  eapply hoare_bind; [apply initialize|]. intros ?.
  eapply hoare_bind with (Q := λ o s, I s ∧ ∀ d, o = Some d → D d).
  { apply hoare_redis_get; [|done]. intros s Hs. split; [done|].
    intros d Hd. by eapply stored_catalog. }
  intros [d|]; apply hoare_ret; intros s [Hs Hd]; split; auto.
Qed.

Lemma getActivityLog_invariant :
  hoare I getActivityLog (λ _, I) I.
Proof.
  unfold getActivityLog.
  eapply hoare_try_catch with (E' := I); [|intros e; by apply hoare_ret].
  eapply hoare_bind; [apply initialize|]. intros ?.
  eapply hoare_bind with (Q := λ _, I); [by apply hoare_redis_get|].
  intros o. by apply hoare_ret.
Qed.

Lemma addActivityLog_invariant action message :
  hoare I (addActivityLog action message) (λ _, I) I.
Proof.
  unfold addActivityLog.
  eapply hoare_try_catch with (E' := I); [|intros e; by apply hoare_ret].
  eapply hoare_bind; [apply getActivityLog_invariant|]. intros log.
  eapply hoare_bind with (Q := λ _, I); [by apply hoare_Date_now|]. intros now.
  apply hoare_redis_set; [intros; by apply append_log|done].
Qed.

Lemma getSEOScore_invariant :
  hoare I getSEOScore (λ _, I) I.
Proof.
  unfold getSEOScore.
  eapply hoare_try_catch with (E' := I).
  2:{ intros e. eapply hoare_bind with (Q := λ _, I);
        [by apply hoare_Date_toISOString|]. intros t. by apply hoare_ret. }
  eapply hoare_bind; [apply initialize|]. intros ?.
  eapply hoare_bind with (Q := λ _, I); [by apply hoare_redis_get|].
  intros o. cbn zeta. destruct (truthy (default JNull o)); [by apply hoare_ret|].
  eapply hoare_bind with (Q := λ _, I);
    [by apply hoare_Date_toISOString|]. intros t.
  eapply hoare_bind with (Q := λ _, I);
    [apply hoare_redis_set; [intros; by apply fallback_score|done]|].
  intros ?. by apply hoare_ret.
Qed.

Lemma getIntegrationStatus_invariant :
  hoare I getIntegrationStatus (λ _, I) I.
Proof.
  unfold getIntegrationStatus.
  eapply hoare_try_catch with (E' := I); [|intros e; by apply hoare_ret].
  eapply hoare_bind; [apply initialize|]. intros ?.
  eapply hoare_bind with (Q := λ _, I); [by apply hoare_redis_get|].
  intros o. cbn zeta. destruct (truthy (default JNull o)); [by apply hoare_ret|].
  eapply hoare_bind with (Q := λ _, I);
    [apply hoare_redis_set; [intros; by apply fallback_integrations|done]|].
  intros ?. by apply hoare_ret.
Qed.

Lemma toggleTaskCompletion_invariant category taskId :
  hoare I (toggleTaskCompletion category taskId) (λ _, I) I.
Proof.
  unfold toggleTaskCompletion.
  eapply hoare_try_catch with (E' := I); [|intros e; by apply hoare_throw].
  eapply hoare_bind; [apply getTasks_invariant|]. intros d.
  destruct (find_task d category taskId) as [t|] eqn:Hf;
    [|apply hoare_throw; by intros s [Hs _]].
  eapply hoare_bind with (Q := λ _, I).
  { apply hoare_redis_set; [|by intros s [Hs _]].
    intros s [Hs Hd]. by eapply toggle_catalog. }
  intros ?. eapply hoare_bind; [apply addActivityLog_invariant|].
  intros ?. by apply hoare_ret.
Qed.

Lemma Home_invariant : hoare I Home (λ _, I) I.
Proof.
  unfold Home.
  eapply hoare_bind with (Q := λ _, I).
  { eapply hoare_consequence; [apply getTasks_invariant|done| |done].
    by intros d s [Hs _]. }
  intros tasks. eapply hoare_bind; [apply getActivityLog_invariant|].
  intros log. eapply hoare_bind; [apply getSEOScore_invariant|].
  intros score. eapply hoare_bind; [apply getIntegrationStatus_invariant|].
  intros status. eapply hoare_bind; [apply hoare_await|].
  intros completions. by apply hoare_ret.
Qed.

Lemma serve_invariant r w : I (store w) → I (store (serve r w)).
Proof.
  intros Hw.
  destruct r as [| | |a m| | |c i|]; unfold serve.
  - pose proof (initialize w Hw) as H.
    by destruct (initializeRedisData w) as [[]].
  - pose proof (getTasks_invariant w Hw) as H.
    destruct (getTasks w) as [[]]; [by destruct H|done].
  - pose proof (getActivityLog_invariant w Hw) as H.
    by destruct (getActivityLog w) as [[]].
  - pose proof (addActivityLog_invariant a m w Hw) as H.
    by destruct (addActivityLog a m w) as [[]].
  - pose proof (getSEOScore_invariant w Hw) as H.
    by destruct (getSEOScore w) as [[]].
  - pose proof (getIntegrationStatus_invariant w Hw) as H.
    by destruct (getIntegrationStatus w) as [[]].
  - pose proof (toggleTaskCompletion_invariant c i w Hw) as H.
    by destruct (toggleTaskCompletion c i w) as [[]].
  - pose proof (Home_invariant w Hw) as H.
    by destruct (Home w) as [[]].
Qed.

Lemma serve_all_invariant rs w : I (store w) → I (store (serve_all rs w)).
Proof.
  revert w. induction rs as [|r rs IH]; intros w Hw; [done|].
  cbn. apply IH. by apply serve_invariant.
Qed.

End Invariant.

(** ** What a toggle changes in a document *)

Lemma task_identity_toggle_if i t :
  task_identity (toggle_if i t) = task_identity t.
Proof. unfold toggle_if, task_identity. by destruct (id t =? i). Qed.

Lemma completed_toggle_if i t :
  completed (toggle_if i t)
  = if id t =? i then negb (completed t) else completed t.
Proof. unfold toggle_if. by destruct (id t =? i). Qed.

Lemma shape_toggled d (c : string) i l :
  d !! c = Some l → shape (toggled d c i) = shape d.
Proof.
  intros Hl. unfold shape, toggled. rewrite Hl. cbn.
  rewrite fmap_insert, map_map.
  rewrite (map_ext _ task_identity)
    by (intros t; apply task_identity_toggle_if).
  apply insert_id. by rewrite lookup_fmap, Hl.
Qed.

(** X1: the document written by a toggle differs from the one read in
    completion flags only: the same categories, every other category
    untouched, and in the toggled category the same tasks in the same order,
    a task's flag being negated exactly when its id is the one given (every
    task with that id, if several have it). *)
Theorem toggled_only_flips_flags d (category : string) (taskId : Z) l :
  d !! category = Some l →
  dom (toggled d category taskId) = dom d
  ∧ shape (toggled d category taskId) = shape d
  ∧ (∀ c', c' ≠ category → toggled d category taskId !! c' = d !! c')
  ∧ ∃ l', toggled d category taskId !! category = Some l'
      ∧ length l' = length l
      ∧ ∀ (j : nat) t, l !! j = Some t →
          ∃ t', l' !! j = Some t'
            ∧ task_identity t' = task_identity t
            ∧ completed t'
              = if id t =? taskId then negb (completed t) else completed t.
Proof.
  intros Hl. split; [|split; [|split]].
  - unfold toggled.
    apply dom_insert_lookup_L. eauto.
  - by apply shape_toggled with l.
  - intros c' Hc'. by apply toggled_lookup_ne.
  - exists (map (toggle_if taskId) l). split; [by apply toggled_lookup|].
    split; [apply length_map|]. intros j t Hj.
    exists (toggle_if taskId t). split.
    + change (map (toggle_if taskId) l) with (toggle_if taskId <$> l).
      by rewrite list_lookup_fmap, Hj.
    + split; [apply task_identity_toggle_if|apply completed_toggle_if].
Qed.

Lemma toggled_only_flips_flags_witness :
  shape (toggled getDefaultTasks "technical" 1) = shape getDefaultTasks
  ∧ dom (toggled getDefaultTasks "technical" 1) = dom getDefaultTasks.
Proof.
  destruct (toggled_only_flips_flags getDefaultTasks "technical" 1
              default_technical eq_refl) as (H1 & H2 & _).
  exact (conj H2 H1).
Defined.

(** ** Counts and percentages after a toggle *)

Lemma map_toggle_if_absent i l :
  Forall (λ t, id t ≠ i) l → map (toggle_if i) l = l.
Proof.
  induction 1 as [|t l Ht _ IH]; [done|].
  cbn. by rewrite IH, toggle_if_other.
Qed.

Lemma completedCount_cons t l :
  completedCount (t :: l)
  = ((if completed t then 1 else 0) + completedCount l)%nat.
Proof.
  unfold completedCount. rewrite filter_cons.
  destruct (completed t); by case_decide.
Qed.

Lemma completedCount_toggle l i t :
  NoDup (id <$> l) →
  List.find (λ t, id t =? i) l = Some t →
  (completedCount (map (toggle_if i) l) + (if completed t then 1 else 0)
   = completedCount l + (if completed t then 0 else 1))%nat.
Proof.
  induction l as [|h l IH]; [done|].
  rewrite fmap_cons, NoDup_cons. intros [Hh Hnd]. cbn [List.find map].
  destruct (id h =? i) eqn:E.
  - intros [= ->]. apply Z.eqb_eq in E.
    rewrite map_toggle_if_absent.
    2:{ apply Forall_forall. intros t' Ht' Heq. apply Hh.
        apply list_elem_of_fmap. exists t'. split; [congruence|done]. }
    rewrite (toggle_if_hit _ _ E), !completedCount_cons. cbn.
    destruct (completed t); cbn; lia.
  - intros Hf. specialize (IH Hnd Hf).
    apply Z.eqb_neq in E. rewrite (toggle_if_other _ _ E).
    rewrite !completedCount_cons. lia.
Qed.

Lemma Object_values_insert_present d (c : string) (l l' : list Task) :
  d !! c = Some l →
  Object_values d ≡ₚ l :: Object_values (delete c d)
  ∧ Object_values (<[c := l']> d) ≡ₚ l' :: Object_values (delete c d).
Proof.
  intros Hl. split.
  - rewrite <- (insert_delete_id d c l Hl) at 1.
    apply Object_values_insert. apply lookup_delete_eq.
  - rewrite <- insert_delete_eq.
    apply Object_values_insert. apply lookup_delete_eq.
Qed.

(** The counts of a document after a toggle. *)
Lemma toggled_counts_core d (category : string) (taskId : Z) l t :
  d !! category = Some l →
  NoDup (id <$> l) →
  find_task d category taskId = Some t →
  let step_up := if completed t then 0%nat else 1%nat in
  let step_down := if completed t then 1%nat else 0%nat in
  ∃ l', toggled d category taskId !! category = Some l'
    ∧ length l' = length l
    ∧ (completedCount l' + step_down = completedCount l + step_up)%nat
    ∧ totalTasks (toggled d category taskId) = totalTasks d
    ∧ (totalCompleted (toggled d category taskId) + step_down
       = totalCompleted d + step_up)%nat.
Proof.
  intros Hl Hnd Hf. cbn zeta.
  assert (List.find (λ t, id t =? taskId) l = Some t) as Hfind.
  { unfold find_task in Hf. by rewrite Hl in Hf. }
  pose proof (completedCount_toggle _ _ _ Hnd Hfind) as Hcount.
  exists (map (toggle_if taskId) l).
  split; [by apply toggled_lookup|]. split; [apply length_map|].
  split; [exact Hcount|].
  destruct (Object_values_insert_present d category l
              (map (toggle_if taskId) l) Hl) as [Hd Hd'].
  unfold toggled. rewrite Hl. cbn [fmap option_fmap option_map from_option].
  unfold totalTasks, totalCompleted. rewrite Hd, Hd'. cbn.
  rewrite length_map. split; lia.
Qed.

(** X2: when the ids of the toggled category are pairwise distinct, a
    toggle changes the number of completed tasks of the category, and of the
    whole document, by exactly one, up for a task that was open and down for
    a task that was completed; the numbers of tasks do not change. *)
Theorem toggled_counts d (category : string) (taskId : Z) l t :
  d !! category = Some l →
  NoDup (id <$> l) →
  find_task d category taskId = Some t →
  let step_up := if completed t then 0%nat else 1%nat in
  let step_down := if completed t then 1%nat else 0%nat in
  ∃ l', toggled d category taskId !! category = Some l'
    ∧ length l' = length l
    ∧ (completedCount l' + step_down = completedCount l + step_up)%nat
    ∧ totalTasks (toggled d category taskId) = totalTasks d
    ∧ (totalCompleted (toggled d category taskId) + step_down
       = totalCompleted d + step_up)%nat.
Proof. apply toggled_counts_core. Qed.

Lemma toggled_counts_witness :
  totalCompleted (toggled getDefaultTasks "technical" 1) = 1%nat
  ∧ totalTasks (toggled getDefaultTasks "technical" 1) = 82%nat.
Proof.
  destruct (toggled_counts getDefaultTasks "technical" 1 default_technical
              (mkTask 1 "Configure robots.txt" false "Frontend Developer"
                 "Tells search engines which pages to crawl and which to ignore. Improves crawl efficiency and prevents indexing of sensitive or duplicate content. Directly impacts which pages appear in search results.")
              eq_refl)
    as (l' & _ & _ & _ & Htotal & Hcompleted).
  - apply (bool_decide_unpack _). vm_compute. exact I.
  - reflexivity.
  - cbn [completed] in Hcompleted. split.
    + replace (totalCompleted getDefaultTasks) with 0%nat in Hcompleted
        by (vm_compute; reflexivity). lia.
    + rewrite Htotal. vm_compute. reflexivity.
Defined.

Lemma rising_upto_100 : all_pairs_upto rising 100 = true.
Proof. vm_cast_no_check (eq_refl true). Qed.

Lemma endpoints_upto_100 : all_pairs_upto endpoints 100 = true.
Proof. vm_cast_no_check (eq_refl true). Qed.

Lemma Number_truthy_upto_100 : Number_truthy_upto 100 = true.
Proof. vm_cast_no_check (eq_refl true). Qed.

Lemma Number_truthy_100 (r : Z) :
  0 < r ≤ 100 → number_truthy (Number r) = true.
Proof.
  intros Hr. pose proof Number_truthy_upto_100 as H.
  unfold Number_truthy_upto in H. rewrite forallb_forall in H.
  specialize (H (Z.to_nat r) ltac:(apply in_seq; lia)).
  by rewrite Z2Nat.id in H by lia.
Qed.

Lemma round_half_up_percent_step (k n : Z) :
  0 ≤ k → 0 < n ≤ 100 →
  round_half_up_percent k n + 1 ≤ round_half_up_percent (k + 1) n.
Proof.
  intros Hk Hn. unfold round_half_up_percent.
  rewrite <- (Z.div_add (200 * k + n) 1 (2 * n)) by lia.
  apply Z.div_le_mono; lia.
Qed.

Lemma percentage_rises (k n : nat) :
  (0 < n ≤ 100)%nat → (k < n)%nat →
  ∃ r r' : Z, percentage k n = Number r ∧ percentage (S k) n = Number r'
    ∧ 0 ≤ r < r' ∧ r' ≤ 100.
Proof.
  intros Hn Hk.
  destruct (percentage_medium k n Hn ltac:(lia)) as (r & Hr & Hr100 & Hrx).
  destruct (percentage_medium (S k) n Hn ltac:(lia)) as (r' & Hr' & Hr'100 & Hrx').
  pose proof (round_half_up_percent_step (Z.of_nat k) (Z.of_nat n)
                ltac:(lia) ltac:(lia)) as Hstep.
  replace (Z.of_nat k + 1) with (Z.of_nat (S k)) in Hstep by lia.
  pose proof (all_pairs_upto_spec _ _ k n rising_upto_100 Hn ltac:(lia)) as Hne.
  unfold rising in Hne. apply orb_true_iff in Hne as [Hne|Hne];
    [apply Nat.leb_le in Hne; lia|].
  apply negb_true_iff, bool_decide_eq_false in Hne.
  exists r, r'. split; [done|]. split; [done|].
  assert (r ≠ r') by (intros ->; congruence).
  destruct Hrx as [->|[_ ->]], Hrx' as [->|[_ ->]]; lia.
Qed.

Lemma percentage_endpoints (k n : nat) :
  (0 < n ≤ 100)%nat → (k ≤ n)%nat →
  (percentage k n = Number 100 ↔ k = n)
  ∧ (percentage k n = Number 0 ↔ k = 0%nat).
Proof.
  intros Hn Hk.
  pose proof (all_pairs_upto_spec _ _ k n endpoints_upto_100 Hn Hk) as H.
  unfold endpoints in H. apply andb_true_iff in H as [H100 H0].
  apply eqb_prop in H100, H0. split.
  - by rewrite <- Nat.eqb_eq, <- H100, bool_decide_eq_true.
  - by rewrite <- Nat.eqb_eq, <- H0, bool_decide_eq_true.
Qed.

(** X3: in a category of at most 100 tasks with pairwise distinct ids,
    completing an open task strictly raises the category's percentage and
    reopening a completed task strictly lowers it. *)
Theorem toggled_percentage d (category : string) (taskId : Z) l t :
  d !! category = Some l →
  (length l ≤ 100)%nat →
  NoDup (id <$> l) →
  find_task d category taskId = Some t →
  ∃ before after : Z,
    calculateCompletion (Some d) category = Ok (Number before)
    ∧ calculateCompletion (Some (toggled d category taskId)) category
      = Ok (Number after)
    ∧ 0 ≤ before ≤ 100 ∧ 0 ≤ after ≤ 100
    ∧ if completed t then after < before else before < after.
Proof.
  intros Hl Hlen Hnd Hf.
  destruct (toggled_counts_core d category taskId l t Hl Hnd Hf)
    as (l' & Hl' & Hlen' & Hcount & _).
  pose proof (completedCount_le l) as Hle.
  pose proof (completedCount_le l') as Hle'.
  assert (l ≠ []) as Hne.
  { intros ->. unfold find_task in Hf. by rewrite Hl in Hf. }
  assert (0 < length l)%nat by (destruct l; [done|cbn; lia]).
  rewrite (calculateCompletion_own _ _ _ Hl), (calculateCompletion_own _ _ _ Hl'),
    Hlen'.
  destruct (completed t).
  - assert (completedCount l = S (completedCount l')) as -> by lia.
    destruct (percentage_rises (completedCount l') (length l))
      as (r & r' & Hr & Hr' & ? & ?); [lia|lia|].
    exists r', r. rewrite Hr, Hr'. repeat split; try done; lia.
  - assert (completedCount l' = S (completedCount l)) as -> by lia.
    destruct (percentage_rises (completedCount l) (length l))
      as (r & r' & Hr & Hr' & ? & ?); [lia|lia|].
    exists r, r'. rewrite Hr, Hr'. repeat split; try done; lia.
Qed.

Lemma toggled_percentage_witness :
  ∃ after : Z,
    calculateCompletion (Some getDefaultTasks) "technical" = Ok (Number 0)
    ∧ calculateCompletion (Some (toggled getDefaultTasks "technical" 1))
        "technical" = Ok (Number after)
    ∧ 0 < after.
Proof.
  destruct (toggled_percentage getDefaultTasks "technical" 1 default_technical
              (mkTask 1 "Configure robots.txt" false "Frontend Developer"
                 "Tells search engines which pages to crawl and which to ignore. Improves crawl efficiency and prevents indexing of sensitive or duplicate content. Directly impacts which pages appear in search results.")
              eq_refl)
    as (before & after & Hb & Ha & Hb100 & Ha100 & Hlt).
  - vm_compute. lia.
  - apply (bool_decide_unpack _). vm_compute. exact I.
  - reflexivity.
  - cbn [completed] in Hlt. exists after.
    split; [vm_compute; reflexivity|]. split; [exact Ha|lia].
Defined.

(** ** The completion figures of the page and of the dashboard *)

Lemma elem_of_Object_keys {V} (o : gmap string V) (c : string) :
  c ∈ Object_keys o ↔ is_Some (o !! c).
Proof.
  unfold Object_keys. rewrite list_elem_of_fmap. split.
  - intros ([c' v] & -> & Hin). apply elem_of_map_to_list in Hin. eauto.
  - intros [v Hv]. exists (c, v). split; [done|].
    by apply elem_of_map_to_list.
Qed.

(** The loop of the completion figures, from any record and over any list
    of own keys: it returns, and the record it leaves differs from the one
    found on the keys of the list other than [__proto__]. *)
Lemma categoryCompletions_loop tasks (keys : list string) :
  (∀ k, k ∈ keys → is_Some (tasks !! k)) →
  ∀ acc : gmap string number,
  ∃ completions,
    foldl (λ (loop : Result (gmap string number)) category,
             completions ← loop;
             value ← calculateCompletion (Some tasks) category;
             mret (set_property completions category value))
          (Ok acc) keys
    = Ok completions
    ∧ ∀ c : string,
        completions !! c
        = if decide (c ∈ keys ∧ c ≠ "__proto__")
          then (λ l, percentage (completedCount l) (length l)) <$> tasks !! c
          else acc !! c.
Proof.
  induction keys as [|k keys IH]; intros Hown acc.
  - exists acc. split; [done|]. intros c.
    rewrite decide_False; [done|]. intros [H _]. by apply elem_of_nil in H.
  - destruct (Hown k ltac:(by left)) as [l Hl].
    cbn [foldl]. rewrite (calculateCompletion_own _ _ _ Hl).
    change (Ok acc ≫= _) with (Ok (set_property acc k
              (percentage (completedCount l) (length l)))
            : Result (gmap string number)).
    destruct (IH ltac:(intros; apply Hown; by right)
                (set_property acc k (percentage (completedCount l) (length l))))
      as (completions & -> & Hlookup).
    exists completions. split; [done|]. intros c. rewrite Hlookup.
    unfold set_property.
    destruct (decide (c ∈ keys ∧ c ≠ "__proto__")) as [[Hin Hne]|Hnin].
    + rewrite decide_True; [done|]. split; [by right|done].
    + destruct (decide (c = k)) as [->|Hck].
      * case_bool_decide as Hproto.
        -- rewrite decide_False; [done|]. by intros [_ ?].
        -- rewrite decide_True by (split; [by left|done]).
           by rewrite lookup_insert_eq, Hl.
      * rewrite decide_False.
        -- case_bool_decide; [done|]. by rewrite lookup_insert_ne.
        -- intros [[?|?]%elem_of_cons ?]; [done|]. by apply Hnin.
Qed.

(** The loop over the keys of a document returns: no own key makes
    [calculateCompletion] throw. *)
Lemma categoryCompletions_returns tasks :
  ∃ completions,
    categoryCompletions tasks = Ok completions
    ∧ ∀ c : string,
        completions !! c
        = if decide (c = "__proto__") then None
          else (λ l, percentage (completedCount l) (length l)) <$> tasks !! c.
Proof.
  destruct (categoryCompletions_loop tasks (Object_keys tasks)
              ltac:(intros k; by rewrite elem_of_Object_keys) ∅)
    as (completions & Hloop & Hlookup).
  exists completions. split; [exact Hloop|]. intros c. rewrite Hlookup.
  destruct (decide (c = "__proto__")) as [->|Hne].
  - rewrite decide_False; [apply lookup_empty|]. by intros [_ ?].
  - destruct (tasks !! c) as [l|] eqn:Hl.
    + rewrite decide_True; [done|]. split; [|done].
      apply elem_of_Object_keys. by rewrite Hl.
    + rewrite decide_False; [apply lookup_empty|].
      intros [Hin _]. apply elem_of_Object_keys in Hin as [? ?]. congruence.
Qed.

(** X4: the loop over [Object.keys(tasks)] never throws and builds a
    record with exactly the categories of the document other than one named
    [__proto__], each mapped to its percentage.  For a category of at most
    100 tasks not named [__proto__], [categoryCompletions[category] || 0] is
    the number [calculateCompletion(tasks, category)] returns; it is 100,
    the condition of the green badge, exactly when the category has tasks
    and all are completed, and 0 exactly when no task is completed.  For a
    category the document does not have it is 0, unless the name is one
    every object inherits: then, as for the name [__proto__], the
    expression yields the inherited property, which is no number. *)
Theorem category_completion_figures (tasks : TasksState) (category : string) :
  ∃ completions,
    categoryCompletions tasks = Ok completions
    ∧ dom completions = dom tasks ∖ {["__proto__"]}
    ∧ (category ≠ "__proto__" →
         completions !! category
         = (λ l, percentage (completedCount l) (length l)) <$> tasks !! category)
    ∧ (tasks !! category = None → category ∉ Object_prototype →
         getCompletionByCategory completions category = FigureNumber (Number 0)
         ∧ calculateCompletion (Some tasks) category = Ok (Number 0))
    ∧ (category ∈ Object_prototype →
       tasks !! category = None ∨ category = "__proto__" →
         getCompletionByCategory completions category
         = FigureInherited category)
    ∧ (∀ l, tasks !! category = Some l → category ≠ "__proto__" →
         (length l ≤ 100)%nat →
         ∃ x,
           calculateCompletion (Some tasks) category = Ok x
           ∧ getCompletionByCategory completions category = FigureNumber x
           ∧ (x = Number 100 ↔ l ≠ [] ∧ completedCount l = length l)
           ∧ (x = Number 0 ↔ completedCount l = 0%nat)).
Proof.
  destruct (categoryCompletions_returns tasks) as (completions & Hrun & Hlookup).
  exists completions. split; [exact Hrun|].
  split; [|split; [|split; [|split]]].
  - apply set_eq. intros c.
    rewrite elem_of_difference, !elem_of_dom, Hlookup, elem_of_singleton.
    destruct (decide (c = "__proto__")) as [->|Hne].
    + split; [by intros [? ?]|by intros [_ ?]].
    + rewrite fmap_is_Some. split; [intros ?; by split|by intros [? _]].
  - intros Hne. by rewrite Hlookup, decide_False.
  - intros Hc Hin. split.
    + unfold getCompletionByCategory, get_property. rewrite Hlookup, Hc.
      rewrite bool_decide_eq_false_2 by done. by case_decide.
    + unfold calculateCompletion, get_property.
      by rewrite Hc, bool_decide_eq_false_2.
  - intros Hin Hc. unfold getCompletionByCategory, get_property.
    assert (completions !! category = None) as ->.
    { rewrite Hlookup. case_decide; [done|]. destruct Hc as [->|?]; done. }
    by rewrite bool_decide_eq_true_2.
  - intros l Hl Hne Hlen.
    exists (percentage (completedCount l) (length l)).
    split; [by apply calculateCompletion_own|].
    unfold getCompletionByCategory, get_property.
    rewrite Hlookup, decide_False, Hl by done. cbn [fmap option_fmap option_map].
    pose proof (completedCount_le l) as Hle.
    destruct l as [|t l].
    { change (percentage (completedCount []) (length [])) with (Number 0).
      cbn. split; [done|]. split; [|done].
      split; [discriminate|by intros [? _]]. }
    set (k := completedCount (t :: l)) in *. set (n := length (t :: l)) in *.
    assert (0 < n ≤ 100)%nat as Hn by (subst n; cbn in *; lia).
    destruct (percentage_medium k n Hn Hle) as (r & Hr & Hr100 & _).
    destruct (percentage_endpoints k n Hn Hle) as [H100 H0].
    assert ((if number_truthy (percentage k n)
             then FigureNumber (percentage k n) else FigureNumber (Number 0))
            = FigureNumber (percentage k n)) as ->.
    { destruct (decide (r = 0)) as [->|Hr0].
      - rewrite Hr. reflexivity.
      - rewrite Hr, (Number_truthy_100 r) by lia. done. }
    split; [done|].
    split; [rewrite H100|rewrite H0; done]. split; [done|by intros [_ ?]].
Qed.

Lemma category_completion_figures_witness :
  let tasks : TasksState :=
    {["done" := sample_tasks 3 3; "open" := sample_tasks 0 2]} in
  ∃ completions,
    categoryCompletions tasks = Ok completions
    ∧ getCompletionByCategory completions "done" = FigureNumber (Number 100)
    ∧ getCompletionByCategory completions "other" = FigureNumber (Number 0)
    ∧ getCompletionByCategory completions "constructor"
      = FigureInherited "constructor".
Proof.
  cbn zeta.
  destruct (category_completion_figures
              {["done" := sample_tasks 3 3; "open" := sample_tasks 0 2]} "done")
    as (completions & Hrun & _ & _ & _ & _ & Hdone).
  destruct (category_completion_figures
              {["done" := sample_tasks 3 3; "open" := sample_tasks 0 2]} "other")
    as (completions' & Hrun' & _ & _ & Hother & _).
  destruct (category_completion_figures
              {["done" := sample_tasks 3 3; "open" := sample_tasks 0 2]}
              "constructor")
    as (completions'' & Hrun'' & _ & _ & _ & Hinherited & _).
  rewrite Hrun in Hrun', Hrun''.
  injection Hrun' as <-. injection Hrun'' as <-.
  exists completions. split; [exact Hrun|]. split; [|split].
  - destruct (Hdone (sample_tasks 3 3) eq_refl) as (x & _ & Hshown & H100 & _);
      [discriminate|vm_compute; lia|].
    rewrite Hshown. f_equal. apply H100. split; [discriminate|reflexivity].
  - apply Hother; [reflexivity|].
    apply (bool_decide_unpack _). vm_compute. exact I.
  - apply Hinherited; [|by left].
    apply (bool_decide_unpack _). vm_compute. exact I.
Defined.

(** ** Invariants of the stored documents *)

Lemma tasks_doc_store_set_other {A} (k : Key A) (v : A) s :
  key_name k ≠ key_name TASKS_KEY →
  tasks_doc (store_set k v s) = tasks_doc s.
Proof. destruct k; cbn; by intros. Qed.

Lemma catalog_shaped_store_set {A} (k : Key A) (v : A) s :
  key_name k ≠ key_name TASKS_KEY →
  catalog_shaped s → catalog_shaped (store_set k v s).
Proof.
  intros Hk Hs d. rewrite (tasks_doc_store_set_other k v s Hk). apply Hs.
Qed.

Lemma default_ids_distinct :
  map_Forall (λ _ l, NoDup (id <$> l)) getDefaultTasks.
Proof. apply (bool_decide_unpack _). vm_compute. exact I. Qed.

Lemma shape_lookup (d d' : TasksState) (c : string) l :
  shape d = shape d' → d !! c = Some l →
  ∃ l', d' !! c = Some l' ∧ map task_identity l = map task_identity l'.
Proof.
  intros Hs Hl. apply (f_equal (λ m, m !! c)) in Hs.
  unfold shape in Hs. rewrite !lookup_fmap, Hl in Hs. cbn in Hs.
  destruct (d' !! c) as [l'|]; [|done]. injection Hs as Hs. eauto.
Qed.

(** X5: a stored catalog that has the tasks of the default catalog keeps
    them under every sequence of requests and every pattern of storage
    failures: no request adds, removes or renames a category, or adds,
    removes, renames or reorders a task, and the ids of a category stay
    pairwise distinct; only completion flags change. *)
Theorem catalog_shape_invariant (requests : list Request) w :
  catalog_shaped (store w) →
  catalog_shaped (store (serve_all requests w))
  ∧ ∀ d, tasks_doc (store (serve_all requests w)) = Some d →
      dom d = dom getDefaultTasks
      ∧ ∀ (c : string) l, d !! c = Some l →
          NoDup (id <$> l)
          ∧ ∃ l0, getDefaultTasks !! c = Some l0
              ∧ map task_identity l = map task_identity l0.
Proof.
  intros Hw.
  assert (catalog_shaped (store (serve_all requests w))) as Hshaped.
  { apply serve_all_invariant
      with (D := λ d, shape d = shape getDefaultTasks).
    - apply initializeRedisData_invariant.
      + intros s _ _ d [= <-]. done.
      + intros. by apply catalog_shaped_store_set.
      + intros. by apply catalog_shaped_store_set.
      + intros. by apply catalog_shaped_store_set.
    - intros. by apply catalog_shaped_store_set.
    - intros. by apply catalog_shaped_store_set.
    - intros. by apply catalog_shaped_store_set.
    - intros s d Hs Hd. by apply Hs.
    - done.
    - intros s d c i t _ Hd Hf d' [= <-].
      apply find_task_Some in Hf as (l & Hl & _).
      by rewrite (shape_toggled _ _ _ _ Hl).
    - done. }
  split; [done|]. intros d Hd. specialize (Hshaped d Hd). split.
  - apply (f_equal dom) in Hshaped. unfold shape in Hshaped.
    by rewrite !dom_fmap_L in Hshaped.
  - intros c l Hl.
    destruct (shape_lookup _ _ _ _ Hshaped Hl) as (l0 & Hl0 & Hmap).
    split; [|eauto].
    pose proof (default_ids_distinct c l0 Hl0) as Hnd. cbn in Hnd.
    assert (id <$> l = id <$> l0) as ->; [|done].
    apply (f_equal (map (λ p, p.1.1.1))) in Hmap.
    by rewrite !map_map in Hmap.
Qed.

Lemma catalog_shape_invariant_witness :
  catalog_shaped
    (store (serve_all [ReqHome; ReqToggle "technical" 1; ReqGetSEOScore;
                       ReqToggle "content" 2; ReqAddActivityLog "NOTE" "text"]
                      (mkWorld fresh_store [false; true; false; true] [] []))).
Proof.
  apply (catalog_shape_invariant
           [ReqHome; ReqToggle "technical" 1; ReqGetSEOScore;
            ReqToggle "content" 2; ReqAddActivityLog "NOTE" "text"]
           (mkWorld fresh_store [false; true; false; true] [] [])).
  intros d. cbn. discriminate.
Defined.

Lemma isSome_store_set {A B} (k : Key A) (k' : Key B) (v : B) s :
  isSome (store_get k s) = true → isSome (store_get k (store_set k' v s)) = true.
Proof. destruct k, k'; cbn; auto. Qed.

(** X6: a document that is present stays present under every sequence
    of requests and every pattern of storage failures: no request deletes a
    key. *)
Theorem documents_never_deleted {A} (k : Key A) (requests : list Request) w :
  isSome (store_get k (store w)) = true →
  isSome (store_get k (store (serve_all requests w))) = true.
Proof.
  intros Hw.
  apply (serve_all_invariant (λ s, isSome (store_get k s) = true) (λ _, True));
    try done; try (intros; by apply isSome_store_set).
  apply initializeRedisData_invariant; intros; by apply isSome_store_set.
Qed.

Lemma documents_never_deleted_witness :
  isSome (activity_log_doc
            (store (serve_all [ReqToggle "technical" 1; ReqHome]
                      (mkWorld (mkStore None (Some []) None None)
                               [true; false; true] [] []))))
  = true.
Proof.
  apply (documents_never_deleted ACTIVITY_LOG_KEY
           [ReqToggle "technical" 1; ReqHome]
           (mkWorld (mkStore None (Some []) None None)
                    [true; false; true] [] [])).
  reflexivity.
Defined.

(** ** Seeding *)

(** X7: on a store without catalog, [initializeRedisData] writes the
    catalog, the log, the score and the integration status in this order and
    stops at the first write that raises, or writes nothing when the
    existence check raises: the number [n] of documents written is the
    number of writes that return before the first one that raises, and no
    store call follows a call that raises.  Documents found under the keys
    it writes are replaced; without failures all four are written.  Once
    the catalog is stored no later call resumes the seeding: the store is
    left as it is.  Store calls are numbered from 0: the existence check is
    call 0, the writes are calls 1 to 4. *)
Theorem seeding_writes_a_prefix w :
  tasks_doc (store w) = None →
  ∃ w' (n : nat),
    initializeRedisData w = (Ok tt, w')
    ∧ (n ≤ 4)%nat
    ∧ store w' = seeded_prefix n (clock w) (store w)
    ∧ (raises w 0 = true → n = 0%nat)
    ∧ (raises w 0 = false →
         (∀ j, (j < n)%nat → raises w (S j) = false)
         ∧ ((n < 4)%nat → raises w (S n) = true))
    ∧ (let calls :=
         if raises w 0 then 1%nat
         else if (n <? 4)%nat then (n + 2)%nat else 5%nat in
       length (trace w') = (calls + length (trace w))%nat
       ∧ faults w' = drop calls (faults w))
    ∧ (faults w = [] → n = 4%nat ∧ store w' = seeded_store (clock w))
    ∧ (∀ fs, faults w = true :: fs → n = 0%nat)
    ∧ ((0 < n)%nat →
         tasks_doc (store w') = Some getDefaultTasks
         ∧ ∀ w2, store w2 = store w' →
             store (initializeRedisData w2).2 = store w2).
Proof.
  intros Hd.
  assert (∀ w1 d, tasks_doc (store w1) = Some d →
            ∀ w2, store w2 = store w1 →
              store (initializeRedisData w2).2 = store w2) as Hstop.
  { intros w1 d Hw1 w2 Hw2.
    destruct (initializeRedisData_any w2) as (w3 & -> & _ & _ & H).
    rewrite <- Hw2 in Hw1. by destruct (H d Hw1). }
  destruct w as [[td ld sd idoc] fs cl tr]. cbn in Hd. subst td.
  unfold raises. run_action. split_faults.
  all: cbn [lookup list_lookup default from_option Datatypes.id].
  all: eexists _; first [exists 4%nat; split; [reflexivity|]; split; [lia|];
                           split; [reflexivity|]
                        |exists 3%nat; split; [reflexivity|]; split; [lia|];
                           split; [reflexivity|]
                        |exists 2%nat; split; [reflexivity|]; split; [lia|];
                           split; [reflexivity|]
                        |exists 1%nat; split; [reflexivity|]; split; [lia|];
                           split; [reflexivity|]
                        |exists 0%nat; split; [reflexivity|]; split; [lia|];
                           split; [reflexivity|]].
  all: split; [first [by intros [=] | done]|].
  all: split;
    [first [by intros [=]
           | intros _; split;
             [intros [|[|[|[|j]]]] Hj; first [reflexivity | lia]
             |first [reflexivity | intros ?; lia]]]|].
  all: split; [cbn [length Nat.ltb Nat.leb Nat.add drop]; split; reflexivity|].
  all: split; [first [by intros [=] | done]|].
  all: split; [first [by intros ? [=] | done]|].
  all: first [by intros ?%Nat.lt_irrefl | intros _].
  all: split; [reflexivity|]. all: by eapply Hstop.
Qed.

Lemma seeding_writes_a_prefix_witness :
  let w := mkWorld (mkStore None (Some []) None None)
                   [false; false; true] [1700000000000] [] in
  ∃ w', initializeRedisData w = (Ok tt, w')
    ∧ store w' = mkStore (Some getDefaultTasks) (Some []) None None.
Proof.
  cbn zeta.
  destruct (seeding_writes_a_prefix
              (mkWorld (mkStore None (Some []) None None)
                       [false; false; true] [1700000000000] []) eq_refl)
    as (w' & n & H & _).
  exists w'. split; [exact H|]. by injection H as <-.
Defined.

(** ** The score and integration snapshots *)

Ltac run_snapshot :=
  unfold Home, getSEOScore, getIntegrationStatus; run_action;
  cbn [truthy initial_seo_score initial_integration_status
       default_seo_score default_integration_status];
  reduce_world.

(** X8: whatever the store does, [getSEOScore] returns a score and never
    throws.  Its last store call is on the score key: when it is a read that
    returned, the result is the stored score, which counts as true; when it
    is a write that returned, the result is the fallback score, now stored;
    when it raised, the result is the fallback score.  With a stored catalog
    the catalog, the log and the integration status are left as found. *)
Theorem getSEOScore_fail_open w :
  ∃ score w' last earlier,
    getSEOScore w = (Ok score, w')
    ∧ trace w' = last :: earlier
    ∧ ev_key last = key_name SEO_SCORE_KEY
    ∧ (last = ev OpGet SEO_SCORE_KEY true →
         seo_score_doc (store w') = Some score ∧ truthy score = true)
    ∧ (last = ev OpSet SEO_SCORE_KEY true →
         seo_score_doc (store w') = Some score
         ∧ ∃ now, score = default_seo_score now)
    ∧ (ev_ok last = false → ∃ now, score = default_seo_score now)
    ∧ (∀ d, tasks_doc (store w) = Some d →
         tasks_doc (store w') = Some d
         ∧ activity_log_doc (store w') = activity_log_doc (store w)
         ∧ integrations_doc (store w') = integrations_doc (store w)).
Proof.
  destruct w as [[td ld sd idoc] fs cl tr]. run_snapshot.
  destruct td as [d|], sd as [v|]; reduce_world;
    try destruct (truthy v) eqn:Hv;
    repeat (progress (split_faults; run_snapshot; rewrite ?Hv)).
  all: eexists _, _, _, _; split; [reflexivity|]; reduce_world.
  all: split; [reflexivity|]. all: split; [reflexivity|].
  all: split; [first [by intros [=] | intros _; by split]|].
  all: split; [first [by intros [=] | intros _; split; [done|]; by eexists]|].
  all: split; [first [by intros [=] | intros _; by eexists]|].
  all: first [by intros ? [=] | by intros ? [= <-]].
Qed.

Lemma getSEOScore_fail_open_witness :
  ∃ score w' now,
    getSEOScore (mkWorld (mkStore (Some getDefaultTasks) (Some []) None None)
                         [false; true] [1700000000000] [])
    = (Ok score, w')
    ∧ score = default_seo_score now.
Proof.
  destruct (getSEOScore_fail_open
              (mkWorld (mkStore (Some getDefaultTasks) (Some []) None None)
                       [false; true] [1700000000000] []))
    as (score & w' & last & earlier & Hrun & Htrace & _ & _ & _ & Hraised & _).
  assert (ev_ok last = false) as Hlast.
  { revert Hrun Htrace. run_snapshot. intros [= _ <-]. cbn [trace].
    by intros [= <- _]. }
  destruct (Hraised Hlast) as [now Hnow].
  by exists score, w', now.
Defined.

(** X9: without storage failures, [getSEOScore] on a store without catalog
    returns the score written by the seeding run, which has no [links] and
    no [mobile] field; with a stored catalog it returns a stored score that
    counts as true and writes nothing; with a stored catalog and no such
    score it stores the fallback score stamped with the clock reading and
    returns it, and a second call returns this very value, writing
    nothing. *)
Theorem getSEOScore_snapshots w :
  faults w = [] →
  (tasks_doc (store w) = None →
     ∃ w', getSEOScore w
           = (Ok (initial_seo_score (toISOString (hd 0 (tail (clock w))))), w')
       ∧ store w' = seeded_store (clock w)
       ∧ field "overall"
           (initial_seo_score (toISOString (hd 0 (tail (clock w)))))
         = Some (JNumber 55)
       ∧ field "links"
           (initial_seo_score (toISOString (hd 0 (tail (clock w))))) = None
       ∧ field "mobile"
           (initial_seo_score (toISOString (hd 0 (tail (clock w))))) = None)
  ∧ (∀ d v, tasks_doc (store w) = Some d →
       seo_score_doc (store w) = Some v → truthy v = true →
       ∃ w', getSEOScore w = (Ok v, w') ∧ read_only w w')
  ∧ (∀ d, tasks_doc (store w) = Some d →
       truthy (default JNull (seo_score_doc (store w))) = false →
       let fallback := default_seo_score (toISOString (hd 0 (clock w))) in
       ∃ w1 w2,
         getSEOScore w = (Ok fallback, w1)
         ∧ store w1 = store_set SEO_SCORE_KEY fallback (store w)
         ∧ getSEOScore w1 = (Ok fallback, w2)
         ∧ read_only w1 w2).
Proof.
  destruct w as [[td ld sd idoc] fs cl tr]. cbn [faults store clock].
  intros ->.
  assert (∀ e1 e2 : Event, ev_op e1 ≠ OpSet → ev_op e2 ≠ OpSet →
            no_write [e1; e2]) as Hnw.
  { intros. by repeat constructor. }
  split; [|split].
  - cbn. intros ->. eexists. run_snapshot. by repeat split.
  - cbn. intros d v -> -> Hv. eexists. run_snapshot. rewrite Hv.
    split; [reflexivity|]. split; [reflexivity|].
    eexists [_; _]. split; [reflexivity|]. by apply Hnw.
  - cbn [tasks_doc seo_score_doc]. intros d -> Hv. cbn zeta.
    eexists _, _. run_snapshot. rewrite Hv. run_snapshot.
    split; [reflexivity|]. split; [reflexivity|]. split; [reflexivity|].
    split; [reflexivity|].
    eexists [_; _]. split; [reflexivity|]. by apply Hnw.
Qed.

Lemma getSEOScore_snapshots_witness :
  let stored := mkStore (Some getDefaultTasks) (Some []) None None in
  let fallback := default_seo_score (toISOString 1700000000000) in
  ∃ w1 w2,
    getSEOScore (mkWorld stored [] [1700000000000; 1700000060000] [])
    = (Ok fallback, w1)
    ∧ getSEOScore w1 = (Ok fallback, w2).
Proof.
  cbn zeta.
  destruct (getSEOScore_snapshots
              (mkWorld (mkStore (Some getDefaultTasks) (Some []) None None)
                       [] [1700000000000; 1700000060000] []) eq_refl)
    as (_ & _ & H).
  destruct (H getDefaultTasks eq_refl eq_refl) as (w1 & w2 & H1 & _ & H2 & _).
  exists w1, w2. exact (conj H1 H2).
Defined.

(** X10: whatever the store does, [getIntegrationStatus] returns a status
    and never throws: the stored status when the read returned a status that
    counts as true, the fallback flags otherwise, which it stores unless a
    call raised.  Without storage failures a store without catalog yields
    the status written by the seeding run, which is of another shape than
    the fallback: it has no [google] and no [analytics] field, and under
    [ahrefs] and [semrush] it holds a record where the fallback holds a
    flag; with a stored catalog and no status the fallback is stored and
    returned. *)
Theorem getIntegrationStatus_fail_open w :
  (∃ status w' last earlier,
     getIntegrationStatus w = (Ok status, w')
     ∧ trace w' = last :: earlier
     ∧ ev_key last = key_name INTEGRATION_STATUS_KEY
     ∧ (last = ev OpGet INTEGRATION_STATUS_KEY true →
          integrations_doc (store w') = Some status ∧ truthy status = true)
     ∧ (last = ev OpSet INTEGRATION_STATUS_KEY true →
          integrations_doc (store w') = Some status
          ∧ status = default_integration_status)
     ∧ (ev_ok last = false → status = default_integration_status)
     ∧ (∀ d, tasks_doc (store w) = Some d →
          tasks_doc (store w') = Some d
          ∧ activity_log_doc (store w') = activity_log_doc (store w)
          ∧ seo_score_doc (store w') = seo_score_doc (store w)))
  ∧ (faults w = [] → tasks_doc (store w) = None →
       ∃ w', getIntegrationStatus w = (Ok initial_integration_status, w')
         ∧ store w' = seeded_store (clock w)
         ∧ field "google" initial_integration_status = None
         ∧ field "analytics" initial_integration_status = None
         ∧ field "ahrefs" initial_integration_status = Some not_connected
         ∧ field "semrush" initial_integration_status = Some not_connected
         ∧ field "ahrefs" default_integration_status = Some (JBool false)
         ∧ field "semrush" default_integration_status = Some (JBool false))
  ∧ (faults w = [] →
     ∀ d, tasks_doc (store w) = Some d →
       truthy (default JNull (integrations_doc (store w))) = false →
       ∃ w', getIntegrationStatus w = (Ok default_integration_status, w')
         ∧ store w'
           = store_set INTEGRATION_STATUS_KEY default_integration_status
               (store w)).
Proof.
  destruct w as [[td ld sd idoc] fs cl tr]. split; [|split].
  - run_snapshot.
    destruct td as [d|], idoc as [v|]; reduce_world;
      try destruct (truthy v) eqn:Hv;
      repeat (progress (split_faults; run_snapshot; rewrite ?Hv)).
    all: eexists _, _, _, _; split; [reflexivity|]; reduce_world.
    all: split; [reflexivity|]. all: split; [reflexivity|].
    all: split; [first [by intros [=] | intros _; by split]|].
    all: split; [first [by intros [=] | intros _; by split]|].
    all: split; [first [by intros [=] | by intros _]|].
    all: first [by intros ? [=] | by intros ? [= <-]].
  - cbn. intros -> ->. eexists. run_snapshot. by repeat split.
  - cbn [faults store tasks_doc integrations_doc]. intros -> d -> Hv.
    eexists. run_snapshot. rewrite Hv. run_snapshot. by split.
Qed.

Lemma getIntegrationStatus_fail_open_witness :
  (∃ w', getIntegrationStatus (mkWorld fresh_store [] [] [])
         = (Ok initial_integration_status, w'))
  ∧ ∃ w', getIntegrationStatus
            (mkWorld (mkStore (Some getDefaultTasks) None None None) [] [] [])
          = (Ok default_integration_status, w').
Proof.
  split.
  - destruct (getIntegrationStatus_fail_open (mkWorld fresh_store [] [] []))
      as (_ & H & _).
    destruct (H eq_refl eq_refl) as (w' & H' & _). by exists w'.
  - destruct (getIntegrationStatus_fail_open
                (mkWorld (mkStore (Some getDefaultTasks) None None None)
                         [] [] [])) as (_ & _ & H).
    destruct (H eq_refl getDefaultTasks eq_refl eq_refl) as (w' & H' & _).
    by exists w'.
Defined.

(** ** Failure modes of a toggle *)

(** X11: when the read of the catalog raises during a toggle and the
    following write returns, the toggle is applied to the default catalog and
    the result replaces the stored catalog, whatever it was: the call
    returns normally and, the ids of the default catalog being distinct, the
    stored catalog then has exactly one completed task. *)
Theorem toggleTaskCompletion_after_failed_read
    w d (category : string) (taskId : Z) t (b0 : bool) fs :
  tasks_doc (store w) = Some d →
  find_task getDefaultTasks category taskId = Some t →
  faults w = b0 :: true :: false :: fs →
  ∃ w',
    toggleTaskCompletion category taskId w
    = (Ok (toggled getDefaultTasks category taskId), w')
    ∧ tasks_doc (store w') = Some (toggled getDefaultTasks category taskId)
    ∧ totalCompleted (toggled getDefaultTasks category taskId) = 1%nat
    ∧ ∃ log_calls, trace w'
        = log_calls ++ [ev OpSet TASKS_KEY true; ev OpGet TASKS_KEY false;
                        ev OpExists TASKS_KEY (negb b0)] ++ trace w.
Proof.
  intros Hd Hf Hfs.
  assert (totalCompleted (toggled getDefaultTasks category taskId) = 1%nat)
    as Hone.
  { pose proof (find_task_Some _ _ _ _ Hf) as (l & Hl & _).
    pose proof (default_ids_distinct category l Hl) as Hnd.
    destruct (toggled_counts_core _ _ _ _ _ Hl Hnd Hf) as (_ & _ & _ & _ & _ & H).
    assert (completed t = false) as Ht.
    { pose proof (find_task_Some _ _ _ _ Hf) as (l' & Hl' & Hin & _).
      assert (map_Forall (λ _ l, Forall (λ t, completed t = false) l)
                getDefaultTasks) as Hopen
        by (apply (bool_decide_unpack _); vm_compute; exact I).
      specialize (Hopen category l' Hl'). cbn in Hopen.
      rewrite Forall_forall in Hopen. by apply Hopen. }
    rewrite Ht in H. cbn zeta in H.
    replace (totalCompleted getDefaultTasks) with 0%nat in H
      by (vm_compute; reflexivity). lia. }
  destruct w as [[td ld sd idoc] fs0 cl tr]. cbn in Hd, Hfs. subst td fs0.
  destruct b0; run_action; rewrite Hf; reduce_world; split_faults.
  all: eexists; split; [reflexivity|]; split; [reflexivity|].
  all: split; [exact Hone|].
  all: by eexists [_; _; _].
Qed.

Lemma toggleTaskCompletion_after_failed_read_witness :
  let stored := toggled (toggled getDefaultTasks "content" 2) "local" 1 in
  let w := mkWorld (mkStore (Some stored) (Some []) None None)
                   [false; true; false] [1700000000000] [] in
  ∃ w', toggleTaskCompletion "technical" 1 w
        = (Ok (toggled getDefaultTasks "technical" 1), w')
    ∧ tasks_doc (store w') = Some (toggled getDefaultTasks "technical" 1).
Proof.
  cbn zeta.
  destruct (toggleTaskCompletion_after_failed_read
              (mkWorld (mkStore (Some (toggled (toggled getDefaultTasks
                                                  "content" 2) "local" 1))
                                (Some []) None None)
                       [false; true; false] [1700000000000] [])
              (toggled (toggled getDefaultTasks "content" 2) "local" 1)
              "technical" 1
              (mkTask 1 "Configure robots.txt" false "Frontend Developer"
                 "Tells search engines which pages to crawl and which to ignore. Improves crawl efficiency and prevents indexing of sensitive or duplicate content. Directly impacts which pages appear in search results.")
              false [] eq_refl eq_refl eq_refl)
    as (w' & H1 & H2 & _).
  exists w'. exact (conj H1 H2).
Defined.

(** X12: a toggle that throws always throws the same generic error,
    whether the task was not found or the write of the catalog raised, and
    leaves the store exactly as a read by [getTasks] in the same world leaves
    it: with a stored catalog nothing is changed, no flag and no log
    entry. *)
Theorem toggleTaskCompletion_failure_is_clean
    (category : string) (taskId : Z) w e w' :
  toggleTaskCompletion category taskId w = (Throw e, w') →
  e = JsError "Failed to update task status"
  ∧ store w' = store (getTasks w).2
  ∧ (∀ d, tasks_doc (store w) = Some d → store w' = store w)
  ∧ ((∃ read, (tasks_doc (store w') = Some read ∨ read = getDefaultTasks)
              ∧ find_task read category taskId = None)
     ∨ head (trace w') = Some (ev OpSet TASKS_KEY false)).
Proof.
  unfold toggleTaskCompletion, try_catch, mbind, Action_bind.
  destruct (getTasks_any w)
    as (read & w1 & read_ok & tr1 & Hget & Htr & Hraised & Hread & _ & Hsome & _).
  rewrite Hget. cbn [snd].
  assert (∀ d, tasks_doc (store w) = Some d → store w1 = store w) as Hsame.
  { intros d Hd. by destruct (Hsome d Hd). }
  destruct (find_task read category taskId) as [t|] eqn:Hf.
  - unfold redis_set at 1. unfold redis_call at 1.
    destruct (head (faults w1)) as [[]|] eqn:Hhead.
    + intros [= <- <-]. cbn. split; [done|]. split; [done|].
      split; [done|]. by right.
    + match goal with
      | |- context [addActivityLog ?a ?m ?w2] =>
          destruct (addActivityLog_any a m w2) as (w3 & ? & ? & -> & _)
      end. done.
    + match goal with
      | |- context [addActivityLog ?a ?m ?w2] =>
          destruct (addActivityLog_any a m w2) as (w3 & ? & ? & -> & _)
      end. done.
  - intros [= <- <-]. split; [done|]. split; [done|]. split; [done|].
    left. exists read. split; [|done]. destruct read_ok.
    + rewrite (Hread eq_refl).
      destruct (tasks_doc (store w1)); [by left|by right].
    + right. by apply Hraised.
Qed.

Lemma toggleTaskCompletion_failure_is_clean_witness :
  let w := mkWorld (mkStore (Some getDefaultTasks) (Some []) None None)
                   [false; false; true] [] [] in
  (toggleTaskCompletion "technical" 1 w).1
  = Throw (JsError "Failed to update task status")
  ∧ store (toggleTaskCompletion "technical" 1 w).2 = store w.
Proof.
  cbn zeta.
  destruct (toggleTaskCompletion "technical" 1
              (mkWorld (mkStore (Some getDefaultTasks) (Some []) None None)
                       [false; false; true] [] [])) as [r w'] eqn:Hrun.
  assert (∃ e, r = Throw e) as [e ->].
  { apply (f_equal fst) in Hrun. cbn in Hrun. rewrite <- Hrun. by eexists. }
  destruct (toggleTaskCompletion_failure_is_clean _ _ _ _ _ Hrun)
    as (-> & _ & Hsame & _).
  split; [reflexivity|]. exact (Hsame getDefaultTasks eq_refl).
Defined.

(** ** Sequences of appends *)

Lemma take_app_take {A} (n : nat) (xs ys : list A) :
  take n (xs ++ take n ys) = take n (xs ++ ys).
Proof.
  rewrite !take_app, take_take. f_equal. f_equal. lia.
Qed.

(** X13: without storage failures and with a stored catalog, a sequence
    of appends leaves the first 20 entries of the list made of the new
    entries, the latest first, each stamped with its own clock reading,
    followed by the entries found; a read of the log then returns this
    list. *)
Theorem appends_compose (entries : list (string * string)) w d :
  faults w = [] →
  tasks_doc (store w) = Some d →
  (length (default [] (activity_log_doc (store w))) ≤ 20)%nat →
  let w' := run_calls (map (λ e, CallAddActivityLog e.1 e.2) entries) w in
  let expected :=
    take 20 (reverse (stamped entries (clock w))
             ++ default [] (activity_log_doc (store w))) in
  default [] (activity_log_doc (store w')) = expected
  ∧ ∃ w'', getActivityLog w' = (Ok expected, w'').
Proof.
  intros Hfs Hd Hlen. cbn zeta.
  assert (default [] (activity_log_doc
            (store (run_calls (map (λ e, CallAddActivityLog e.1 e.2) entries) w)))
          = take 20 (reverse (stamped entries (clock w))
                     ++ default [] (activity_log_doc (store w)))
          ∧ faults (run_calls (map (λ e, CallAddActivityLog e.1 e.2) entries) w) = []
          ∧ tasks_doc (store (run_calls
                                (map (λ e, CallAddActivityLog e.1 e.2) entries) w))
            = Some d) as (Hlog & Hfs' & Hd').
  { revert w Hfs Hd Hlen.
    induction entries as [|[a m] entries IH]; intros [s fs cl tr] Hfs Hd Hlen;
      cbn [faults store clock] in *; subst fs.
    { cbn. by rewrite take_ge by lia. }
    cbn [map run_calls foldl run_call fst snd].
    rewrite (addActivityLog_present _ _ _ d a m Hd). cbn [snd].
    change (foldl (λ w c, run_call c w) ?w0 ?cs) with (run_calls cs w0).
    destruct s as [td ld sd idoc]. cbn in Hd, Hlen. subst td.
    match goal with
    | |- context [run_calls ?cs ?w0] =>
        destruct (IH w0 eq_refl eq_refl) as (IHlog & IHfs & IHd)
    end.
    { cbn. rewrite length_take. lia. }
    split; [|by split]. rewrite IHlog.
    cbn [store clock stamped hd tail store_set activity_log_doc from_option
         Datatypes.id fst snd].
    rewrite reverse_cons, <- app_assoc.
    change ([LogEntry a m (hd 0 cl)] ++ default [] ld)
      with (LogEntry a m (hd 0 cl) :: default [] ld).
    change (LogEntry a m (hd 0 cl) :: take 19 (default [] ld))
      with (take 20 (LogEntry a m (hd 0 cl) :: default [] ld)).
    apply take_app_take. }
  split; [done|].
  destruct (run_calls (map (λ e, CallAddActivityLog e.1 e.2) entries) w)
    as [s' fs' cl' tr']. cbn in Hfs', Hd', Hlog. subst fs'.
  eexists. rewrite (getActivityLog_present _ _ _ d Hd'). by rewrite Hlog.
Qed.

Lemma appends_compose_witness :
  let w := mkWorld (mkStore (Some getDefaultTasks) (Some []) None None)
                   [] [10; 20; 30] [] in
  default [] (activity_log_doc
                (store (run_calls [CallAddActivityLog "A" "first";
                                   CallAddActivityLog "B" "second"] w)))
  = [LogEntry "B" "second" 20; LogEntry "A" "first" 10].
Proof.
  cbn zeta.
  destruct (appends_compose [("A", "first"); ("B", "second")]
              (mkWorld (mkStore (Some getDefaultTasks) (Some []) None None)
                       [] [10; 20; 30] [])
              getDefaultTasks eq_refl eq_refl) as [H _].
  - cbn. lia.
  - exact H.
Defined.

(** ** The page loader *)

Lemma read_only_refl w : read_only w w.
Proof. split; [done|]. exists []. split; [done|constructor]. Qed.

Lemma read_only_trans w1 w2 w3 :
  read_only w1 w2 → read_only w2 w3 → read_only w1 w3.
Proof.
  intros [Hs (c1 & Ht1 & Hn1)] [Hs' (c2 & Ht2 & Hn2)].
  split; [congruence|]. exists (c2 ++ c1).
  split; [by rewrite Ht2, Ht1, app_assoc|by apply Forall_app].
Qed.

Lemma no_write_two (e1 e2 : Event) :
  ev_op e1 ≠ OpSet → ev_op e2 ≠ OpSet → no_write [e1; e2].
Proof. intros. by repeat constructor. Qed.

Ltac solve_read_only :=
  split; [reflexivity|]; eexists [_; _]; split; [reflexivity|];
  by apply no_write_two.

Lemma getTasks_read_only w d :
  tasks_doc (store w) = Some d →
  ∃ tasks w', getTasks w = (Ok tasks, w') ∧ read_only w w'
    ∧ (tasks = d ∨ tasks = getDefaultTasks) ∧ (faults w = [] → tasks = d)
    ∧ faults w' = tail (tail (faults w)) ∧ clock w' = clock w.
Proof.
  destruct w as [[td ld sd idoc] fs cl tr]. cbn. intros ->.
  run_action. split_faults.
  all: eexists _, _; split; [reflexivity|]; split; [solve_read_only|].
  all: split; [first [by left|by right]|].
  all: split; [first [done|by intros [=]]|]. all: by split.
Qed.

Lemma getActivityLog_read_only w d :
  tasks_doc (store w) = Some d →
  ∃ log w', getActivityLog w = (Ok log, w') ∧ read_only w w'
    ∧ (faults w = [] → log = default [] (activity_log_doc (store w)))
    ∧ faults w' = tail (tail (faults w)) ∧ clock w' = clock w.
Proof.
  destruct w as [[td ld sd idoc] fs cl tr]. cbn. intros ->.
  run_action. split_faults.
  all: eexists _, _; split; [reflexivity|]; split; [solve_read_only|].
  all: split; [first [done|by intros [=]]|]. all: by split.
Qed.

Lemma getSEOScore_read_only w d v :
  tasks_doc (store w) = Some d →
  seo_score_doc (store w) = Some v → truthy v = true →
  ∃ score w', getSEOScore w = (Ok score, w') ∧ read_only w w'
    ∧ (faults w = [] → score = v)
    ∧ faults w' = tail (tail (faults w)).
Proof.
  destruct w as [[td ld sd idoc] fs cl tr]. cbn. intros -> -> Hv.
  run_snapshot. split_faults; rewrite ?Hv.
  all: eexists _, _; split; [reflexivity|]; split; [solve_read_only|].
  all: split; [first [done|by intros [=]]|]. all: done.
Qed.

Lemma getIntegrationStatus_read_only w d v :
  tasks_doc (store w) = Some d →
  integrations_doc (store w) = Some v → truthy v = true →
  ∃ status w', getIntegrationStatus w = (Ok status, w') ∧ read_only w w'
    ∧ (faults w = [] → status = v)
    ∧ faults w' = tail (tail (faults w)).
Proof.
  destruct w as [[td ld sd idoc] fs cl tr]. cbn. intros -> -> Hv.
  run_snapshot. split_faults; rewrite ?Hv.
  all: eexists _, _; split; [reflexivity|]; split; [solve_read_only|].
  all: split; [first [done|by intros [=]]|]. all: done.
Qed.

(** X14: on a store that holds a catalog and a score and an integration
    status that count as true, loading the page writes nothing, whatever the
    store does: the store is left as found and no write is attempted;
    without storage failures the page shows the stored documents and the
    completion figures computed from the stored catalog. *)
Theorem Home_reads_only w d score status :
  tasks_doc (store w) = Some d →
  seo_score_doc (store w) = Some score → truthy score = true →
  integrations_doc (store w) = Some status → truthy status = true →
  ∃ props w',
    Home w = (Ok props, w')
    ∧ read_only w w'
    ∧ (initialTasks props = d ∨ initialTasks props = getDefaultTasks)
    ∧ initialOverallCompletion props
      = calculateOverallCompletion (Some (initialTasks props))
    ∧ categoryCompletions (initialTasks props)
      = Ok (initialCategoryCompletions props)
    ∧ (faults w = [] →
         ∃ completions,
           categoryCompletions d = Ok completions
           ∧ props = mkHomeProps d (default [] (activity_log_doc (store w)))
                       score status (calculateOverallCompletion (Some d))
                       completions).
Proof.
  intros Hd Hscore Hs Hstatus Hst.
  destruct (getTasks_read_only w d Hd)
    as (tasks & w1 & H1 & Hro1 & Htasks & Hfree1 & Hfs1 & _).
  destruct Hro1 as [Hst1 Htr1].
  destruct (getActivityLog_read_only w1 d ltac:(by rewrite Hst1))
    as (log & w2 & H2 & Hro2 & Hfree2 & Hfs2 & _).
  destruct Hro2 as [Hst2 Htr2].
  destruct (getSEOScore_read_only w2 d score
              ltac:(by rewrite Hst2, Hst1) ltac:(by rewrite Hst2, Hst1) Hs)
    as (sc & w3 & H3 & Hro3 & Hfree3 & Hfs3).
  destruct Hro3 as [Hst3 Htr3].
  destruct (getIntegrationStatus_read_only w3 d status
              ltac:(by rewrite Hst3, Hst2, Hst1)
              ltac:(by rewrite Hst3, Hst2, Hst1) Hst)
    as (stt & w4 & H4 & Hro4 & Hfree4 & Hfs4).
  destruct (categoryCompletions_returns tasks) as (completions & Hloop & _).
  unfold Home, mbind, Action_bind, await. rewrite H1, H2, H3, H4, Hloop.
  eexists _, _. split; [reflexivity|]. split.
  { eapply read_only_trans; [|exact Hro4].
    eapply read_only_trans; [|by split].
    eapply read_only_trans; by split. }
  split; [exact Htasks|]. split; [reflexivity|]. split; [exact Hloop|].
  intros Hfs. cbn [initialTasks]. exists completions.
  rewrite Hfs in Hfs1. cbn in Hfs1. rewrite Hfs1 in Hfs2. cbn in Hfs2.
  rewrite Hfs2 in Hfs3. cbn in Hfs3.
  rewrite <- (Hfree1 Hfs). split; [exact Hloop|].
  rewrite (Hfree2 Hfs1), (Hfree3 Hfs2), (Hfree4 Hfs3), Hst1.
  reflexivity.
Qed.

Lemma Home_reads_only_witness :
  let s := seeded_store [1700000000000; 1700000000001] in
  ∃ props w', Home (mkWorld s [true; false; true] [] []) = (Ok props, w')
    ∧ store w' = s.
Proof.
  cbn zeta.
  destruct (Home_reads_only
              (mkWorld (seeded_store [1700000000000; 1700000000001])
                       [true; false; true] [] [])
              getDefaultTasks
              (initial_seo_score (toISOString 1700000000001))
              initial_integration_status
              eq_refl eq_refl eq_refl eq_refl eq_refl)
    as (props & w' & H & [Hs _] & _).
  exists props, w'. exact (conj H Hs).
Defined.

Lemma try_catch_returns {A} (body : Action A) (handler : Error → Action A) w :
  (∀ e w0, ∃ a w0', handler e w0 = (Ok a, w0')) →
  ∃ a w', try_catch body handler w = (Ok a, w').
Proof.
  intros Hh. unfold try_catch. destruct (body w) as [[a|e] w']; eauto.
Qed.

Lemma getSEOScore_returns w : ∃ score w', getSEOScore w = (Ok score, w').
Proof. apply try_catch_returns. intros e w0. by eexists _, _. Qed.

Lemma getIntegrationStatus_returns w :
  ∃ status w', getIntegrationStatus w = (Ok status, w').
Proof. apply try_catch_returns. intros e w0. by eexists _, _. Qed.

(** The four reads when the two store calls each of them makes raise. *)
Lemma getTasks_down s fs cl tr :
  getTasks (mkWorld s (true :: true :: fs) cl tr)
  = (Ok getDefaultTasks,
     mkWorld s fs cl (ev OpGet TASKS_KEY false :: ev OpExists TASKS_KEY false :: tr)).
Proof. reflexivity. Qed.

Lemma getActivityLog_down s fs cl tr :
  getActivityLog (mkWorld s (true :: true :: fs) cl tr)
  = (Ok [],
     mkWorld s fs cl
       (ev OpGet ACTIVITY_LOG_KEY false :: ev OpExists TASKS_KEY false :: tr)).
Proof. reflexivity. Qed.

Lemma getSEOScore_down s fs cl tr :
  getSEOScore (mkWorld s (true :: true :: fs) cl tr)
  = (Ok (default_seo_score (toISOString (hd 0 cl))),
     mkWorld s fs (tail cl)
       (ev OpGet SEO_SCORE_KEY false :: ev OpExists TASKS_KEY false :: tr)).
Proof. reflexivity. Qed.

Lemma getIntegrationStatus_down s fs cl tr :
  getIntegrationStatus (mkWorld s (true :: true :: fs) cl tr)
  = (Ok default_integration_status,
     mkWorld s fs cl
       (ev OpGet INTEGRATION_STATUS_KEY false
          :: ev OpExists TASKS_KEY false :: tr)).
Proof. reflexivity. Qed.

(** X15: loading the page never throws, whatever the store does, and the
    completion figures it passes on are those of the catalog it passes on;
    when every store call raises, the page shows the default catalog, an
    empty log, the fallback score and the fallback integration flags, and
    the store is left as found. *)
Theorem Home_never_fails w :
  (∃ props w',
     Home w = (Ok props, w')
     ∧ initialOverallCompletion props
       = calculateOverallCompletion (Some (initialTasks props))
     ∧ categoryCompletions (initialTasks props)
       = Ok (initialCategoryCompletions props))
  ∧ (∀ fs, faults w = [true; true; true; true; true; true; true; true] ++ fs →
       ∃ w' completions,
         categoryCompletions getDefaultTasks = Ok completions
         ∧ Home w
           = (Ok (mkHomeProps getDefaultTasks []
                    (default_seo_score (toISOString (hd 0 (clock w))))
                    default_integration_status
                    (calculateOverallCompletion (Some getDefaultTasks))
                    completions), w')
         ∧ store w' = store w
         ∧ faults w' = fs
         ∧ Forall (λ e, ev_ok e = false) (take 8 (trace w'))).
Proof.
  split.
  - destruct (getTasks_any w) as (tasks & w1 & ? & ? & H1 & _).
    destruct (getActivityLog_any w1) as (log & w2 & H2 & _).
    destruct (getSEOScore_returns w2) as (score & w3 & H3).
    destruct (getIntegrationStatus_returns w3) as (status & w4 & H4).
    destruct (categoryCompletions_returns tasks) as (completions & Hloop & _).
    unfold Home, mbind, Action_bind, await. rewrite H1, H2, H3, H4, Hloop.
    eexists _, _. by repeat split.
  - destruct w as [s fs0 cl tr]. cbn [faults clock store]. intros fs ->.
    destruct (categoryCompletions_returns getDefaultTasks)
      as (completions & Hloop & _).
    eexists _, completions. split; [exact Hloop|].
    unfold Home, mbind, Action_bind, await. cbn [app].
    rewrite getTasks_down, getActivityLog_down, getSEOScore_down,
      getIntegrationStatus_down, Hloop.
    split; [reflexivity|]. split; [reflexivity|].
    split; [reflexivity|]. by repeat constructor.
Qed.

Lemma Home_never_fails_witness :
  ∃ w' completions,
    Home (mkWorld fresh_store
            [true; true; true; true; true; true; true; true]
            [1700000000000] [])
    = (Ok (mkHomeProps getDefaultTasks []
             (default_seo_score (toISOString 1700000000000))
             default_integration_status
             (calculateOverallCompletion (Some getDefaultTasks))
             completions), w')
    ∧ categoryCompletions getDefaultTasks = Ok completions
    ∧ store w' = fresh_store.
Proof.
  destruct (Home_never_fails
              (mkWorld fresh_store
                 [true; true; true; true; true; true; true; true]
                 [1700000000000] [])) as [_ H].
  destruct (H [] eq_refl) as (w' & completions & H0 & H1 & H2 & _).
  exists w', completions. exact (conj H1 (conj H0 H2)).
Defined.

(** ** Which documents a request can change *)

Lemma store_get_store_set_ne {A B} (k : Key A) (k' : Key B) (v : B) s :
  key_name k ≠ key_name k' → store_get k (store_set k' v s) = store_get k s.
Proof. destruct k, k'; cbn; by intros. Qed.

Lemma tasks_present_store_set {B} (k' : Key B) (v : B) s :
  isSome (tasks_doc s) = true → isSome (tasks_doc (store_set k' v s)) = true.
Proof. apply (isSome_store_set TASKS_KEY). Qed.

Section Frame.

Context {A : Type} (k : Key A) (x : option A).

Let framed (s : Store) : Prop :=
  isSome (tasks_doc s) = true ∧ store_get k s = x.

Lemma framed_store_set {B} (k' : Key B) (v : B) s :
  key_name k ≠ key_name k' → framed s → framed (store_set k' v s).
Proof.
  intros Hk [Hp Hx]. split; [by apply tasks_present_store_set|].
  by rewrite store_get_store_set_ne.
Qed.

Lemma framed_initialize : hoare framed initializeRedisData (λ _, framed) framed.
Proof. apply initializeRedisData_present_invariant. by intros s [? _]. Qed.

Lemma serve_framed r w :
  key_name k ∉ may_write r → framed (store w) → framed (store (serve r w)).
Proof.
  intros Hk Hw.
  assert (∀ {B} (m : Action B),
            hoare framed m (λ _, framed) framed → framed (store (m w).2))
    as Hrun.
  { intros B m Hm. specialize (Hm w Hw). by destruct (m w) as [[]]. }
  destruct r as [| | |a m| | |c i|]; unfold serve; cbn [may_write] in Hk;
    apply Hrun.
  - apply framed_initialize.
  - eapply hoare_consequence;
      [apply (getTasks_invariant framed (λ _, True) framed_initialize)
      |done|by intros ? ? [? _]|done]; done.
  - apply getActivityLog_invariant, framed_initialize.
  - apply addActivityLog_invariant; [apply framed_initialize|].
    intros. apply framed_store_set; [set_solver|done].
  - apply getSEOScore_invariant; [apply framed_initialize|].
    intros. apply framed_store_set; [set_solver|done].
  - apply getIntegrationStatus_invariant; [apply framed_initialize|].
    intros. apply framed_store_set; [set_solver|done].
  - apply (toggleTaskCompletion_invariant framed (λ _, True));
      [apply framed_initialize| |done|done|].
    + intros. apply framed_store_set; [set_solver|done].
    + intros. apply framed_store_set; [set_solver|done].
  - apply (Home_invariant framed (λ _, True));
      [apply framed_initialize| | |done|done].
    + intros. apply framed_store_set; [set_solver|done].
    + intros. apply framed_store_set; [set_solver|done].
Qed.

End Frame.

(** X16: with a stored catalog, whatever the store does, a request changes
    no document but its own: the reads of the catalog and of the log change
    none; an append changes the log only; [getSEOScore] the score only;
    [getIntegrationStatus] the integration status only; a toggle the catalog
    and the log only; the page loader the score and the integration status
    only.  The catalog stays present. *)
Theorem requests_change_their_own_documents {A} (k : Key A) (r : Request) w d :
  tasks_doc (store w) = Some d →
  key_name k ∉ may_write r →
  store_get k (store (serve r w)) = store_get k (store w)
  ∧ isSome (tasks_doc (store (serve r w))) = true.
Proof.
  intros Hd Hk.
  destruct (serve_framed k (store_get k (store w)) r w Hk) as [Hp Hx].
  - split; [by rewrite Hd|done].
  - done.
Qed.

Lemma requests_change_their_own_documents_witness :
  let w := mkWorld (mkStore (Some getDefaultTasks) (Some []) None None)
                   [false; true; false] [] [] in
  seo_score_doc (store (serve (ReqToggle "technical" 1) w)) = None
  ∧ tasks_doc (store (serve ReqHome w)) = Some getDefaultTasks.
Proof.
  cbn zeta. split.
  - apply (requests_change_their_own_documents SEO_SCORE_KEY
             (ReqToggle "technical" 1)
             (mkWorld (mkStore (Some getDefaultTasks) (Some []) None None)
                      [false; true; false] [] [])
             getDefaultTasks eq_refl).
    cbn. intros H. by repeat (apply elem_of_cons in H as [H|H]; [done|]);
      apply elem_of_nil in H.
  - apply (requests_change_their_own_documents TASKS_KEY ReqHome
             (mkWorld (mkStore (Some getDefaultTasks) (Some []) None None)
                      [false; true; false] [] [])
             getDefaultTasks eq_refl).
    cbn. intros H. by repeat (apply elem_of_cons in H as [H|H]; [done|]);
      apply elem_of_nil in H.
Defined.

(** ** Toggles and reads *)







(** X18: what a toggle returns is what it has stored, whatever the store
    did during the call, the failure of the log included; a following read
    without storage failures returns this document and writes nothing. *)
Theorem toggleTaskCompletion_result_is_stored
    (category : string) (taskId : Z) w updated w' :
  toggleTaskCompletion category taskId w = (Ok updated, w') →
  tasks_doc (store w') = Some updated
  ∧ ∀ w2, store w2 = store w' → faults w2 = [] →
      ∃ w3, getTasks w2 = (Ok updated, w3) ∧ read_only w2 w3.
Proof.
  intros Hrun.
  destruct (toggleTaskCompletion_any category taskId w)
    as (r & w'' & Hrun' & _ & H).
  rewrite Hrun in Hrun'. injection Hrun' as Hr Hw. subst r w''.
  destruct (H updated eq_refl) as (read & t & ok & tr & _ & _ & _ & Hstored & _).
  split; [done|]. intros w2 Hw2 Hfs.
  destruct (getTasks_read_only w2 updated ltac:(by rewrite Hw2))
    as (tasks & w3 & Hget & Hro & _ & Hfree & _).
  exists w3. by rewrite Hget, (Hfree Hfs).
Qed.

Lemma toggleTaskCompletion_result_is_stored_witness :
  let w := mkWorld (mkStore (Some getDefaultTasks) (Some []) None None)
                   [false; false; false; true; true; true] [] [] in
  tasks_doc (store (toggleTaskCompletion "technical" 1 w).2)
  = Some (toggled getDefaultTasks "technical" 1).
Proof.
  cbn zeta.
  apply (toggleTaskCompletion_result_is_stored "technical" 1
           (mkWorld (mkStore (Some getDefaultTasks) (Some []) None None)
                    [false; false; false; true; true; true] [] [])).
  by erewrite toggleTaskCompletion_log_write_fails.
Defined.

(** X19: in a document of at most 100 tasks, completing an open task of a
    category whose ids are pairwise distinct strictly raises the overall
    percentage, and reopening a completed one strictly lowers it. *)
Theorem toggled_overall_percentage d (category : string) (taskId : Z) l t :
  d !! category = Some l →
  NoDup (id <$> l) →
  find_task d category taskId = Some t →
  (totalTasks d ≤ 100)%nat →
  ∃ before after : Z,
    calculateOverallCompletion (Some d) = Number before
    ∧ calculateOverallCompletion (Some (toggled d category taskId))
      = Number after
    ∧ 0 ≤ before ≤ 100 ∧ 0 ≤ after ≤ 100
    ∧ if completed t then after < before else before < after.
Proof.
  intros Hl Hnd Hf Htotal.
  destruct (toggled_counts_core d category taskId l t Hl Hnd Hf)
    as (l' & _ & _ & _ & HN & HK).
  pose proof (totalCompleted_le d) as Hle.
  pose proof (totalCompleted_le (toggled d category taskId)) as Hle'.
  rewrite !calculateOverallCompletion_totals, HN.
  destruct (completed t).
  - assert (totalCompleted d = S (totalCompleted (toggled d category taskId)))
      as -> by lia.
    destruct (percentage_rises (totalCompleted (toggled d category taskId))
                (totalTasks d)) as (r & r' & Hr & Hr' & ? & ?); [lia|lia|].
    exists r', r. repeat split; try done; lia.
  - assert (totalCompleted (toggled d category taskId) = S (totalCompleted d))
      as -> by lia.
    destruct (percentage_rises (totalCompleted d) (totalTasks d))
      as (r & r' & Hr & Hr' & ? & ?); [lia|lia|].
    exists r, r'. repeat split; try done; lia.
Qed.

Lemma toggled_overall_percentage_witness :
  ∃ after : Z,
    calculateOverallCompletion (Some (toggled getDefaultTasks "technical" 1))
    = Number after
    ∧ 0 < after.
Proof.
  destruct (toggled_overall_percentage getDefaultTasks "technical" 1
              default_technical
              (mkTask 1 "Configure robots.txt" false "Frontend Developer"
                 "Tells search engines which pages to crawl and which to ignore. Improves crawl efficiency and prevents indexing of sensitive or duplicate content. Directly impacts which pages appear in search results.")
              eq_refl)
    as (before & after & Hb & Ha & Hb100 & Ha100 & Hlt).
  - apply (bool_decide_unpack _). vm_compute. exact I.
  - reflexivity.
  - vm_compute. lia.
  - cbn [completed] in Hlt. exists after. split; [exact Ha|lia].
Defined.
